(** * Starshot IR: lexer, parser, checkers and Python emitter

    A shallow embedding of the Starshot pipeline
    ([starshot/ir/lexer.py], [starshot/ir/parser.py],
    [starshot/compiler/effect_checker.py],
    [starshot/compiler/contract_checker.py],
    [starshot/compiler/python_emitter.py]) together with the properties
    that the specification states about it.

    Conventions of the embedding.
    - A Python [str] is a Rocq [string]; each [ascii] stands for the
      code point of the same number, so source texts range over the
      code points below 256.
    - A Python exception is a value of [PyError]; a method that may
      raise returns [Result].
    - A Python [float] is identified with its [repr] text (the shortest
      text that reads back as the same float). *)

From Stdlib Require Import ZArith String Ascii List DecimalString Lia.
From stdpp Require Import gmap strings list.

Open Scope string_scope.
Open Scope list_scope.
Open Scope nat_scope.
Open Scope stdpp_scope.
Set Warnings "-register-all,-clear-no-such-hyp".

(** ** Exceptions and the error monad *)

Inductive PyError : Type :=
| IndexError
| NameError
| AttributeError
| ValueError
| TypeError
| LexError (msg : string) (line col : nat)
| ParseError (msg : string) (loc : option (nat * nat)).

Inductive Result (A : Type) : Type :=
| Ok (a : A)
| Raise (e : PyError).
Arguments Ok {A} a.
Arguments Raise {A} e.

Global Instance Result_ret : MRet Result := fun A a => Ok a.
Global Instance Result_bind : MBind Result := fun A B k r =>
  match r with
  | Ok a => k a
  | Raise e => Raise e
  end.

(** [[f(a) for a in l]] with a raising [f]: the elements are visited
    from left to right and the first exception escapes. *)
Fixpoint mapM {A B} (f : A -> Result B) (l : list A) : Result (list B) :=
  match l with
  | [] => Ok []
  | a :: l' => b ← f a; bs ← mapM f l'; Ok (b :: bs)
  end.

(** ** Host string primitives *)

Definition chr (n : nat) : ascii := ascii_of_nat n.
Definition ord (c : ascii) : nat := nat_of_ascii c.

Definition str1 (c : ascii) : string := String c EmptyString.

(** [s.replace(c, new)] for a one-character [c]. *)
Fixpoint replace_char (c : ascii) (new : string) (s : string) : string :=
  match s with
  | EmptyString => EmptyString
  | String a s' =>
      if Ascii.eqb a c then new +:+ replace_char c new s'
      else String a (replace_char c new s')
  end.

(** [sep.join(l)] *)
Definition join (sep : string) (l : list string) : string := String.concat sep l.

Fixpoint str_contains_char (c : ascii) (s : string) : bool :=
  match s with
  | EmptyString => false
  | String a s' => Ascii.eqb a c || str_contains_char c s'
  end.

(** [x in (a, b, ...)] for strings. *)
Definition str_in (x : string) (l : list string) : bool :=
  existsb (String.eqb x) l.

(** [repr] of an [int]. *)
Definition repr_int (z : Z) : string := NilZero.string_of_int (Z.to_int z).
Definition repr_nat (n : nat) : string := repr_int (Z.of_nat n).

(** [str.isprintable] and [str.isdigit] on one code point below 256. *)
Definition isprintable (c : ascii) : bool :=
  let n := ord c in
  (((32 <=? n) && (n <=? 126)) || ((161 <=? n) && negb (n =? 173)))%nat.

Definition isdigit_char (c : ascii) : bool :=
  let n := ord c in
  (((48 <=? n) && (n <=? 57)) || (n =? 178) || (n =? 179) || (n =? 185))%nat.

Definition is_ascii_digit (c : ascii) : bool :=
  let n := ord c in ((48 <=? n) && (n <=? 57))%nat.

Fixpoint forall_chars (p : ascii -> bool) (s : string) : bool :=
  match s with
  | EmptyString => true
  | String a s' => p a && forall_chars p s'
  end.

(** [s.isdigit()]: every character is a digit and there is at least one. *)
Definition isdigit (s : string) : bool :=
  match s with
  | EmptyString => false
  | _ => forall_chars isdigit_char s
  end.

Definition hex_digit (n : nat) : ascii :=
  if (n <? 10)%nat then chr (48 + n) else chr (87 + n).

(** [repr] of a [str]: single quotes unless the text holds a single
    quote and no double quote; backslash, the quote, tab, newline and
    carriage return are escaped, and every other code point that is not
    printable is written [\xhh]. *)
Definition repr_str_char (quote : ascii) (c : ascii) : string :=
  let n := ord c in
  if Ascii.eqb c quote || Ascii.eqb c (chr 92) then String (chr 92) (str1 c)
  else if (n =? 9)%nat then String (chr 92) "t"
  else if (n =? 10)%nat then String (chr 92) "n"
  else if (n =? 13)%nat then String (chr 92) "r"
  else if isprintable c then str1 c
  else String (chr 92) (String "x" (String (hex_digit (n / 16)) (str1 (hex_digit (n mod 16))))).

Fixpoint flat_map_chars (f : ascii -> string) (s : string) : string :=
  match s with
  | EmptyString => EmptyString
  | String a s' => f a +:+ flat_map_chars f s'
  end.

Definition repr_str (s : string) : string :=
  let quote :=
    if str_contains_char (chr 39) s && negb (str_contains_char (chr 34) s)
    then chr 34 else chr 39 in
  String quote (flat_map_chars (repr_str_char quote) s +:+ str1 quote).

(** ** AST ([starshot/ir/ast_nodes.py]) *)

Module Ast.

Inductive TypeExpr : Type :=
| PrimitiveType (name : string)
| ListType (elem : TypeExpr)
| OptionType (elem : TypeExpr)
| TupleType (elems : list TypeExpr)
| RecordType (fields : list (string * TypeExpr))
| FunctionType (param ret : TypeExpr)
| EnumType (variants : list (string * list TypeExpr))
| NamedType (name : string).

(** A float, by its [repr] text. *)
Record PyFloat : Type := mkFloat { float_repr : string }.

(** The [object] stored in a literal: [int], [float], [str], [bool] or
    [None]. *)
Inductive PyVal : Type :=
| VInt (z : Z)
| VFloat (f : PyFloat)
| VStr (s : string)
| VBool (b : bool)
| VNone.

Inductive Pattern : Type :=
| WildcardPattern
| LiteralPattern (value : PyVal)
| IdentPattern (name : string)
| ConstructorPattern (name : string) (args : list Pattern).

Inductive Expr : Type :=
| LitExpr (value : PyVal) (type_hint : string)
| IdentExpr (name : string)
| LetExpr (name : string) (value body : Expr)
| IfExpr (cond then_ else_ : Expr)
| MatchExpr (target : Expr) (arms : list MatchArm)
| LambdaExpr (params : list (string * option TypeExpr)) (body : Expr)
| PipeExpr (value : Expr) (steps : list Expr)
| DoExpr (exprs : list Expr)
| OpExpr (op : string) (args : list Expr)
| CallExpr (func : string) (args : list Expr)
| ListExpr (elems : list Expr)
| RecordExpr (type_name : string) (fields : list (string * Expr))
| GetExpr (obj : Expr) (field : string)
| SetExpr (obj : Expr) (field : string) (value : Expr)
| BuiltinExpr (name : string) (args : list Expr)
| SomeExpr (value : Expr)
| NoneExpr
| TryExpr (body : Expr) (catch_var : string) (catch_body : Expr)
| ErrorExpr (message : Expr)
with MatchArm : Type :=
| mkMatchArm (pattern : Pattern) (body : Expr).

Definition arm_pattern (a : MatchArm) : Pattern :=
  match a with mkMatchArm p _ => p end.
Definition arm_body (a : MatchArm) : Expr :=
  match a with mkMatchArm _ b => b end.

Record Contract : Type := mkContract {
  preconditions : list Expr;
  postconditions : list Expr
}.

Record Graph : Type := mkGraph {
  g_name : string;
  g_inputs : list (string * TypeExpr);
  g_output : TypeExpr;
  g_effects : list string;
  g_contract : option Contract;
  g_body : Expr
}.

Record TypeDef : Type := mkTypeDef {
  td_name : string;
  td_type_expr : TypeExpr
}.

Inductive Definition_ : Type :=
| DefType (td : TypeDef)
| DefGraph (g : Graph).

Record Program : Type := mkProgram { definitions : list Definition_ }.

(** [Program.graphs] *)
Definition graphs (p : Program) : list Graph :=
  omap (fun d => match d with DefGraph g => Some g | DefType _ => None end)
       (definitions p).

(** [isinstance(e, LambdaExpr)] *)
Definition is_lambda (e : Expr) : bool :=
  match e with LambdaExpr _ _ => true | _ => false end.

End Ast.
Import Ast.

(** ** Emitter ([starshot/compiler/python_emitter.py]) *)

Module Emitter.

Definition _ALL_BUILTINS : list string :=
  [ "not"; "map"; "filter"; "reduce"; "head"; "tail";
    "cons"; "append"; "nth"; "range"; "empty?";
    "sort-by"; "length"; "concat"; "substr"; "split";
    "join"; "format"; "print"; "read-line";
    "some"; "none"; "some?"; "unwrap"; "map-opt";
    "or-else"; "error"; "try"; "catch"; "set";
    "reverse"; "first"; "second"; "last"; "contains";
    "abs"; "min"; "max"; "to-string"; "to-int"; "to-float";
    "to-lower"; "to-upper"; "string-length"; "char-at";
    "string-starts-with"; "string-ends-with"; "string-contains";
    "string-replace"; "string-trim"; "flat-map"; "zip";
    "take"; "drop"; "slice"; "index-of"; "sum"; "product";
    "any"; "all"; "enumerate"; "dict"; "keys"; "values";
    "has-key"; "get-or"; "int-to-string";
    "list_get"; "list-get"; "string_trim"; "string_starts_with";
    "string_ends_with"; "string_contains"; "string_replace";
    "int_to_string"; "to_string"; "to_lower"; "to_upper";
    "empty_q"; "some_q"; "sort_by"; "map_opt"; "or_else";
    "read_line"; "flat_map" ].

Definition _ALL_OPERATORS : list string :=
  [ "+"; "-"; "*"; "/"; "%"; "=="; "!="; "<"; ">"; "<="; ">="; "and"; "or"; "not" ].

Definition python_keywords : list string :=
  [ "lambda"; "class"; "def"; "return"; "import"; "from"; "as";
    "if"; "else"; "elif"; "while"; "for"; "break"; "continue";
    "pass"; "raise"; "try"; "except"; "finally"; "with"; "yield";
    "assert"; "del"; "in"; "is"; "not"; "and"; "or"; "global";
    "nonlocal"; "True"; "False"; "None"; "match"; "case"; "type" ].

Definition _sanitize_name (name : string) : string :=
  let name := replace_char "?" "_q" (replace_char "-" "_" name) in
  if str_in name python_keywords then name +:+ "_" else name.

(** [repr(value)] *)
Definition repr (v : PyVal) : string :=
  match v with
  | VInt z => repr_int z
  | VFloat f => float_repr f
  | VStr s => repr_str s
  | VBool b => if b then "True" else "False"
  | VNone => "None"
  end.

(** Truth value of an object, as [if value] tests it. *)
Definition truthy (v : PyVal) : bool :=
  match v with
  | VInt z => negb (Z.eqb z 0)
  | VFloat f => negb (str_in (float_repr f) ["0.0"; "-0.0"])
  | VStr s => negb (String.eqb s "")
  | VBool b => b
  | VNone => false
  end.

Definition _lit (value : PyVal) (type_hint : string) : Result string :=
  if String.eqb type_hint "string" then
    match value with
    | VStr s =>
        let escaped :=
          replace_char (chr 10) (String (chr 92) "n")
            (replace_char (chr 34) (String (chr 92) (str1 (chr 34)))
               (replace_char (chr 92) (String (chr 92) (str1 (chr 92))) s)) in
        Ok (str1 (chr 34) +:+ escaped +:+ str1 (chr 34))
    | _ => Raise AttributeError
    end
  else if String.eqb type_hint "bool" then
    Ok (if truthy value then "True" else "False")
  else if String.eqb type_hint "unit" then Ok "None"
  else if String.eqb type_hint "float" then Ok (repr value)
  else Ok (repr value).

Definition _pattern_condition (pat : Pattern) (target : string) : string :=
  match pat with
  | WildcardPattern => "True"
  | LiteralPattern value => target +:+ " == " +:+ repr value
  | IdentPattern _ => "True"
  | ConstructorPattern name _ =>
      "isinstance(" +:+ target +:+ ", " +:+ _sanitize_name name +:+ ")"
  end.

(** The loop of [_pattern_bindings] over [enumerate(pat.args)]; [n] is
    [len(pat.args)] and [i] the index of the head of [args]. *)
Fixpoint pattern_bindings_from (target : string) (n i : nat) (args : list Pattern)
  : list (string * string) :=
  match args with
  | [] => []
  | IdentPattern name :: rest =>
      let accessor :=
        if (n =? 1)%nat then target +:+ ".value"
        else target +:+ "._" +:+ repr_nat i in
      (_sanitize_name name, accessor) :: pattern_bindings_from target n (S i) rest
  | _ :: rest => pattern_bindings_from target n (S i) rest
  end.

Definition _pattern_bindings (pat : Pattern) (target : string) : list (string * string) :=
  match pat with
  | ConstructorPattern _ args => pattern_bindings_from target (length args) 0 args
  | _ => []
  end.

(** One entry of [arms_code] in [_match_expr]. *)
Inductive ArmCode : Type :=
| Catchall (data : string)
| Cond (cond body : string).

(** [_build_match_chain(arms, idx)], on the slice [arms[idx:]]. *)
Fixpoint _build_match_chain (arms : list ArmCode) : string :=
  match arms with
  | [] => "None"
  | Catchall data :: _ => data
  | Cond cond body :: rest =>
      "(" +:+ body +:+ " if " +:+ cond +:+ " else " +:+ _build_match_chain rest +:+ ")"
  end.

Definition is_catchall (pat : Pattern) : bool :=
  match pat with
  | WildcardPattern | IdentPattern _ => true
  | _ => false
  end.

(** What one iteration of the loop of [_match_expr] appends to
    [arms_code], given the compiled body of the arm. *)
Definition arm_code (pat : Pattern) (body : string) : ArmCode :=
  let cond := _pattern_condition pat "_mt_" in
  let bindings := _pattern_bindings pat "_mt_" in
  let bound_body :=
    match bindings with
    | [] => body
    | _ => "(lambda " +:+ join ", " (map fst bindings) +:+ ": " +:+ body +:+ ")("
             +:+ join ", " (map snd bindings) +:+ ")"
    end in
  if is_catchall pat then
    match pat with
    | IdentPattern name =>
        Catchall ("(lambda " +:+ _sanitize_name name +:+ ": " +:+ body +:+ ")(_mt_)")
    | _ => Catchall bound_body
    end
  else Cond cond bound_body.

(** [args[i]] on the compiled arguments. *)
Definition arg (args : list string) (i : nat) : Result string :=
  match args !! i with
  | Some a => Ok a
  | None => Raise IndexError
  end.

Definition _order_fn_list_args (raw_args : list Expr) (compiled_args : list string)
  : Result (string * string) :=
  match raw_args with
  | [r0; r1] =>
      if is_lambda r0 then
        a0 ← arg compiled_args 0; a1 ← arg compiled_args 1; Ok (a0, a1)
      else if is_lambda r1 then
        a1 ← arg compiled_args 1; a0 ← arg compiled_args 0; Ok (a1, a0)
      else
        a0 ← arg compiled_args 0; a1 ← arg compiled_args 1; Ok (a0, a1)
  | _ => a0 ← arg compiled_args 0; a1 ← arg compiled_args 1; Ok (a0, a1)
  end.

Definition py_ops : list (string * string) :=
  [ ("+", "+"); ("-", "-"); ("*", "*"); ("/", "//"); ("%", "%");
    ("==", "=="); ("!=", "!="); ("<", "<"); (">", ">"); ("<=", "<="); (">=", ">=");
    ("and", "and"); ("or", "or") ].

(** [d.get(k, default)] on a dict written as its list of items. *)
Fixpoint dict_get (d : list (string * string)) (k default : string) : string :=
  match d with
  | [] => default
  | (k', v) :: d' => if String.eqb k k' then v else dict_get d' k default
  end.

(** [_op_expr], on the operator and the compiled arguments. *)
Definition _op_expr (op_name : string) (args : list string) : string :=
  let op := dict_get py_ops op_name op_name in
  match args with
  | [a] =>
      if String.eqb op_name "-" then "(-" +:+ a +:+ ")"
      else if String.eqb op_name "not" then "(not " +:+ a +:+ ")"
      else "(" +:+ join (" " +:+ op +:+ " ") args +:+ ")"
  | [lhs; rhs] => "(" +:+ lhs +:+ " " +:+ op +:+ " " +:+ rhs +:+ ")"
  | _ => "(" +:+ join (" " +:+ op +:+ " ") args +:+ ")"
  end.

(** [_builtin_expr], on the node's name, its arguments [raw] (read only
    by the [isinstance] tests) and their compiled texts [args].  The
    assignment to [needs_functools] is left out: no text depends on it. *)
Definition _builtin_expr (name : string) (raw : list Expr) (args : list string)
  : Result string :=
  let named (n : string) := String.eqb name n in
  let among (l : list string) := str_in name l in
  if named "not" then
    a0 ← arg args 0; Ok ("(not " +:+ a0 +:+ ")")
  else if named "map" then
    '(fn_arg, list_arg) ← _order_fn_list_args raw args;
    Ok ("[" +:+ fn_arg +:+ "(_x_) for _x_ in " +:+ list_arg +:+ "]")
  else if named "filter" then
    '(fn_arg, list_arg) ← _order_fn_list_args raw args;
    Ok ("[_x_ for _x_ in " +:+ list_arg +:+ " if " +:+ fn_arg +:+ "(_x_)]")
  else if named "reduce" then
    match raw with
    | [r0; r1; r2] =>
        a0 ← arg args 0; a1 ← arg args 1; a2 ← arg args 2;
        if is_lambda r0 then
          Ok ("functools.reduce(" +:+ a0 +:+ ", " +:+ a2 +:+ ", " +:+ a1 +:+ ")")
        else if is_lambda r1 then
          Ok ("functools.reduce(" +:+ a1 +:+ ", " +:+ a0 +:+ ", " +:+ a2 +:+ ")")
        else if is_lambda r2 then
          Ok ("functools.reduce(" +:+ a2 +:+ ", " +:+ a0 +:+ ", " +:+ a1 +:+ ")")
        else
          Ok ("functools.reduce(" +:+ a0 +:+ ", " +:+ a2 +:+ ", " +:+ a1 +:+ ")")
    | [r0; r1] =>
        a0 ← arg args 0; a1 ← arg args 1;
        if is_lambda r0 then
          Ok ("functools.reduce(" +:+ a0 +:+ ", " +:+ a1 +:+ ")")
        else
          Ok ("functools.reduce(" +:+ a1 +:+ ", " +:+ a0 +:+ ")")
    | _ => Ok ("functools.reduce(" +:+ join ", " args +:+ ")")
    end
  else if named "head" then a0 ← arg args 0; Ok (a0 +:+ "[0]")
  else if named "tail" then a0 ← arg args 0; Ok (a0 +:+ "[1:]")
  else if named "cons" then
    a0 ← arg args 0; a1 ← arg args 1; Ok ("[" +:+ a0 +:+ "] + " +:+ a1)
  else if named "append" then
    a0 ← arg args 0; a1 ← arg args 1; Ok (a0 +:+ " + [" +:+ a1 +:+ "]")
  else if named "nth" then
    a0 ← arg args 0; a1 ← arg args 1; Ok (a0 +:+ "[" +:+ a1 +:+ "]")
  else if named "range" then
    match args with
    | [a0] => Ok ("list(range(" +:+ a0 +:+ "))")
    | [a0; a1] => Ok ("list(range(" +:+ a0 +:+ ", " +:+ a1 +:+ "))")
    | _ =>
        a0 ← arg args 0; a1 ← arg args 1; a2 ← arg args 2;
        Ok ("list(range(" +:+ a0 +:+ ", " +:+ a1 +:+ ", " +:+ a2 +:+ "))")
    end
  else if named "empty?" || named "empty_q" then
    a0 ← arg args 0; Ok ("(len(" +:+ a0 +:+ ") == 0)")
  else if named "sort-by" || named "sort_by" then
    a1 ← arg args 1; a0 ← arg args 0; Ok ("sorted(" +:+ a1 +:+ ", key=" +:+ a0 +:+ ")")
  else if named "length" then a0 ← arg args 0; Ok ("len(" +:+ a0 +:+ ")")
  else if named "concat" then
    Ok (join " + "
          (imap (fun i a =>
                   if (0 <? i)%nat || (2 <? length args)%nat
                   then "str(" +:+ a +:+ ")" else a) args))
  else if named "substr" then
    match args with
    | [a0; a1] => Ok (a0 +:+ "[" +:+ a1 +:+ ":]")
    | _ =>
        a0 ← arg args 0; a1 ← arg args 1; a2 ← arg args 2;
        Ok (a0 +:+ "[" +:+ a1 +:+ ":" +:+ a2 +:+ "]")
    end
  else if named "split" then
    match raw with
    | _ :: LitExpr (VStr "") _ :: _ => a0 ← arg args 0; Ok ("list(" +:+ a0 +:+ ")")
    | _ => a0 ← arg args 0; a1 ← arg args 1; Ok (a0 +:+ ".split(" +:+ a1 +:+ ")")
    end
  else if named "join" then
    a0 ← arg args 0; a1 ← arg args 1; Ok (a0 +:+ ".join(" +:+ a1 +:+ ")")
  else if named "format" then
    match args with
    | [a0] => Ok ("str(" +:+ a0 +:+ ")")
    | _ => a0 ← arg args 0; Ok (a0 +:+ ".format(" +:+ join ", " (tail args) +:+ ")")
    end
  else if named "print" then Ok ("print(" +:+ join ", " args +:+ ")")
  else if named "read-line" || named "read_line" then Ok "input()"
  else if named "some" then arg args 0
  else if named "none" then Ok "None"
  else if named "some?" || named "some_q" then
    a0 ← arg args 0; Ok ("(" +:+ a0 +:+ " is not None)")
  else if named "unwrap" then arg args 0
  else if named "map-opt" || named "map_opt" then
    a0 ← arg args 0; a1 ← arg args 1;
    Ok ("(" +:+ a0 +:+ "(" +:+ a1 +:+ ") if " +:+ a1 +:+ " is not None else None)")
  else if named "or-else" || named "or_else" then
    a0 ← arg args 0; a1 ← arg args 1;
    Ok ("(" +:+ a0 +:+ " if " +:+ a0 +:+ " is not None else " +:+ a1 +:+ ")")
  else if named "error" then
    a0 ← arg args 0; Ok ("(_ for _ in ()).throw(RuntimeError(" +:+ a0 +:+ "))")
  else if named "set" then
    a0 ← arg args 0; a1 ← arg args 1; a2 ← arg args 2;
    Ok ("__import__('dataclasses').replace(" +:+ a0 +:+ ", " +:+ a1 +:+ "=" +:+ a2 +:+ ")")
  else if named "reverse" then a0 ← arg args 0; Ok ("list(reversed(" +:+ a0 +:+ "))")
  else if named "first" then a0 ← arg args 0; Ok (a0 +:+ "[0]")
  else if named "second" then a0 ← arg args 0; Ok (a0 +:+ "[1]")
  else if named "last" then a0 ← arg args 0; Ok (a0 +:+ "[-1]")
  else if named "contains" || named "string-contains" || named "string_contains" then
    a1 ← arg args 1; a0 ← arg args 0; Ok ("(" +:+ a1 +:+ " in " +:+ a0 +:+ ")")
  else if named "abs" then a0 ← arg args 0; Ok ("abs(" +:+ a0 +:+ ")")
  else if named "min" then
    match args with
    | [a0] => Ok ("min(" +:+ a0 +:+ ")")
    | _ => a0 ← arg args 0; a1 ← arg args 1; Ok ("min(" +:+ a0 +:+ ", " +:+ a1 +:+ ")")
    end
  else if named "max" then
    match args with
    | [a0] => Ok ("max(" +:+ a0 +:+ ")")
    | _ => a0 ← arg args 0; a1 ← arg args 1; Ok ("max(" +:+ a0 +:+ ", " +:+ a1 +:+ ")")
    end
  else if among ["to-string"; "to_string"; "int-to-string"; "int_to_string"] then
    a0 ← arg args 0; Ok ("str(" +:+ a0 +:+ ")")
  else if among ["to-int"; "to_int"] then a0 ← arg args 0; Ok ("int(" +:+ a0 +:+ ")")
  else if among ["to-float"; "to_float"] then a0 ← arg args 0; Ok ("float(" +:+ a0 +:+ ")")
  else if among ["to-lower"; "to_lower"] then a0 ← arg args 0; Ok (a0 +:+ ".lower()")
  else if among ["to-upper"; "to_upper"] then a0 ← arg args 0; Ok (a0 +:+ ".upper()")
  else if among ["string-length"; "string_length"] then
    a0 ← arg args 0; Ok ("len(" +:+ a0 +:+ ")")
  else if among ["char-at"; "char_at"] then
    a0 ← arg args 0; a1 ← arg args 1; Ok (a0 +:+ "[" +:+ a1 +:+ "]")
  else if among ["string-starts-with"; "string_starts_with"] then
    a0 ← arg args 0; a1 ← arg args 1; Ok (a0 +:+ ".startswith(" +:+ a1 +:+ ")")
  else if among ["string-ends-with"; "string_ends_with"] then
    a0 ← arg args 0; a1 ← arg args 1; Ok (a0 +:+ ".endswith(" +:+ a1 +:+ ")")
  else if among ["string-replace"; "string_replace"] then
    a0 ← arg args 0; a1 ← arg args 1; a2 ← arg args 2;
    Ok (a0 +:+ ".replace(" +:+ a1 +:+ ", " +:+ a2 +:+ ")")
  else if among ["string-trim"; "string_trim"] then a0 ← arg args 0; Ok (a0 +:+ ".strip()")
  else if among ["flat-map"; "flat_map"] then
    a1 ← arg args 1; a0 ← arg args 0;
    Ok ("[_y_ for _x_ in " +:+ a1 +:+ " for _y_ in " +:+ a0 +:+ "(_x_)]")
  else if named "zip" then
    a0 ← arg args 0; a1 ← arg args 1; Ok ("list(zip(" +:+ a0 +:+ ", " +:+ a1 +:+ "))")
  else if named "take" then
    a1 ← arg args 1; a0 ← arg args 0; Ok (a1 +:+ "[:" +:+ a0 +:+ "]")
  else if named "drop" then
    a1 ← arg args 1; a0 ← arg args 0; Ok (a1 +:+ "[" +:+ a0 +:+ ":]")
  else if named "slice" then
    a0 ← arg args 0; a1 ← arg args 1; a2 ← arg args 2;
    Ok (a0 +:+ "[" +:+ a1 +:+ ":" +:+ a2 +:+ "]")
  else if among ["index-of"; "index_of"] then
    a0 ← arg args 0; a1 ← arg args 1;
    Ok ("(" +:+ a0 +:+ ".index(" +:+ a1 +:+ ") if " +:+ a1 +:+ " in " +:+ a0 +:+ " else -1)")
  else if named "sum" then a0 ← arg args 0; Ok ("sum(" +:+ a0 +:+ ")")
  else if named "product" then
    a0 ← arg args 0; Ok ("functools.reduce(lambda a, b: a * b, " +:+ a0 +:+ ", 1)")
  else if named "any" then
    (* the two-argument text reads the unbound Python name [_x_] *)
    if (1 <? length args)%nat then Raise NameError
    else a0 ← arg args 0; Ok ("any(" +:+ a0 +:+ ")")
  else if named "all" then
    if (1 <? length args)%nat then Raise NameError
    else a0 ← arg args 0; Ok ("all(" +:+ a0 +:+ ")")
  else if named "enumerate" then a0 ← arg args 0; Ok ("list(enumerate(" +:+ a0 +:+ "))")
  else if named "dict" then Ok ("{" +:+ join ", " args +:+ "}")
  else if named "keys" then a0 ← arg args 0; Ok ("list(" +:+ a0 +:+ ".keys())")
  else if named "values" then a0 ← arg args 0; Ok ("list(" +:+ a0 +:+ ".values())")
  else if among ["has-key"; "has_key"] then
    a1 ← arg args 1; a0 ← arg args 0; Ok ("(" +:+ a1 +:+ " in " +:+ a0 +:+ ")")
  else if among ["get-or"; "get_or"] then
    a0 ← arg args 0; a1 ← arg args 1; a2 ← arg args 2;
    Ok (a0 +:+ ".get(" +:+ a1 +:+ ", " +:+ a2 +:+ ")")
  else if among ["list-get"; "list_get"] then
    a0 ← arg args 0; a1 ← arg args 1; Ok (a0 +:+ "[" +:+ a1 +:+ "]")
  else if named "tuple" then
    match args with
    | [_] => Ok ("(" +:+ join ", " args +:+ ",)")
    | _ => Ok ("(" +:+ join ", " args +:+ ")")
    end
  else Ok (_sanitize_name name +:+ "(" +:+ join ", " args +:+ ")").

(** The methods below call [_expr] on sub-expressions; they take it as
    [self_expr] and [_expr] closes the recursion. *)
Section Methods.
Variable self_expr : Expr -> Result string.

(** The call [callee(pipe_val, args)], or [callee(pipe_val)] when the
    joined [args] is the empty text. *)
Definition pipe_call (callee : string) (pipe_val : string) (raw : list Expr)
  : Result string :=
  compiled ← mapM self_expr raw;
  let args := join ", " compiled in
  if String.eqb args "" then Ok (callee +:+ "(" +:+ pipe_val +:+ ")")
  else Ok (callee +:+ "(" +:+ pipe_val +:+ ", " +:+ args +:+ ")").

Definition _apply_pipe_step (step : Expr) (pipe_val : string) : Result string :=
  match step with
  | BuiltinExpr name args =>
      if String.eqb name "filter" then
        fn ← match args with a0 :: _ => self_expr a0 | [] => Ok "None" end;
        Ok ("[_x_ for _x_ in " +:+ pipe_val +:+ " if " +:+ fn +:+ "(_x_)]")
      else if String.eqb name "map" then
        fn ← match args with a0 :: _ => self_expr a0 | [] => Ok "None" end;
        Ok ("[" +:+ fn +:+ "(_x_) for _x_ in " +:+ pipe_val +:+ "]")
      else if String.eqb name "reduce" then
        fn ← match args with a0 :: _ => self_expr a0 | [] => Raise IndexError end;
        init ← match args with _ :: a1 :: _ => self_expr a1 | _ => Ok "None" end;
        Ok ("functools.reduce(" +:+ fn +:+ ", " +:+ pipe_val +:+ ", " +:+ init +:+ ")")
      else if String.eqb name "sort-by" || String.eqb name "sort_by" then
        fn ← match args with a0 :: _ => self_expr a0 | [] => Raise IndexError end;
        Ok ("sorted(" +:+ pipe_val +:+ ", key=" +:+ fn +:+ ")")
      else pipe_call (_sanitize_name name) pipe_val args
  | CallExpr func args => pipe_call (_sanitize_name func) pipe_val args
  | _ => s ← self_expr step; Ok (s +:+ "(" +:+ pipe_val +:+ ")")
  end.

(** The loop of [_pipe_expr] over [expr.steps]. *)
Fixpoint pipe_steps (steps : list Expr) (result : string) : Result string :=
  match steps with
  | [] => Ok result
  | step :: rest =>
      result ←
        match step with
        | BuiltinExpr _ _ | CallExpr _ _ => _apply_pipe_step step result
        | LambdaExpr _ _ => s ← self_expr step; Ok ("(" +:+ s +:+ ")(" +:+ result +:+ ")")
        | _ => s ← self_expr step; Ok (s +:+ "(" +:+ result +:+ ")")
        end;
      pipe_steps rest result
  end.

(** The loop of [_match_expr] over [expr.arms], with its [break] at
    the first wildcard or bind pattern. *)
Fixpoint match_arms (arms : list MatchArm) : Result (list ArmCode) :=
  match arms with
  | [] => Ok []
  | mkMatchArm pattern body :: rest =>
      body ← self_expr body;
      if is_catchall pattern then Ok [arm_code pattern body]
      else arms_code ← match_arms rest; Ok (arm_code pattern body :: arms_code)
  end.

(** [_call_expr], after the arguments are compiled: a builtin name
    goes to [_builtin_expr], an operator name to [_op_expr]. *)
Definition _call_expr (func : string) (raw : list Expr) (args : list string)
  : Result string :=
  if str_in func _ALL_BUILTINS then _builtin_expr func raw args
  else if str_in func _ALL_OPERATORS then Ok (_op_expr func args)
  else Ok (_sanitize_name func +:+ "(" +:+ join ", " args +:+ ")").
End Methods.

Fixpoint _expr (expr : Expr) : Result string :=
  match expr with
  | LitExpr value type_hint => _lit value type_hint
  | IdentExpr name =>
      if String.eqb name "empty" then Ok "[]" else Ok (_sanitize_name name)
  | LetExpr name value body =>
      (* _let_expr *)
      let sname := _sanitize_name name in
      val ← _expr value;
      body ← _expr body;
      Ok ("(lambda: ((" +:+ sname +:+ " := " +:+ val +:+ "), " +:+ body +:+ ")[-1])()")
  | IfExpr cond then_ else_ =>
      (* _if_expr *)
      cond ← _expr cond;
      then_ ← _expr then_;
      else_ ← _expr else_;
      Ok ("(" +:+ then_ +:+ " if " +:+ cond +:+ " else " +:+ else_ +:+ ")")
  | MatchExpr target arms =>
      (* _match_expr *)
      target ← _expr target;
      arms_code ← match_arms _expr arms;
      match arms_code with
      | [] => Ok "None"
      | _ => Ok ("(lambda _mt_: " +:+ _build_match_chain arms_code +:+ ")(" +:+ target +:+ ")")
      end
  | LambdaExpr params body =>
      (* _lambda_expr *)
      let params := join ", " (map (fun p => _sanitize_name (fst p)) params) in
      body ← _expr body;
      Ok ("(lambda " +:+ params +:+ ": " +:+ body +:+ ")")
  | PipeExpr value steps =>
      (* _pipe_expr *)
      result ← _expr value;
      pipe_steps _expr steps result
  | DoExpr exprs =>
      (* _do_expr *)
      match exprs with
      | [e] => _expr e
      | _ => parts ← mapM _expr exprs; Ok ("(" +:+ join ", " parts +:+ ")[-1]")
      end
  | OpExpr op args =>
      args ← mapM _expr args; Ok (_op_expr op args)
  | CallExpr func args =>
      compiled ← mapM _expr args; _call_expr func args compiled
  | ListExpr elems =>
      elems ← mapM _expr elems; Ok ("[" +:+ join ", " elems +:+ "]")
  | RecordExpr type_name fields =>
      (* _record_expr *)
      let sname := _sanitize_name type_name in
      fields ← mapM (fun '(fname, fval) =>
                       v ← _expr fval; Ok (_sanitize_name fname +:+ "=" +:+ v)) fields;
      Ok (sname +:+ "(" +:+ join ", " fields +:+ ")")
  | GetExpr obj field =>
      obj ← _expr obj; Ok (obj +:+ "." +:+ _sanitize_name field)
  | SetExpr obj field value =>
      obj ← _expr obj;
      val ← _expr value;
      Ok ("__import__('dataclasses').replace(" +:+ obj +:+ ", "
            +:+ _sanitize_name field +:+ "=" +:+ val +:+ ")")
  | BuiltinExpr name args =>
      compiled ← mapM _expr args; _builtin_expr name args compiled
  | SomeExpr value => _expr value
  | NoneExpr => Ok "None"
  | TryExpr body catch_var catch_body =>
      (* _try_expr *)
      body ← _expr body;
      _ ← _expr catch_body;
      Ok ("(lambda: (lambda _try_fn_: _try_fn_())(lambda: " +:+ body +:+ "))() if True else None")
  | ErrorExpr message =>
      msg ← _expr message;
      Ok ("(_ for _ in ()).throw(RuntimeError(" +:+ msg +:+ "))")
  end.

End Emitter.

(** [sorted(l)] on strings, by code point. *)
Fixpoint insert_sorted (x : string) (l : list string) : list string :=
  match l with
  | [] => [x]
  | y :: l' => if String.leb x y then x :: l else y :: insert_sorted x l'
  end.

Definition sorted (l : list string) : list string := foldr insert_sorted [] l.

(** ** Effect checker ([starshot/compiler/effect_checker.py]) *)

Module EffectChecker.

Definition IO_BUILTINS : gset string := {[ "print"; "read-line" ]}.
Definition FAIL_BUILTINS : gset string := {[ "error" ]}.

(** The loop of [check] that fills [self.graph_effects]: a later graph
    of the same name overwrites an earlier one. *)
Definition register_effects (program : Program) : gmap string (gset string) :=
  foldl (fun m defn =>
           match defn with
           | DefGraph g => <[g_name g := list_to_set (g_effects g)]> m
           | DefType _ => m
           end) ∅ (definitions program).

Section Checker.
Variable graph_effects : gmap string (gset string).

Fixpoint _collect_effects (expr : Expr) : gset string :=
  match expr with
  | CallExpr func args =>
      match graph_effects !! func with
      | Some callee_effects => callee_effects ∖ {[ "pure" ]}
      | None => ∅
      end ∪ ⋃ (map _collect_effects args)
  | BuiltinExpr name args =>
      (if decide (name ∈ IO_BUILTINS) then {[ "io" ]} else ∅)
      ∪ (if decide (name ∈ FAIL_BUILTINS) then {[ "fail" ]} else ∅)
      ∪ ⋃ (map _collect_effects args)
  | LetExpr _ value body => _collect_effects value ∪ _collect_effects body
  | IfExpr cond then_ else_ =>
      _collect_effects cond ∪ _collect_effects then_ ∪ _collect_effects else_
  | MatchExpr target arms =>
      _collect_effects target
      ∪ ⋃ (map (fun arm => match arm with mkMatchArm _ body => _collect_effects body end) arms)
  | LambdaExpr _ body => _collect_effects body
  | PipeExpr value steps => _collect_effects value ∪ ⋃ (map _collect_effects steps)
  | DoExpr exprs => ⋃ (map _collect_effects exprs)
  | OpExpr _ args => ⋃ (map _collect_effects args)
  | ListExpr elems => ⋃ (map _collect_effects elems)
  | RecordExpr _ fields =>
      ⋃ (map (fun fv => match fv with (_, val) => _collect_effects val end) fields)
  | GetExpr obj _ => _collect_effects obj
  | TryExpr body _ catch_body => _collect_effects body ∪ _collect_effects catch_body
  | _ => ∅
  end.

(** The diagnostics that [_check_graph] appends to [self.errors]. *)
Definition _check_graph (graph : Graph) : list string :=
  let declared : gset string := list_to_set (g_effects graph) in
  let required := _collect_effects (g_body graph) in
  if decide ("pure" ∈ declared ∧ declared = {[ "pure" ]}) then
    if decide (required ∖ {[ "pure" ]} = ∅) then []
    else [ "Graph '" +:+ g_name graph +:+ "' is declared pure but requires effects: "
             +:+ join ", " (sorted (elements (required ∖ {[ "pure" ]}))) ]
  else
    let missing := required ∖ declared ∖ {[ "pure" ]} in
    if decide (missing = ∅) then []
    else [ "Graph '" +:+ g_name graph +:+ "' uses effects "
             +:+ join ", " (sorted (elements missing))
             +:+ " not in its declaration ["
             +:+ join ", " (sorted (elements declared)) +:+ "]" ].
End Checker.

(** [EffectChecker(program).check()] *)
Definition check_effects (program : Program) : list string :=
  let graph_effects := register_effects program in
  flat_map (fun defn =>
              match defn with
              | DefGraph g => _check_graph graph_effects g
              | DefType _ => []
              end) (definitions program).

End EffectChecker.

(** ** Contract checker ([starshot/compiler/contract_checker.py]) *)

Module ContractChecker.

Fixpoint _free_vars (expr : Expr) : gset string :=
  match expr with
  | IdentExpr name => {[ name ]}
  | OpExpr _ args => ⋃ (map _free_vars args)
  | BuiltinExpr _ args => ⋃ (map _free_vars args)
  | CallExpr _ args => ⋃ (map _free_vars args)
  | _ => ∅
  end.

(** One of the two loops of [_check_contract]: [kind] is the word of the
    message, [valid] the names the conditions may use. *)
Definition check_conditions (gname kind : string) (valid : gset string)
    (conds : list Expr) : list string :=
  mjoin (imap (fun i cond =>
                 let free := _free_vars cond in
                 let invalid := free ∖ valid in
                 if decide (invalid = ∅) then []
                 else [ "Graph '" +:+ gname +:+ "' " +:+ kind +:+ " " +:+ repr_nat (i + 1)
                          +:+ " references undefined variables: "
                          +:+ join ", " (sorted (elements invalid)) ]) conds).

Definition _check_contract (graph : Graph) (contract : Contract) : list string :=
  let param_names : gset string := list_to_set (map fst (g_inputs graph)) in
  check_conditions (g_name graph) "precondition" param_names (preconditions contract)
  ++ check_conditions (g_name graph) "postcondition" (param_names ∪ {[ "result" ]})
       (postconditions contract).

(** [ContractChecker(program).check()] *)
Definition check_contracts (program : Program) : list string :=
  flat_map (fun defn =>
              match defn with
              | DefGraph g =>
                  match g_contract g with
                  | Some contract => _check_contract g contract
                  | None => []
                  end
              | DefType _ => []
              end) (definitions program).

End ContractChecker.

(** ** Lexer ([starshot/ir/lexer.py]) *)

Module Lexer.

Inductive TokenType : Type := LPAREN | RPAREN | STRING | INT | FLOAT | IDENT | EOF.

Global Instance TokenType_eq_dec : EqDecision TokenType.
Proof. solve_decision. Defined.

Record Token : Type := mkToken {
  type : TokenType;
  value : string;
  line : nat;
  col : nat
}.

Definition quote_char : ascii := chr 34.
Definition backslash_char : ascii := chr 92.
Definition newline_char : ascii := chr 10.
Definition tab_char : ascii := chr 9.
Definition cr_char : ascii := chr 13.

(** [_is_atom_char]: none of the two parentheses, space, tab, newline,
    carriage return, semicolon and double quote, and [ch.isprintable()]. *)
Definition _is_atom_char (ch : ascii) : bool :=
  negb (existsb (Ascii.eqb ch)
          [ "("%char; ")"%char; " "%char; tab_char; newline_char; cr_char; ";"%char;
            quote_char ])
  && isprintable ch.

Definition _is_int (s : string) : bool :=
  match s with
  | String "-" rest => (1 <? String.length s)%nat && isdigit rest
  | _ => isdigit s
  end.

(** [t.split('.')], as the list of its parts. *)
Fixpoint split_dot (t : string) : list string :=
  match t with
  | EmptyString => [ EmptyString ]
  | String c t' =>
      if Ascii.eqb c "." then EmptyString :: split_dot t'
      else match split_dot t' with
           | p :: ps => String c p :: ps
           | [] => [ str1 c ]
           end
  end.

Definition _is_float (s : string) : bool :=
  let t := match s with String "-" rest => rest | _ => s end in
  if negb (str_contains_char "." t) then false
  else match split_dot t with
       | [p0; p1] => isdigit p0 && isdigit p1
       | _ => false
       end.

Definition _classify_atom (word : string) (line col : nat) : Token :=
  if _is_int word then mkToken INT word line col
  else if _is_float word then mkToken FLOAT word line col
  else mkToken IDENT word line col.

(** The comment loop: [while i < len(source) and source[i] != '\n': i += 1];
    the result is [source[i:]] when the loop stops. *)
Fixpoint skip_comment (s : string) : string :=
  match s with
  | EmptyString => EmptyString
  | String c s' => if Ascii.eqb c newline_char then s else skip_comment s'
  end.

(** The loop of a string literal, entered after the opening quote:
    [while i < len(source) and source[i] != QUOTE: ...].  The result is
    [source[i:]], [line], [col] and [buf] when the loop stops. *)
Fixpoint scan_string (s : string) (line col : nat) (buf : string)
  : string * nat * nat * string :=
  match s with
  | EmptyString => (s, line, col, buf)
  | String c s' =>
      if Ascii.eqb c quote_char then (s, line, col, buf)
      else if Ascii.eqb c backslash_char then
        match s' with
        | String esc s'' =>
            let ch :=
              if Ascii.eqb esc "n" then newline_char
              else if Ascii.eqb esc "t" then tab_char
              else if Ascii.eqb esc quote_char then quote_char
              else if Ascii.eqb esc backslash_char then backslash_char
              else esc in
            scan_string s'' line (col + 1 + 1) (buf +:+ str1 ch)
        | EmptyString =>
            (* a backslash that ends the text is an ordinary character *)
            scan_string s' line (col + 1) (buf +:+ str1 c)
        end
      else if Ascii.eqb c newline_char then
        scan_string s' (line + 1) (0 + 1) (buf +:+ str1 newline_char)
      else scan_string s' line (col + 1) (buf +:+ str1 c)
  end.

(** The atom loop: [while i < len(source) and _is_atom_char(source[i])];
    the result is [source[start:i]], [source[i:]] and [col]. *)
Fixpoint scan_atom (s : string) (col : nat) (word : string) : string * string * nat :=
  match s with
  | EmptyString => (word, s, col)
  | String c s' =>
      if _is_atom_char c then scan_atom s' (col + 1) (word +:+ str1 c)
      else (word, s, col)
  end.

(** The main loop of [tokenize] on [source[i:]].  Every iteration
    consumes a character, so [fuel] counts iterations; [None] means the
    budget ran out, which [tokenize] excludes by its choice of [fuel]. *)
Fixpoint tokenize_loop (fuel : nat) (s : string) (line col : nat) (tokens : list Token)
  : option (Result (list Token)) :=
  match fuel with
  | O => None
  | S fuel =>
      match s with
      | EmptyString => Some (Ok (tokens ++ [mkToken EOF "" line col]))
      | String ch s' =>
          if existsb (Ascii.eqb ch) [ " "%char; tab_char; cr_char ] then
            tokenize_loop fuel s' line (col + 1) tokens
          else if Ascii.eqb ch newline_char then
            tokenize_loop fuel s' (line + 1) 1 tokens
          else if Ascii.eqb ch ";" then
            tokenize_loop fuel (skip_comment s) line col tokens
          else if Ascii.eqb ch "(" then
            tokenize_loop fuel s' line (col + 1) (tokens ++ [mkToken LPAREN "(" line col])
          else if Ascii.eqb ch ")" then
            tokenize_loop fuel s' line (col + 1) (tokens ++ [mkToken RPAREN ")" line col])
          else if Ascii.eqb ch quote_char then
            let start_col := col in
            let '(rest, line, col, buf) := scan_string s' line (col + 1) "" in
            match rest with
            | EmptyString => Some (Raise (LexError "Unterminated string literal" line start_col))
            | String _ rest' =>
                tokenize_loop fuel rest' line (col + 1)
                  (tokens ++ [mkToken STRING buf line start_col])
            end
          else if _is_atom_char ch then
            let start_col := col in
            let '(word, rest, col) := scan_atom s col "" in
            tokenize_loop fuel rest line col (tokens ++ [_classify_atom word line start_col])
          else
            Some (Raise (LexError ("Unexpected character: " +:+ repr_str (str1 ch)) line col))
      end
  end.

Definition tokenize (source : string) : option (Result (list Token)) :=
  tokenize_loop (S (String.length source)) source 1 1 [].

End Lexer.

(** ** Parser ([starshot/ir/parser.py]) *)

Module Parser.
Import Lexer.

Definition OPERATORS : list string :=
  [ "+"; "-"; "*"; "/"; "%"; "=="; "!="; "<"; ">"; "<="; ">="; "and"; "or" ].

Definition BUILTINS : list string :=
  [ "not"; "map"; "filter"; "reduce"; "head"; "tail";
    "cons"; "append"; "nth"; "range"; "empty?";
    "sort-by"; "length"; "concat"; "substr"; "split";
    "join"; "format"; "print"; "read-line";
    "some"; "none"; "some?"; "unwrap"; "map-opt";
    "or-else"; "error"; "try"; "catch"; "set" ].

Definition PRIMITIVE_TYPES : list string := [ "Int"; "Float"; "String"; "Bool"; "Unit" ].

(** A parser method: from the position [self.pos] to a result and the
    new position, an exception, or [None] when the recursion budget of
    the model ran out. *)
Definition P (A : Type) : Type := nat -> option (Result (A * nat)).

Definition pure {A} (a : A) : P A := fun pos => Some (Ok (a, pos)).
Global Instance P_bind : MBind P := fun A B k m pos =>
  match m pos with
  | Some (Ok (a, pos')) => k a pos'
  | Some (Raise e) => Some (Raise e)
  | None => None
  end.

Definition raise {A} (e : PyError) : P A := fun _ => Some (Raise e).
Definition out_of_fuel {A} : P A := fun _ => None.

Definition TokenType_name (t : TokenType) : string :=
  match t with
  | LPAREN => "LPAREN" | RPAREN => "RPAREN" | STRING => "STRING" | INT => "INT"
  | FLOAT => "FLOAT" | IDENT => "IDENT" | EOF => "EOF"
  end.

(** [ParseError(msg, token)] *)
Definition parse_error_at {A} (msg : string) (tok : Token) : P A :=
  raise (ParseError msg (Some (line tok, col tok))).

(** [int(text)] on a token text: the digits [isdigit] accepts beyond
    0..9 are no decimal digits. *)
Definition digits_value (s : string) : Z :=
  (fix go (s : string) (acc : Z) : Z :=
     match s with
     | EmptyString => acc
     | String c s' => go s' (10 * acc + Z.of_nat (ord c - 48))%Z
     end) s 0%Z.

Definition is_decimal (s : string) : bool :=
  match s with
  | EmptyString => false
  | _ => forall_chars is_ascii_digit s
  end.

Definition py_int (text : string) : Result Z :=
  match text with
  | String "-" rest =>
      if is_decimal rest then Ok (- digits_value rest)%Z else Raise ValueError
  | _ => if is_decimal text then Ok (digits_value text) else Raise ValueError
  end.

Section Methods.
Variable tokens : list Token.
(** [float(text)] of the host on a text of decimal digits and one dot. *)
Variable float_of_literal : string -> PyFloat.

Definition py_float (text : string) : Result PyFloat :=
  if forall_chars (fun c => is_ascii_digit c || Ascii.eqb c "." || Ascii.eqb c "-") text
  then Ok (float_of_literal text) else Raise ValueError.

Definition peek : P Token := fun pos =>
  match tokens !! pos with
  | Some tok => Some (Ok (tok, pos))
  | None => Some (Raise IndexError)
  end.

Definition advance : P Token := fun pos =>
  match tokens !! pos with
  | Some tok => Some (Ok (tok, pos + 1))
  | None => Some (Raise IndexError)
  end.

Definition expect (ttype : TokenType) (val : option string) : P Token :=
  tok ← advance;
  if negb (bool_decide (type tok = ttype)) then
    parse_error_at ("Expected " +:+ TokenType_name ttype +:+ ", got "
                      +:+ TokenType_name (type tok) +:+ " (" +:+ repr_str (value tok) +:+ ")") tok
  else
    match val with
    | Some v =>
        if negb (String.eqb (value tok) v) then
          parse_error_at ("Expected " +:+ repr_str v +:+ ", got " +:+ repr_str (value tok)) tok
        else pure tok
    | None => pure tok
    end.

Definition expect_ident (val : option string) : P Token := expect IDENT val.

Definition at_lparen : P bool := tok ← peek; pure (bool_decide (type tok = LPAREN)).
Definition at_rparen : P bool := tok ← peek; pure (bool_decide (type tok = RPAREN)).
Definition at_eof : P bool := tok ← peek; pure (bool_decide (type tok = EOF)).

Definition _lookahead_keyword (keyword : string) : P bool := fun pos =>
  match tokens !! (pos + 1) with
  | Some tok => Some (Ok (String.eqb (value tok) keyword, pos))
  | None => Some (Ok (false, pos))
  end.

(** [while not self.at_rparen(): xs.append(p())] *)
Fixpoint until_rparen {A} (fuel : nat) (p : P A) : P (list A) :=
  match fuel with
  | O => out_of_fuel
  | S fuel =>
      stop ← at_rparen;
      if (stop : bool) then pure []
      else x ← p; xs ← until_rparen fuel p; pure (x :: xs)
  end.

Fixpoint parse_type_expr (fuel : nat) : P TypeExpr :=
  match fuel with
  | O => out_of_fuel
  | S fuel =>
      tok ← peek;
      if bool_decide (type tok = IDENT) then
        if str_in (value tok) PRIMITIVE_TYPES then
          _ ← advance; pure (PrimitiveType (value tok))
        else
          _ ← advance; pure (NamedType (value tok))
      else if bool_decide (type tok = LPAREN) then
        _ ← advance;
        kw ← peek;
        if String.eqb (value kw) "List" then
          _ ← advance;
          elem ← parse_type_expr fuel;
          _ ← expect RPAREN None;
          pure (ListType elem)
        else if String.eqb (value kw) "Option" then
          _ ← advance;
          elem ← parse_type_expr fuel;
          _ ← expect RPAREN None;
          pure (OptionType elem)
        else if String.eqb (value kw) "Tuple" then
          _ ← advance;
          elems ← until_rparen fuel (parse_type_expr fuel);
          _ ← expect RPAREN None;
          pure (TupleType elems)
        else if String.eqb (value kw) "Record" then
          _ ← advance;
          fields ← until_rparen fuel
            (_ ← expect LPAREN None;
             fname ← expect IDENT None;
             ftype ← parse_type_expr fuel;
             _ ← expect RPAREN None;
             pure (value fname, ftype));
          _ ← expect RPAREN None;
          pure (RecordType fields)
        else if String.eqb (value kw) "->" then
          _ ← advance;
          param ← parse_type_expr fuel;
          ret ← parse_type_expr fuel;
          _ ← expect RPAREN None;
          pure (FunctionType param ret)
        else if String.eqb (value kw) "Enum" then
          _ ← advance;
          variants ← until_rparen fuel
            (_ ← expect LPAREN None;
             vname ← expect IDENT None;
             vtypes ← until_rparen fuel (parse_type_expr fuel);
             _ ← expect RPAREN None;
             pure (value vname, vtypes));
          _ ← expect RPAREN None;
          pure (EnumType variants)
        else parse_error_at ("Unknown compound type: " +:+ repr_str (value kw)) kw
      else parse_error_at ("Expected type expression, got " +:+ repr_str (value tok)) tok
  end.

Definition parse_param (fuel : nat) : P (string * TypeExpr) :=
  _ ← expect LPAREN None;
  name ← expect IDENT None;
  type_expr ← parse_type_expr fuel;
  _ ← expect RPAREN None;
  pure (value name, type_expr).

Fixpoint parse_pattern (fuel : nat) : P Pattern :=
  match fuel with
  | O => out_of_fuel
  | S fuel =>
      tok ← peek;
      match type tok with
      | IDENT =>
          if String.eqb (value tok) "_" then _ ← advance; pure WildcardPattern
          else if str_in (value tok) ["true"; "false"] then
            _ ← advance; pure (LiteralPattern (VBool (String.eqb (value tok) "true")))
          else _ ← advance; pure (IdentPattern (value tok))
      | INT =>
          _ ← advance;
          match py_int (value tok) with
          | Ok z => pure (LiteralPattern (VInt z))
          | Raise e => raise e
          end
      | FLOAT =>
          _ ← advance;
          match py_float (value tok) with
          | Ok f => pure (LiteralPattern (VFloat f))
          | Raise e => raise e
          end
      | STRING => _ ← advance; pure (LiteralPattern (VStr (value tok)))
      | LPAREN =>
          _ ← advance;
          name ← expect IDENT None;
          args ← until_rparen fuel (parse_pattern fuel);
          _ ← expect RPAREN None;
          pure (ConstructorPattern (value name) args)
      | _ => parse_error_at ("Expected pattern, got " +:+ repr_str (value tok)) tok
      end
  end.

(** [_chain_lets]: a [let] without a body that is not the last
    expression of a [do] takes the rest of the block as its body. *)
Fixpoint _chain_lets (exprs : list Expr) : list Expr :=
  match exprs with
  | [] => []
  | expr :: rest =>
      match expr, rest with
      | LetExpr name val (LitExpr VNone type_hint), _ :: _ =>
          if String.eqb type_hint "unit" then
            let remaining := _chain_lets rest in
            let body := match remaining with [b] => b | _ => DoExpr remaining end in
            [ LetExpr name val body ]
          else expr :: _chain_lets rest
      | _, _ => expr :: _chain_lets rest
      end
  end.

Section Forms.
(** [self.parse_expr], for the forms below. *)
Variable parse_expr : P Expr.
Variable fuel : nat.

Definition _parse_let : P Expr :=
  _ ← expect_ident (Some "let");
  name ← expect IDENT None;
  val ← parse_expr;
  stop ← at_rparen;
  if (stop : bool) then
    _ ← expect RPAREN None;
    pure (LetExpr (value name) val (LitExpr VNone "unit"))
  else
    body ← parse_expr;
    _ ← expect RPAREN None;
    pure (LetExpr (value name) val body).

Definition _parse_if : P Expr :=
  _ ← expect_ident (Some "if");
  cond ← parse_expr;
  then_ ← parse_expr;
  else_ ← parse_expr;
  _ ← expect RPAREN None;
  pure (IfExpr cond then_ else_).

Definition parse_match_arm : P MatchArm :=
  _ ← expect LPAREN None;
  pattern ← parse_pattern fuel;
  body ← parse_expr;
  _ ← expect RPAREN None;
  pure (mkMatchArm pattern body).

Definition _parse_match : P Expr :=
  _ ← expect_ident (Some "match");
  target ← parse_expr;
  arms ← until_rparen fuel parse_match_arm;
  _ ← expect RPAREN None;
  pure (MatchExpr target arms).

Definition _parse_lambda : P Expr :=
  _ ← expect_ident (Some "lambda");
  _ ← expect LPAREN None;
  params ← until_rparen fuel
    (lp ← at_lparen;
     if (lp : bool) then
       p ← parse_param fuel; pure (fst p, Some (snd p))
     else
       name ← expect IDENT None; pure (value name, None));
  _ ← expect RPAREN None;
  body ← parse_expr;
  _ ← expect RPAREN None;
  pure (LambdaExpr params body).

Definition _parse_pipe : P Expr :=
  _ ← expect_ident (Some "pipe");
  val ← parse_expr;
  steps ← until_rparen fuel parse_expr;
  _ ← expect RPAREN None;
  pure (PipeExpr val steps).

Definition _parse_do : P Expr :=
  _ ← expect_ident (Some "do");
  exprs ← until_rparen fuel parse_expr;
  _ ← expect RPAREN None;
  pure (DoExpr (_chain_lets exprs)).

Definition _parse_op : P Expr :=
  op ← advance;
  args ← until_rparen fuel parse_expr;
  _ ← expect RPAREN None;
  pure (OpExpr (value op) args).

Definition _parse_call : P Expr :=
  _ ← expect_ident (Some "call");
  func ← expect IDENT None;
  args ← until_rparen fuel parse_expr;
  _ ← expect RPAREN None;
  pure (CallExpr (value func) args).

Definition _parse_implicit_call : P Expr :=
  func ← advance;
  args ← until_rparen fuel parse_expr;
  _ ← expect RPAREN None;
  pure (CallExpr (value func) args).

Definition _parse_list : P Expr :=
  _ ← expect_ident (Some "list");
  elems ← until_rparen fuel parse_expr;
  _ ← expect RPAREN None;
  pure (ListExpr elems).

Definition _parse_record : P Expr :=
  _ ← expect_ident (Some "record");
  type_name ← expect IDENT None;
  fields ← until_rparen fuel
    (_ ← expect LPAREN None;
     fname ← expect IDENT None;
     fval ← parse_expr;
     _ ← expect RPAREN None;
     pure (value fname, fval));
  _ ← expect RPAREN None;
  pure (RecordExpr (value type_name) fields).

Definition _parse_get : P Expr :=
  _ ← expect_ident (Some "get");
  obj ← parse_expr;
  field ← expect IDENT None;
  _ ← expect RPAREN None;
  pure (GetExpr obj (value field)).

Definition _parse_some : P Expr :=
  _ ← expect_ident (Some "some");
  val ← parse_expr;
  _ ← expect RPAREN None;
  pure (SomeExpr val).

Definition _parse_try : P Expr :=
  _ ← expect_ident (Some "try");
  body ← parse_expr;
  _ ← expect LPAREN None;
  _ ← expect_ident (Some "catch");
  catch_var ← expect IDENT None;
  catch_body ← parse_expr;
  _ ← expect RPAREN None;
  _ ← expect RPAREN None;
  pure (TryExpr body (value catch_var) catch_body).

Definition _parse_error : P Expr :=
  _ ← expect_ident (Some "error");
  msg ← parse_expr;
  _ ← expect RPAREN None;
  pure (ErrorExpr msg).

Definition _parse_builtin : P Expr :=
  name ← advance;
  args ← until_rparen fuel parse_expr;
  _ ← expect RPAREN None;
  pure (BuiltinExpr (value name) args).

Definition parse_sexpr : P Expr :=
  _ ← expect LPAREN None;
  head ← peek;
  if negb (bool_decide (type head = IDENT)) then
    parse_error_at ("Expected identifier at head of s-expression, got "
                      +:+ repr_str (value head)) head
  else
    let keyword := value head in
    if String.eqb keyword "let" then _parse_let
    else if String.eqb keyword "if" then _parse_if
    else if String.eqb keyword "match" then _parse_match
    else if String.eqb keyword "lambda" then _parse_lambda
    else if String.eqb keyword "pipe" then _parse_pipe
    else if String.eqb keyword "do" then _parse_do
    else if String.eqb keyword "call" then _parse_call
    else if String.eqb keyword "list" then _parse_list
    else if String.eqb keyword "record" then _parse_record
    else if String.eqb keyword "get" then _parse_get
    else if String.eqb keyword "some" then _parse_some
    else if String.eqb keyword "try" then _parse_try
    else if String.eqb keyword "error" then _parse_error
    else if str_in keyword OPERATORS then _parse_op
    else if str_in keyword BUILTINS then _parse_builtin
    else _parse_implicit_call.
End Forms.

Fixpoint parse_expr (fuel : nat) : P Expr :=
  match fuel with
  | O => out_of_fuel
  | S fuel =>
      tok ← peek;
      match type tok with
      | INT =>
          _ ← advance;
          match py_int (value tok) with
          | Ok z => pure (LitExpr (VInt z) "int")
          | Raise e => raise e
          end
      | FLOAT =>
          _ ← advance;
          match py_float (value tok) with
          | Ok f => pure (LitExpr (VFloat f) "float")
          | Raise e => raise e
          end
      | STRING => _ ← advance; pure (LitExpr (VStr (value tok)) "string")
      | IDENT =>
          if String.eqb (value tok) "true" then
            _ ← advance; pure (LitExpr (VBool true) "bool")
          else if String.eqb (value tok) "false" then
            _ ← advance; pure (LitExpr (VBool false) "bool")
          else if String.eqb (value tok) "unit" then
            _ ← advance; pure (LitExpr VNone "unit")
          else if String.eqb (value tok) "none" then
            _ ← advance; pure NoneExpr
          else if String.eqb (value tok) "result" then
            _ ← advance; pure (IdentExpr "result")
          else
            _ ← advance; pure (IdentExpr (value tok))
      | LPAREN => parse_sexpr (parse_expr fuel) fuel
      | _ => parse_error_at ("Unexpected token: " +:+ repr_str (value tok)) tok
      end
  end.

Section Definitions.
Variable fuel : nat.

Definition parse_type_def : P Definition_ :=
  name ← expect IDENT None;
  type_expr ← parse_type_expr fuel;
  _ ← expect RPAREN None;
  pure (DefType (mkTypeDef (value name) type_expr)).

Definition parse_input_decl : P (list (string * TypeExpr)) :=
  _ ← expect LPAREN None;
  _ ← expect_ident (Some "input");
  params ← until_rparen fuel (parse_param fuel);
  _ ← expect RPAREN None;
  pure params.

Definition parse_output_decl : P TypeExpr :=
  _ ← expect LPAREN None;
  _ ← expect_ident (Some "output");
  type_expr ← parse_type_expr fuel;
  _ ← expect RPAREN None;
  pure type_expr.

Definition parse_effect_decl : P (list string) :=
  _ ← expect LPAREN None;
  _ ← expect_ident (Some "effect");
  effects ← until_rparen fuel (tok ← expect IDENT None; pure (value tok));
  _ ← expect RPAREN None;
  pure effects.

(** The loop of [parse_contract_decl]: a [pre] entry is [inl], a
    [post] entry [inr]. *)
Definition parse_contract_decl : P Contract :=
  _ ← expect LPAREN None;
  _ ← expect_ident (Some "contract");
  entries ← until_rparen fuel
    (_ ← expect LPAREN None;
     kind ← expect IDENT None;
     entry ←
       (if String.eqb (value kind) "pre" then e ← parse_expr fuel; pure (inl e)
        else if String.eqb (value kind) "post" then e ← parse_expr fuel; pure (inr e)
        else raise (ParseError ("Expected 'pre' or 'post', got " +:+ repr_str (value kind))
                      None));
     _ ← expect RPAREN None;
     pure (entry : Expr + Expr));
  _ ← expect RPAREN None;
  pure (mkContract
          (omap (fun e => match e with inl pre => Some pre | inr _ => None end) entries)
          (omap (fun e => match e with inr post => Some post | inl _ => None end) entries)).

Definition parse_body_decl : P Expr :=
  _ ← expect LPAREN None;
  _ ← expect_ident (Some "body");
  expr ← parse_expr fuel;
  _ ← expect RPAREN None;
  pure expr.

Definition parse_graph_def : P Definition_ :=
  name ← expect IDENT None;
  inputs ← parse_input_decl;
  output ← parse_output_decl;
  effects ← parse_effect_decl;
  lp ← at_lparen;
  la ← _lookahead_keyword "contract";
  contract ←
    (if (lp : bool) && (la : bool) then c ← parse_contract_decl; pure (Some c)
     else pure None);
  body ← parse_body_decl;
  _ ← expect RPAREN None;
  pure (DefGraph (mkGraph (value name) inputs output effects contract body)).

Definition parse_definition : P Definition_ :=
  _ ← expect LPAREN None;
  kw ← advance;
  if String.eqb (value kw) "type" then parse_type_def
  else if String.eqb (value kw) "graph" then parse_graph_def
  else parse_error_at ("Expected 'type' or 'graph', got " +:+ repr_str (value kw)) kw.

Definition parse_program : P Program :=
  _ ← expect LPAREN None;
  _ ← expect_ident (Some "program");
  defs ← until_rparen fuel parse_definition;
  _ ← expect RPAREN None;
  pure (mkProgram defs).
End Definitions.
End Methods.

(** [parse(source)].  The recursion budget is the number of tokens:
    every nested call and every loop iteration of the parser consumes a
    token first. *)
Definition parse (float_of_literal : string -> PyFloat) (source : string)
  : option (Result Program) :=
  match tokenize source with
  | None => None
  | Some (Raise e) => Some (Raise e)
  | Some (Ok tokens) =>
      match parse_program tokens float_of_literal (length tokens) 0 with
      | None => None
      | Some (Raise e) => Some (Raise e)
      | Some (Ok (program, pos)) =>
          match at_eof tokens pos with
          | None => None
          | Some (Raise e) => Some (Raise e)
          | Some (Ok (eof, _)) =>
              if (eof : bool) then Some (Ok program)
              else
                match peek tokens pos with
                | Some (Ok (tok, _)) =>
                    Some (Raise (ParseError "Unexpected tokens after program"
                                   (Some (line tok, col tok))))
                | Some (Raise e) => Some (Raise e)
                | None => None
                end
          end
      end
  end.

End Parser.

(** ** Type checker: literals and operators
    ([starshot/compiler/type_checker.py]) *)

Module TypeChecker.

Definition INT : TypeExpr := PrimitiveType "Int".
Definition FLOAT : TypeExpr := PrimitiveType "Float".
Definition STRING : TypeExpr := PrimitiveType "String".
Definition BOOL : TypeExpr := PrimitiveType "Bool".
Definition UNIT : TypeExpr := PrimitiveType "Unit".

Definition _infer_literal (type_hint : string) : TypeExpr :=
  if String.eqb type_hint "int" then INT
  else if String.eqb type_hint "float" then FLOAT
  else if String.eqb type_hint "string" then STRING
  else if String.eqb type_hint "bool" then BOOL
  else UNIT.

(** The type that [_infer_op] returns, from the operator and the types
    [arg_types] it inferred for the arguments ([None]: unknown).  The
    diagnostics it appends to [self.errors] are left out. *)
Definition _infer_op (op : string) (arg_types : list (option TypeExpr)) : option TypeExpr :=
  if str_in op [ "+"; "-"; "*"; "/"; "%" ] then
    let has_float :=
      existsb (fun t => match t with
                        | Some (PrimitiveType name) => String.eqb name "Float"
                        | _ => false
                        end) arg_types in
    Some (if has_float then FLOAT else INT)
  else if str_in op [ "=="; "!="; "<"; ">"; "<="; ">=" ] then Some BOOL
  else if str_in op [ "and"; "or" ] then Some BOOL
  else None.

End TypeChecker.

(** ** Host language

    A reference semantics for the fragment of Python in which the texts
    of the specification's scenarios are written.  It is not part of
    the repository: [unparse] gives the concrete syntax of a term, so
    that an emitted text can be recognised as a term, and [eval] its
    value. *)

Module Host.

Inductive PyExpr : Type :=
| Name (id : string)
| Num (z : Z)
| BoolLit (b : bool)
| BinOp (lhs : PyExpr) (op : string) (rhs : PyExpr)
| Lambda (params : list string) (body : PyExpr)
| Call (func : PyExpr) (args : list PyExpr)
| ListComp (elt : PyExpr) (var : string) (iter : PyExpr)
| ListCompIf (elt : PyExpr) (var : string) (iter cond : PyExpr)
| IfExp (body test orelse : PyExpr).

Fixpoint unparse (e : PyExpr) : string :=
  match e with
  | Name id => id
  | Num z => repr_int z
  | BoolLit b => if b then "True" else "False"
  | BinOp lhs op rhs => "(" +:+ unparse lhs +:+ " " +:+ op +:+ " " +:+ unparse rhs +:+ ")"
  | Lambda params body => "(lambda " +:+ join ", " params +:+ ": " +:+ unparse body +:+ ")"
  | Call func args => unparse func +:+ "(" +:+ join ", " (map unparse args) +:+ ")"
  | ListComp elt var iter =>
      "[" +:+ unparse elt +:+ " for " +:+ var +:+ " in " +:+ unparse iter +:+ "]"
  | ListCompIf elt var iter cond =>
      "[" +:+ unparse elt +:+ " for " +:+ var +:+ " in " +:+ unparse iter
        +:+ " if " +:+ unparse cond +:+ "]"
  | IfExp body test orelse =>
      "(" +:+ unparse body +:+ " if " +:+ unparse test +:+ " else " +:+ unparse orelse +:+ ")"
  end.

(** Values: integers, booleans, [None], lists, closures, the two
    library functions of the scenarios, classes, and instances of a
    class (with the names of its proper superclasses). *)
Inductive Value : Type :=
| VInteger (z : Z)
| VBoolean (b : bool)
| VNull
| VList (items : list Value)
| VClosure (params : list string) (body : PyExpr) (env : list (string * Value))
| VFunction (name : string)
| VClass (name : string)
| VInstance (cls : string) (bases : list string).

Definition Env : Type := list (string * Value).

Fixpoint lookup_env (env : Env) (id : string) : option Value :=
  match env with
  | [] => None
  | (k, v) :: env' => if String.eqb k id then Some v else lookup_env env' id
  end.

Definition library : list string := [ "functools.reduce"; "isinstance" ].

Definition truth (v : Value) : bool :=
  match v with
  | VInteger z => negb (Z.eqb z 0)
  | VBoolean b => b
  | VNull => false
  | VList items => match items with [] => false | _ => true end
  | _ => true
  end.

Definition binop (op : string) (a b : Value) : Result Value :=
  match a, b with
  | VInteger x, VInteger y =>
      if String.eqb op "+" then Ok (VInteger (x + y))
      else if String.eqb op "-" then Ok (VInteger (x - y))
      else if String.eqb op "*" then Ok (VInteger (x * y))
      else if String.eqb op "%" then Ok (VInteger (x mod y))
      else if String.eqb op "==" then Ok (VBoolean (Z.eqb x y))
      else Raise TypeError
  | _, _ => Raise TypeError
  end.

(** A run: a result, an exception, or [None] when [fuel] ran out. *)
Definition Run (A : Type) : Type := option (Result A).

Global Instance Run_bind : MBind Run := fun A B k m =>
  match m with
  | Some (Ok a) => k a
  | Some (Raise e) => Some (Raise e)
  | None => None
  end.

Definition done {A} (a : A) : Run A := Some (Ok a).
Definition throw {A} (e : PyError) : Run A := Some (Raise e).

Fixpoint run_list {A B} (f : A -> Run B) (l : list A) : Run (list B) :=
  match l with
  | [] => done []
  | a :: l' => b ← f a; bs ← run_list f l'; done (b :: bs)
  end.

Fixpoint eval (fuel : nat) (env : Env) (e : PyExpr) {struct fuel} : Run Value :=
  match fuel with
  | O => None
  | S fuel =>
      match e with
      | Name id =>
          match lookup_env env id with
          | Some v => done v
          | None => if str_in id library then done (VFunction id) else throw NameError
          end
      | Num z => done (VInteger z)
      | BoolLit b => done (VBoolean b)
      | BinOp lhs op rhs =>
          a ← eval fuel env lhs;
          b ← eval fuel env rhs;
          match binop op a b with Ok v => done v | Raise x => throw x end
      | Lambda params body => done (VClosure params body env)
      | Call func args =>
          f ← eval fuel env func;
          vs ← run_list (eval fuel env) args;
          apply fuel f vs
      | ListComp elt var iter =>
          src ← eval fuel env iter;
          match src with
          | VList items =>
              vs ← run_list (fun x => eval fuel ((var, x) :: env) elt) items;
              done (VList vs)
          | _ => throw TypeError
          end
      | ListCompIf elt var iter cond =>
          src ← eval fuel env iter;
          match src with
          | VList items =>
              vs ← run_list (fun x =>
                               c ← eval fuel ((var, x) :: env) cond;
                               if truth c then
                                 v ← eval fuel ((var, x) :: env) elt; done [v]
                               else done []) items;
              done (VList (concat vs))
          | _ => throw TypeError
          end
      | IfExp body test orelse =>
          c ← eval fuel env test;
          if truth c then eval fuel env body else eval fuel env orelse
      end
  end
with apply (fuel : nat) (f : Value) (args : list Value) {struct fuel} : Run Value :=
  match fuel with
  | O => None
  | S fuel =>
      match f with
      | VClosure params body env =>
          if bool_decide (length params = length args)
          then eval fuel (zip params args ++ env) body
          else throw TypeError
      | VFunction name =>
          if String.eqb name "functools.reduce" then
            match args with
            | [g; VList items; init] =>
                foldl (fun acc x => a ← acc; apply fuel g [a; x]) (done init) items
            | _ => throw TypeError
            end
          else if String.eqb name "isinstance" then
            match args with
            | [VInstance cls bases; VClass c] =>
                done (VBoolean (String.eqb cls c || str_in c bases))
            | [_; VClass _] => done (VBoolean false)
            | _ => throw TypeError
            end
          else throw NameError
      | _ => throw TypeError
      end
  end.

End Host.

(** ** The inputs of the specification's scenarios *)

Module Scenarios.

Definition int_lit (z : Z) : Expr := LitExpr (VInt z) "int".
Definition bool_lit (b : bool) : Expr := LitExpr (VBool b) "bool".
Definition str_lit (s : string) : Expr := LitExpr (VStr s) "string".

(** Scenario E: [(reduce (lambda (acc x) (+ acc x)) 0 xs)]. *)
Definition add_lambda : Expr :=
  LambdaExpr [("acc", None); ("x", None)] (OpExpr "+" [IdentExpr "acc"; IdentExpr "x"]).
Definition zero : Expr := int_lit 0.
Definition xs : Expr := IdentExpr "xs".

Definition host_add_lambda : Host.PyExpr :=
  Host.Lambda ["acc"; "x"] (Host.BinOp (Host.Name "acc") "+" (Host.Name "x")).

(** [functools.reduce(f, xs, 0)] and [functools.reduce(f, 0, xs)]. *)
Definition host_reduce_xs_0 : Host.PyExpr :=
  Host.Call (Host.Name "functools.reduce") [host_add_lambda; Host.Name "xs"; Host.Num 0].
Definition host_reduce_0_xs : Host.PyExpr :=
  Host.Call (Host.Name "functools.reduce") [host_add_lambda; Host.Num 0; Host.Name "xs"].

Definition host_ints (l : list Z) : Host.Value := Host.VList (map Host.VInteger l).

Definition double_lambda : Expr :=
  LambdaExpr [("x", None)] (OpExpr "*" [IdentExpr "x"; int_lit 2]).





Definition identity_lambda : Expr := LambdaExpr [("x", None)] (IdentExpr "x").

(** Source texts.  [dq] is the double quote and [nl] the newline. *)
Definition dq : string := str1 (chr 34).
Definition nl : string := str1 (chr 10).

(** A host [float] for sources without float literals. *)
Definition literal_float (text : string) : PyFloat := mkFloat text.

Definition unit_graph (effects : list string) (body : Expr) : Program :=
  mkProgram [ DefGraph (mkGraph "g" [] (PrimitiveType "Unit") effects None body) ].

(** A graph declared pure whose body prints inside [some]. *)
Definition pure_some_print_source : string :=
  "(program (graph g (input) (output Unit) (effect pure) (body (some (print "
    +:+ dq +:+ "hi" +:+ dq +:+ ")))))".
Definition pure_some_print : Program :=
  unit_graph ["pure"] (SomeExpr (BuiltinExpr "print" [str_lit "hi"])).

(** A graph declared pure whose body is [(error ...)]. *)
Definition pure_error_source : string :=
  "(program (graph g (input) (output Unit) (effect pure) (body (error "
    +:+ dq +:+ "boom" +:+ dq +:+ "))))".
Definition pure_error : Program := unit_graph ["pure"] (ErrorExpr (str_lit "boom")).

(** A graph declared pure that prints through the [call] form. *)
Definition pure_call_print_source : string :=
  "(program (graph g (input) (output Unit) (effect pure) (body (call print "
    +:+ dq +:+ "hi" +:+ dq +:+ "))))".
Definition pure_call_print : Program :=
  unit_graph ["pure"] (CallExpr "print" [str_lit "hi"]).

(** A precondition that reads the undeclared [x] inside an [if]. *)
Definition if_precondition_source : string :=
  "(program (graph f (input (n Int)) (output Int) (effect pure) "
    +:+ "(contract (pre (if (> x 0) true false))) (body n)))".
Definition if_precondition : Program :=
  mkProgram
    [ DefGraph
        (mkGraph "f" [("n", PrimitiveType "Int")] (PrimitiveType "Int") ["pure"]
           (Some (mkContract
                    [ IfExpr (OpExpr ">" [IdentExpr "x"; int_lit 0])
                        (bool_lit true) (bool_lit false) ]
                    []))
           (IdentExpr "n")) ].

(** The same test outside the [if]. *)
Definition op_precondition : Program :=
  mkProgram
    [ DefGraph
        (mkGraph "f" [("n", PrimitiveType "Int")] (PrimitiveType "Int") ["pure"]
           (Some (mkContract [ OpExpr ">" [IdentExpr "x"; int_lit 0] ] []))
           (IdentExpr "n")) ].

(** A string opened on line 1, column 1, that runs over a newline to the
    end of the text. *)
Definition unterminated_source : string := dq +:+ "a" +:+ nl +:+ "b".

(** A complete program followed by one more token. *)
Definition trailing_source : string := "(program) x".

End Scenarios.

(** ** The pipe rule in the words of the specification *)

Module Spec.



(** The newlines of a string literal that end a line of the source:
    those between the opening quote and the closing quote (or the end
    of the text) that no backslash escapes.  [s] is the text after the
    opening quote. *)
Fixpoint literal_newlines (s : string) : nat :=
  match s with
  | EmptyString => 0
  | String c s' =>
      if Ascii.eqb c Lexer.quote_char then 0
      else if Ascii.eqb c Lexer.backslash_char then
        match s' with
        | String _ s'' => literal_newlines s''
        | EmptyString => 0
        end
      else if Ascii.eqb c Lexer.newline_char then S (literal_newlines s')
      else literal_newlines s'
  end.

End Spec.

(** * The type checker with its diagnostics ([type_checker.py]) *)

Module TypeCheck.
Import Ast TypeChecker.

(** [TypeEnv]: the bindings of a scope and the enclosing scope. *)
Inductive TypeEnv : Type :=
| mkTypeEnv (bindings : gmap string TypeExpr) (parent : option TypeEnv).

Definition new_env : TypeEnv := mkTypeEnv ∅ None.

Definition bind (name : string) (type_ : TypeExpr) (env : TypeEnv) : TypeEnv :=
  match env with
  | mkTypeEnv bindings parent => mkTypeEnv (<[name := type_]> bindings) parent
  end.

Fixpoint lookup (name : string) (env : TypeEnv) : option TypeExpr :=
  match env with
  | mkTypeEnv bindings parent =>
      match bindings !! name with
      | Some t => Some t
      | None =>
          match parent with
          | Some p => lookup name p
          | None => None
          end
      end
  end.

Definition child (env : TypeEnv) : TypeEnv := mkTypeEnv ∅ (Some env).

Fixpoint _types_equal (a b : TypeExpr) : bool :=
  match a, b with
  | PrimitiveType n, PrimitiveType m => String.eqb n m
  | NamedType n, NamedType m => String.eqb n m
  | ListType x, ListType y => _types_equal x y
  | OptionType x, OptionType y => _types_equal x y
  | FunctionType p r, FunctionType p' r' => _types_equal p p' && _types_equal r r'
  | TupleType xs, TupleType ys =>
      Nat.eqb (length xs) (length ys)
      && (fix all_zip (xs ys : list TypeExpr) : bool :=
            match xs, ys with
            | x :: xs', y :: ys' => _types_equal x y && all_zip xs' ys'
            | _, _ => true
            end) xs ys
  | RecordType _, RecordType _ => true
  | EnumType _, EnumType _ => true
  | _, _ => false
  end.

Fixpoint _type_str (t : TypeExpr) : string :=
  match t with
  | PrimitiveType name => name
  | NamedType name => name
  | ListType elem => "(List " +:+ _type_str elem +:+ ")"
  | OptionType elem => "(Option " +:+ _type_str elem +:+ ")"
  | FunctionType param ret => "(-> " +:+ _type_str param +:+ " " +:+ _type_str ret +:+ ")"
  | RecordType fields =>
      "(Record "
        +:+ join " " ((fix go (fields : list (string * TypeExpr)) : list string :=
                         match fields with
                         | [] => []
                         | (f, ft) :: rest =>
                             ("(" +:+ f +:+ " " +:+ _type_str ft +:+ ")") :: go rest
                         end) fields)
        +:+ ")"
  | EnumType _ => "(Enum ...)"
  | TupleType elems =>
      "(Tuple "
        +:+ join " " ((fix go (elems : list TypeExpr) : list string :=
                         match elems with
                         | [] => []
                         | e :: rest => _type_str e :: go rest
                         end) elems)
        +:+ ")"
  end.

(** A [dict] with string keys, in insertion order: an assignment to a
    key that is present keeps the key's place. *)
Fixpoint dict_set {V} (d : list (string * V)) (k : string) (v : V) : list (string * V) :=
  match d with
  | [] => [(k, v)]
  | (k', v') :: d' => if String.eqb k k' then (k, v) :: d' else (k', v') :: dict_set d' k v
  end.

Fixpoint dict_lookup {V} (d : list (string * V)) (k : string) : option V :=
  match d with
  | [] => None
  | (k', v) :: d' => if String.eqb k k' then Some v else dict_lookup d' k
  end.

(** A computation that appends diagnostics to [self.errors]: its value
    and the diagnostics it appended, in order. *)
Definition Diag (A : Type) : Type := A * list string.

Definition done {A} (a : A) : Diag A := (a, []).
Definition report (msg : string) : Diag unit := (tt, [msg]).
Global Instance Diag_bind : MBind Diag := fun A B k m =>
  let '(a, e1) := m in let '(b, e2) := k a in (b, e1 ++ e2).

(** [for a in l: f(a)] and [[f(a) for a in l]]. *)
Fixpoint for_each {A} (f : A -> Diag unit) (l : list A) : Diag unit :=
  match l with
  | [] => done tt
  | a :: l' => _ ← f a; for_each f l'
  end.

Fixpoint map_each {A B} (f : A -> Diag B) (l : list A) : Diag (list B) :=
  match l with
  | [] => done []
  | a :: l' => b ← f a; bs ← map_each f l'; done (b :: bs)
  end.

(** [for a, b in zip(l1, l2): f(a, b)] *)
Fixpoint for_zip {A B} (f : A -> B -> Diag unit) (l1 : list A) (l2 : list B) : Diag unit :=
  match l1, l2 with
  | a :: l1', b :: l2' => _ ← f a b; for_zip f l1' l2'
  | _, _ => done tt
  end.

Section Checker.
(** [self.type_defs] and [self.graph_sigs] *)
Variable type_defs : list (string * TypeExpr).
Variable graph_sigs : list (string * (list (string * TypeExpr) * TypeExpr)).

Definition _resolve (t : TypeExpr) : TypeExpr :=
  match t with
  | NamedType name =>
      match dict_lookup type_defs name with
      | Some def => def
      | None => t
      end
  | _ => t
  end.

Definition _compatible (actual expected : TypeExpr) : bool :=
  let actual := _resolve actual in
  let expected := _resolve expected in
  match actual, expected with
  | PrimitiveType a, PrimitiveType e =>
      if String.eqb a "Int" && String.eqb e "Float" then true
      else _types_equal actual expected
  | _, _ => _types_equal actual expected
  end.

(** The loop over the enum variants of the type definitions, in
    [_infer_call]. *)
Fixpoint variant_owner (defs : list (string * TypeExpr)) (func : string) : option TypeExpr :=
  match defs with
  | [] => None
  | (tname, tdef) :: rest =>
      match tdef with
      | EnumType variants =>
          if existsb (fun v => String.eqb (fst v) func) variants then Some (NamedType tname)
          else variant_owner rest func
      | _ => variant_owner rest func
      end
  end.

(** The loop over the fields of a record, in [_infer_get]. *)
Fixpoint field_type (fields : list (string * TypeExpr)) (field : string) : option TypeExpr :=
  match fields with
  | [] => None
  | (fname, ftype) :: rest =>
      if String.eqb fname field then Some ftype else field_type rest field
  end.

Section Methods.
(** [self._infer], for the methods that [_infer] calls. *)
Variable self_infer : Expr -> TypeEnv -> Diag (option TypeExpr).

Definition _infer_op (op : string) (args : list Expr) (env : TypeEnv)
  : Diag (option TypeExpr) :=
  arg_types ← map_each (fun a => self_infer a env) args;
  _ ← (if str_in op [ "+"; "-"; "*"; "/"; "%" ] then
     for_each (fun t =>
                 match t with
                 | Some (PrimitiveType name) =>
                     if negb (str_in name [ "Int"; "Float" ]) then
                       report ("Arithmetic operator '" +:+ op
                                 +:+ "' requires numeric types, got "
                                 +:+ _type_str (PrimitiveType name))
                     else done tt
                 | _ => done tt
                 end) arg_types
   else if str_in op [ "=="; "!="; "<"; ">"; "<="; ">=" ] then done tt
   else if str_in op [ "and"; "or" ] then
     for_each (fun t =>
                 match t with
                 | Some t =>
                     if negb (_compatible t BOOL) then
                       report ("Boolean operator '" +:+ op +:+ "' requires Bool, got "
                                 +:+ _type_str t)
                     else done tt
                 | None => done tt
                 end) arg_types
   else done tt);
  done (TypeChecker._infer_op op arg_types).

Definition _infer_call (func : string) (args : list Expr) (env : TypeEnv)
  : Diag (option TypeExpr) :=
  match dict_lookup graph_sigs func with
  | Some (params, ret) =>
      _ ← (if negb (Nat.eqb (length args) (length params)) then
         report ("Graph '" +:+ func +:+ "' expects " +:+ repr_nat (length params)
                   +:+ " args, got " +:+ repr_nat (length args))
       else done tt);
      _ ← for_zip (fun arg '(pname, ptype) =>
                 arg_type ← self_infer arg env;
                 match arg_type with
                 | Some arg_type =>
                     if negb (_compatible arg_type ptype) then
                       report ("Graph '" +:+ func +:+ "' arg '" +:+ pname
                                 +:+ "': expected " +:+ _type_str ptype
                                 +:+ ", got " +:+ _type_str arg_type)
                     else done tt
                 | None => done tt
                 end) args params;
      done (Some ret)
  | None =>
      match dict_lookup type_defs func with
      | Some _ => done (Some (NamedType func))
      | None => done (variant_owner type_defs func)
      end
  end.

Definition _infer_get (obj : Expr) (field : string) (env : TypeEnv)
  : Diag (option TypeExpr) :=
  obj_type ← self_infer obj env;
  match obj_type with
  | Some obj_type =>
      match _resolve obj_type with
      | RecordType fields =>
          match field_type fields field with
          | Some ftype => done (Some ftype)
          | None =>
              _ ← report ("Record type has no field '" +:+ field +:+ "'"); done None
          end
      | _ => done None
      end
  | None => done None
  end.

Definition _infer_builtin (name : string) (args : list Expr) (env : TypeEnv)
  : Diag (option TypeExpr) :=
  if String.eqb name "not" then done (Some BOOL)
  else if str_in name [ "map"; "filter" ] then
    match args with
    | _ :: a1 :: _ =>
        list_type ← self_infer a1 env;
        if String.eqb name "filter" then done list_type else done None
    | _ => done None
    end
  else if String.eqb name "reduce" then done None
  else if str_in name [ "head"; "nth" ] then
    match args with
    | a0 :: _ =>
        list_type ← self_infer a0 env;
        match list_type with
        | Some (ListType elem) => done (Some elem)
        | _ => done None
        end
    | [] => done None
    end
  else if String.eqb name "tail" then
    match args with
    | a0 :: _ => self_infer a0 env
    | [] => done None
    end
  else if str_in name [ "cons"; "append" ] then
    match args with
    | a0 :: a1 :: _ => self_infer (if String.eqb name "cons" then a1 else a0) env
    | _ => done None
    end
  else if String.eqb name "length" then done (Some INT)
  else if str_in name [ "empty?"; "some?" ] then done (Some BOOL)
  else if str_in name [ "concat"; "format"; "substr"; "join" ] then done (Some STRING)
  else if String.eqb name "split" then done (Some (ListType STRING))
  else if str_in name [ "range" ] then done (Some (ListType INT))
  else if str_in name [ "print"; "read-line" ] then
    done (Some (if String.eqb name "read-line" then STRING else UNIT))
  else if str_in name [ "unwrap"; "or-else" ] then
    match args with
    | a0 :: _ =>
        t ← self_infer a0 env;
        match t with
        | Some (OptionType elem) => done (Some elem)
        | _ => done t
        end
    | [] => done None
    end
  else if String.eqb name "sort-by" then
    match args with
    | _ :: a1 :: _ => self_infer a1 env
    | _ => done None
    end
  else done None.

End Methods.

Fixpoint _infer (expr : Expr) (env : TypeEnv) : Diag (option TypeExpr) :=
  match expr with
  | LitExpr _ type_hint => done (Some (_infer_literal type_hint))
  | IdentExpr name =>
      let t := lookup name env in
      _ ← (match t with
       | None =>
           if negb (String.eqb name "result") then
             report ("Undefined variable: '" +:+ name +:+ "'")
           else done tt
       | Some _ => done tt
       end);
      done t
  | LetExpr name value body =>
      val_type ← _infer value env;
      let child := child env in
      let child := match val_type with
                   | Some val_type => bind name val_type child
                   | None => child
                   end in
      _infer body child
  | IfExpr cond then_branch else_branch =>
      cond_type ← _infer cond env;
      _ ← (match cond_type with
       | Some cond_type =>
           if negb (_compatible cond_type BOOL) then
             report ("If condition must be Bool, got " +:+ _type_str cond_type)
           else done tt
       | None => done tt
       end);
      then_type ← _infer then_branch env;
      else_type ← _infer else_branch env;
      done then_type
  | OpExpr op args => _infer_op _infer op args env
  | CallExpr func args => _infer_call _infer func args env
  | ListExpr elems =>
      match elems with
      | e0 :: _ =>
          elem_type ← _infer e0 env;
          match elem_type with
          | Some elem_type => done (Some (ListType elem_type))
          | None => done None
          end
      | [] => done (Some (ListType UNIT))
      end
  | RecordExpr type_name _ => done (Some (NamedType type_name))
  | GetExpr obj field => _infer_get _infer obj field env
  | LambdaExpr _ _ => done None
  | PipeExpr _ _ => done None
  | DoExpr exprs =>
      (* every expression in turn; the type of the last one *)
      types ← map_each (fun e => _infer e env) exprs;
      match last types with
      | Some t => done t
      | None => done (Some UNIT)
      end
  | MatchExpr target arms =>
      _ ← _infer target env;
      match arms with
      | mkMatchArm _ body :: _ => _infer body env
      | [] => done None
      end
  | BuiltinExpr name args => _infer_builtin _infer name args env
  | SomeExpr value =>
      inner ← _infer value env;
      match inner with
      | Some inner => done (Some (OptionType inner))
      | None => done None
      end
  | NoneExpr => done (Some (OptionType UNIT))
  | TryExpr body _ _ => _infer body env
  | ErrorExpr _ => done None
  | SetExpr _ _ _ => done None
  end.

Definition _check_graph (graph : Graph) : Diag unit :=
  let env := fold_left (fun env '(name, type_) => bind name type_ env) (g_inputs graph)
               new_env in
  body_type ← _infer (g_body graph) env;
  match body_type with
  | Some body_type =>
      if negb (_compatible body_type (g_output graph)) then
        report ("Graph '" +:+ g_name graph +:+ "': body type " +:+ _type_str body_type
                  +:+ " doesn't match declared output " +:+ _type_str (g_output graph))
      else done tt
  | None => done tt
  end.

End Checker.

(** The two registration loops of [check]. *)
Definition register_type_defs (program : Program) : list (string * TypeExpr) :=
  fold_left (fun d defn =>
               match defn with
               | DefType td => dict_set d (td_name td) (td_type_expr td)
               | DefGraph _ => d
               end) (definitions program) [].

Definition register_graph_sigs (program : Program)
  : list (string * (list (string * TypeExpr) * TypeExpr)) :=
  fold_left (fun d defn =>
               match defn with
               | DefGraph g => dict_set d (g_name g) (g_inputs g, g_output g)
               | DefType _ => d
               end) (definitions program) [].

(** [check_types(program)]: the diagnostics of [TypeChecker(program).check()]. *)
Definition check_types (program : Program) : list string :=
  snd (for_each (_check_graph (register_type_defs program) (register_graph_sigs program))
         (graphs program)).

End TypeCheck.

(** * The emitter of whole programs ([PythonEmitter.emit]) *)

Module ProgramEmitter.
Import Ast Emitter.

(** The exceptions of this part of the emitter: those of [_expr], and
    the KeyError of the table of primitive type names. *)
Inductive EmitError : Type :=
| ExprError (e : PyError)
| KeyError (key : string).

Inductive Emit (A : Type) : Type :=
| Done (a : A)
| Fail (e : EmitError).
Arguments Done {A} a.
Arguments Fail {A} e.

Global Instance Emit_bind : MBind Emit := fun A B k r =>
  match r with
  | Done a => k a
  | Fail e => Fail e
  end.

Definition lift {A} (r : Result A) : Emit A :=
  match r with
  | Ok a => Done a
  | Raise e => Fail (ExprError e)
  end.

Fixpoint map_emit {A B} (f : A -> Emit B) (l : list A) : Emit (list B) :=
  match l with
  | [] => Done []
  | a :: l' => b ← f a; bs ← map_emit f l'; Done (b :: bs)
  end.

Definition primitive_annotations : list (string * string) :=
  [ ("Int", "int"); ("Float", "float"); ("String", "str"); ("Bool", "bool");
    ("Unit", "None") ].

Fixpoint table_lookup (d : list (string * string)) (k : string) : option string :=
  match d with
  | [] => None
  | (k', v) :: d' => if String.eqb k k' then Some v else table_lookup d' k
  end.

Fixpoint emit_type_annotation (t : TypeExpr) : Emit string :=
  match t with
  | PrimitiveType name =>
      match table_lookup primitive_annotations name with
      | Some a => Done a
      | None => Fail (KeyError name)
      end
  | ListType elem => a ← emit_type_annotation elem; Done ("list[" +:+ a +:+ "]")
  | OptionType elem => a ← emit_type_annotation elem; Done (a +:+ " | None")
  | TupleType elems =>
      inner ← map_emit emit_type_annotation elems;
      Done ("tuple[" +:+ join ", " inner +:+ "]")
  | RecordType _ => Done "dict"
  | FunctionType param ret =>
      p ← emit_type_annotation param;
      r ← emit_type_annotation ret;
      Done ("Callable[[" +:+ p +:+ "], " +:+ r +:+ "]")
  | EnumType _ => Done "object"
  | NamedType name => Done (_sanitize_name name)
  end.

(** [_scan_type_imports]: whether it sets [needs_callable]. *)
Fixpoint _scan_type_imports (t : TypeExpr) : bool :=
  match t with
  | FunctionType _ _ => true
  | ListType elem => _scan_type_imports elem
  | OptionType elem => _scan_type_imports elem
  | TupleType elems => existsb _scan_type_imports elems
  | _ => false
  end.

(** [_scan_expr_imports]: whether it sets [needs_functools]. *)
Fixpoint _scan_expr_imports (expr : Expr) : bool :=
  match expr with
  | BuiltinExpr name args =>
      if String.eqb name "reduce" then true else existsb _scan_expr_imports args
  | LetExpr _ value body => _scan_expr_imports value || _scan_expr_imports body
  | IfExpr cond then_ else_ =>
      _scan_expr_imports cond || _scan_expr_imports then_ || _scan_expr_imports else_
  | MatchExpr target arms =>
      _scan_expr_imports target
      || existsb (fun arm => match arm with mkMatchArm _ body => _scan_expr_imports body end)
           arms
  | LambdaExpr _ body => _scan_expr_imports body
  | PipeExpr value steps => _scan_expr_imports value || existsb _scan_expr_imports steps
  | DoExpr exprs => existsb _scan_expr_imports exprs
  | OpExpr _ args => existsb _scan_expr_imports args
  | CallExpr _ args => existsb _scan_expr_imports args
  | ListExpr elems => existsb _scan_expr_imports elems
  | RecordExpr _ fields => existsb (fun f => _scan_expr_imports (snd f)) fields
  | GetExpr obj _ => _scan_expr_imports obj
  | TryExpr body _ catch_body => _scan_expr_imports body || _scan_expr_imports catch_body
  | _ => false
  end.

(** The flags after [_scan_imports]. *)
Definition needs_dataclasses (program : Program) : bool :=
  existsb (fun defn =>
             match defn with
             | DefType td =>
                 match td_type_expr td with
                 | RecordType _ | EnumType _ => true
                 | _ => false
                 end
             | DefGraph _ => false
             end) (definitions program).

Definition needs_functools (program : Program) : bool :=
  existsb (fun g => _scan_expr_imports (g_body g)) (graphs program).

Definition needs_callable (program : Program) : bool :=
  existsb (fun g => existsb (fun inp => _scan_type_imports (snd inp)) (g_inputs g)
                    || _scan_type_imports (g_output g)) (graphs program).

Fixpoint indentation (indent : nat) : string :=
  match indent with
  | O => ""
  | S n => "    " +:+ indentation n
  end.

(** The line that [_line] appends at the indentation [indent]. *)
Definition _line (indent : nat) (text : string) : string :=
  if String.eqb text "" then "" else indentation indent +:+ text.

(** The methods below return the lines they append to [self.lines]. *)

Definition _emit_record_class (indent : nat) (name : string)
    (fields : list (string * TypeExpr)) : Emit (list string) :=
  let sname := _sanitize_name name in
  body ← match fields with
         | [] => Done [ _line (indent + 1) "pass" ]
         | _ =>
             map_emit (fun '(fname, ftype) =>
                         a ← emit_type_annotation ftype;
                         Done (_line (indent + 1) (_sanitize_name fname +:+ ": " +:+ a)))
               fields
         end;
  Done ([ _line indent "@dataclass"; _line indent ("class " +:+ sname +:+ ":") ] ++ body).

(** The fields of an enum variant: [for i, vt in enumerate(vtypes)]. *)
Fixpoint variant_fields (indent : nat) (many : bool) (i : nat) (vtypes : list TypeExpr)
  : Emit (list string) :=
  match vtypes with
  | [] => Done []
  | vt :: rest =>
      let field_name := if many then "_" +:+ repr_nat i else "value" in
      a ← emit_type_annotation vt;
      ls ← variant_fields indent many (i + 1) rest;
      Done (_line indent (field_name +:+ ": " +:+ a) :: ls)
  end.

Definition _emit_enum_classes (indent : nat) (name : string)
    (variants : list (string * list TypeExpr)) : Emit (list string) :=
  let sname := _sanitize_name name in
  classes ← map_emit (fun '(vname, vtypes) =>
                        let svname := _sanitize_name vname in
                        body ← match vtypes with
                               | [] => Done [ _line (indent + 1) "pass" ]
                               | _ => variant_fields (indent + 1)
                                        (1 <? length vtypes)%nat 0 vtypes
                               end;
                        Done ([ _line indent "@dataclass";
                                _line indent ("class " +:+ svname +:+ "(" +:+ sname +:+ "):") ]
                                ++ body ++ [ _line indent "" ]))
               variants;
  Done ([ _line indent "@dataclass"; _line indent ("class " +:+ sname +:+ ":");
          _line (indent + 1) "pass"; _line indent "" ] ++ concat classes).

Definition _emit_type_def (indent : nat) (td : TypeDef) : Emit (list string) :=
  match td_type_expr td with
  | RecordType fields => _emit_record_class indent (td_name td) fields
  | EnumType variants => _emit_enum_classes indent (td_name td) variants
  | t =>
      a ← emit_type_annotation t;
      Done [ _line indent (_sanitize_name (td_name td) +:+ " = " +:+ a) ]
  end.

Fixpoint _flatten_to_statements (expr : Expr) : list Expr :=
  match expr with
  | DoExpr exprs => flat_map _flatten_to_statements exprs
  | LetExpr _ _ body => expr :: _flatten_to_statements body
  | _ => [ expr ]
  end.

Definition _emit_flat_statement (indent : nat) (expr : Expr) : Emit string :=
  match expr with
  | LetExpr name value _ =>
      let sname := _sanitize_name name in
      v ← lift (_expr value);
      Done (_line indent (sname +:+ " = " +:+ v))
  | BuiltinExpr name args =>
      if String.eqb name "print" then
        compiled ← lift (mapM _expr args);
        Done (_line indent ("print(" +:+ join ", " compiled +:+ ")"))
      else
        text ← lift (_expr expr);
        Done (_line indent text)
  | _ =>
      text ← lift (_expr expr);
      Done (_line indent text)
  end.

(** [stmts[:-1]] and [stmts[-1]]; the latter raises IndexError on the
    empty list. *)
Definition but_last {A} (l : list A) : list A := removelast l.
Definition last_item {A} (l : list A) : Emit A :=
  match last l with
  | Some a => Done a
  | None => Fail (ExprError IndexError)
  end.

Definition _emit_body (indent : nat) (body : Expr) : Emit (list string) :=
  let stmts := _flatten_to_statements body in
  ls ← map_emit (_emit_flat_statement indent) (but_last stmts);
  last_stmt ← last_item stmts;
  text ← lift (_expr last_stmt);
  Done (ls ++ [ _line indent ("return " +:+ text) ]).

Definition assert_line (indent : nat) (failure : string) (cond : Expr) : Emit string :=
  c ← lift (_expr cond);
  Done (_line indent ("assert " +:+ c +:+ ", " +:+ String (chr 34) failure
                        +:+ String (chr 34) "")).

Definition _emit_body_with_postconditions (indent : nat) (body : Expr)
    (postconditions : list Expr) : Emit (list string) :=
  let stmts := _flatten_to_statements body in
  ls ← map_emit (_emit_flat_statement indent) (but_last stmts);
  last_stmt ← last_item stmts;
  text ← lift (_expr last_stmt);
  posts ← map_emit (assert_line indent "Postcondition failed") postconditions;
  Done (ls ++ [ _line indent ("result = " +:+ text) ] ++ posts
          ++ [ _line indent "return result" ]).

Definition _emit_graph (indent : nat) (graph : Graph) : Emit (list string) :=
  let sname := _sanitize_name (g_name graph) in
  params ← map_emit (fun '(pname, ptype) =>
                       a ← emit_type_annotation ptype;
                       Done (_sanitize_name pname +:+ ": " +:+ a)) (g_inputs graph);
  ret ← emit_type_annotation (g_output graph);
  let header :=
    _line indent ("def " +:+ sname +:+ "(" +:+ join ", " params +:+ ") -> " +:+ ret +:+ ":") in
  pres ← match g_contract graph with
         | Some contract =>
             map_emit (assert_line (indent + 1) "Precondition failed")
               (preconditions contract)
         | None => Done []
         end;
  body ← match g_contract graph with
         | Some contract =>
             match postconditions contract with
             | [] => _emit_body (indent + 1) (g_body graph)
             | posts => _emit_body_with_postconditions (indent + 1) (g_body graph) posts
             end
         | None => _emit_body (indent + 1) (g_body graph)
         end;
  Done (header :: pres ++ body).

(** [emit]: the text of the compiled program. *)
Definition emit (program : Program) : Emit string :=
  let imports :=
    (if needs_dataclasses program then [ "from dataclasses import dataclass" ] else [])
      ++ (if needs_functools program then [ "import functools" ] else [])
      ++ (if needs_callable program then [ "from typing import Callable" ] else []) in
  let import_lines :=
    match imports with
    | [] => []
    | _ => map (_line 0) imports ++ [ _line 0 "" ]
    end in
  type_lines ←
    map_emit (fun defn =>
                match defn with
                | DefType td => ls ← _emit_type_def 0 td; Done (ls ++ [ _line 0 "" ])
                | DefGraph _ => Done []
                end) (definitions program);
  graph_lines ←
    map_emit (fun defn =>
                match defn with
                | DefGraph g => ls ← _emit_graph 0 g; Done (ls ++ [ _line 0 "" ])
                | DefType _ => Done []
                end) (definitions program);
  let main_lines :=
    match filter (fun g => g_name g = "main") (graphs program) with
    | main_graph :: _ =>
        [ _line 0 "if __name__ == '__main__':";
          _line 1 (match g_output main_graph with
                   | PrimitiveType name =>
                       if String.eqb name "Unit" then "main()" else "print(main())"
                   | _ => "print(main())"
                   end) ]
    | [] => []
    end in
  Done (join (str1 (chr 10))
          (import_lines ++ concat type_lines ++ concat graph_lines ++ main_lines)
          +:+ str1 (chr 10)).

(** [compile_to_python] *)
Definition compile_to_python (program : Program) : Emit string := emit program.

End ProgramEmitter.

(** * Properties of the emitter *)

Module EmitterFacts.
Import Emitter Scenarios.

(** The emitter's methods, one equation each. *)

Lemma expr_builtin (name : string) (args : list Expr) :
  _expr (BuiltinExpr name args)
  = (compiled ← mapM _expr args; _builtin_expr name args compiled).
Proof. reflexivity. Qed.


Lemma expr_pipe (value : Expr) (steps : list Expr) :
  _expr (PipeExpr value steps) = (result ← _expr value; pipe_steps _expr steps result).
Proof. reflexivity. Qed.

Lemma expr_match (target : Expr) (arms : list MatchArm) :
  _expr (MatchExpr target arms)
  = (t ← _expr target;
     arms_code ← match_arms _expr arms;
     match arms_code with
     | [] => Ok "None"
     | _ => Ok ("(lambda _mt_: " +:+ _build_match_chain arms_code +:+ ")(" +:+ t +:+ ")")
     end).
Proof. reflexivity. Qed.

(** The error monad. *)

Lemma bind_ok {A B} (a : A) (k : A -> Result B) : (Ok a ≫= k) = k a.
Proof. reflexivity. Qed.

Lemma bind_raise {A B} (e : PyError) (k : A -> Result B) : (Raise e ≫= k) = Raise e.
Proof. reflexivity. Qed.

Lemma bind_assoc {A B C} (m : Result A) (k : A -> Result B) (h : B -> Result C) :
  ((m ≫= k) ≫= h) = (m ≫= fun a => k a ≫= h).
Proof. destruct m; reflexivity. Qed.

Lemma mapM_cons {A B} (f : A -> Result B) (a : A) (l : list A) :
  mapM f (a :: l) = (b ← f a; bs ← mapM f l; Ok (b :: bs)).
Proof. reflexivity. Qed.

Lemma mapM_three (a0 a1 a2 : Expr) (t0 t1 t2 : string) :
  _expr a0 = Ok t0 -> _expr a1 = Ok t1 -> _expr a2 = Ok t2 ->
  mapM _expr [a0; a1; a2] = Ok [t0; t1; t2].
Proof. intros H0 H1 H2. cbn [mapM]. rewrite H0, H1, H2. reflexivity. Qed.

(** [reduce] with three arguments, by the position of the lambda. *)
Lemma builtin_reduce_three (r0 r1 r2 : Expr) (t0 t1 t2 : string) :
  _builtin_expr "reduce" [r0; r1; r2] [t0; t1; t2]
  = if is_lambda r0 then
      Ok ("functools.reduce(" +:+ t0 +:+ ", " +:+ t2 +:+ ", " +:+ t1 +:+ ")")
    else if is_lambda r1 then
      Ok ("functools.reduce(" +:+ t1 +:+ ", " +:+ t0 +:+ ", " +:+ t2 +:+ ")")
    else if is_lambda r2 then
      Ok ("functools.reduce(" +:+ t2 +:+ ", " +:+ t0 +:+ ", " +:+ t1 +:+ ")")
    else
      Ok ("functools.reduce(" +:+ t0 +:+ ", " +:+ t2 +:+ ", " +:+ t1 +:+ ")").
Proof. reflexivity. Qed.

(** C1.  The comment at the head of the [reduce] case names the order
    (fn, coll, init) among the supported ones, but the branch for a
    lambda in first position always reads (fn, init, coll): with the
    source order (fn, coll, init) the emitter takes the second argument
    for the initial value and the third for the collection, so the text
    folds over [0] starting from [xs].  It differs from the text of the
    order (fn, init, coll) and raises on the list of scenario E instead
    of yielding 15. *)
Lemma reduce_fn_coll_init_counterexample :
  _expr (BuiltinExpr "reduce" [add_lambda; xs; zero]) = Ok (Host.unparse host_reduce_0_xs)
  /\ _expr (BuiltinExpr "reduce" [add_lambda; zero; xs]) = Ok (Host.unparse host_reduce_xs_0)
  /\ _expr (BuiltinExpr "reduce" [add_lambda; xs; zero])
     <> _expr (BuiltinExpr "reduce" [add_lambda; zero; xs])
  /\ Host.eval 10 [("xs", host_ints [1; 2; 3; 4; 5]%Z)] host_reduce_0_xs
     = Some (Raise TypeError).
Proof. repeat split; try reflexivity. discriminate. Qed.

(** The source orders that the branches of [reduce] do tell apart by
    the position of the lambda: a lambda first is read as
    (fn, init, coll), a lambda second as (coll, fn, init), a lambda
    third as (coll, init, fn), and (fn, init, coll) is the reading when
    no argument is a lambda.  On these the text is the same, and
    scenario E in the order (fn, init, coll) compiles to
    [functools.reduce(f, xs, 0)], whose value on [1,2,3,4,5] is 15. *)
Theorem reduce_argument_orders (fn init coll : Expr) (F I C : string) :
  _expr fn = Ok F -> _expr init = Ok I -> _expr coll = Ok C ->
  let text := Ok ("functools.reduce(" +:+ F +:+ ", " +:+ C +:+ ", " +:+ I +:+ ")") in
  (is_lambda fn = true \/ (is_lambda init = false /\ is_lambda coll = false) ->
     _expr (BuiltinExpr "reduce" [fn; init; coll]) = text)
  /\ (is_lambda fn = true -> is_lambda coll = false ->
        _expr (BuiltinExpr "reduce" [coll; fn; init]) = text)
  /\ (is_lambda fn = true -> is_lambda coll = false -> is_lambda init = false ->
        _expr (BuiltinExpr "reduce" [coll; init; fn]) = text)
  /\ _expr (BuiltinExpr "reduce" [add_lambda; zero; xs]) = Ok (Host.unparse host_reduce_xs_0)
  /\ Host.eval 10 [("xs", host_ints [1; 2; 3; 4; 5]%Z)] host_reduce_xs_0
     = Some (Ok (Host.VInteger 15)).
Proof.
  intros HF HI HC text. subst text.
  repeat split; try reflexivity.
  - intros Hl. rewrite expr_builtin, (mapM_three _ _ _ _ _ _ HF HI HC), bind_ok.
    rewrite builtin_reduce_three.
    destruct Hl as [-> | [-> ->]]; [reflexivity |].
    destruct (is_lambda fn); reflexivity.
  - intros Hfn Hcoll.
    rewrite expr_builtin, (mapM_three _ _ _ _ _ _ HC HF HI), bind_ok.
    rewrite builtin_reduce_three, Hcoll, Hfn. reflexivity.
  - intros Hfn Hcoll Hinit.
    rewrite expr_builtin, (mapM_three _ _ _ _ _ _ HC HI HF), bind_ok.
    rewrite builtin_reduce_three, Hcoll, Hinit, Hfn. reflexivity.
Qed.

Lemma reduce_argument_orders_witness :
  _expr (BuiltinExpr "reduce" [add_lambda; zero; xs])
    = Ok "functools.reduce((lambda acc, x: (acc + x)), xs, 0)"
  /\ _expr (BuiltinExpr "reduce" [xs; add_lambda; zero])
    = Ok "functools.reduce((lambda acc, x: (acc + x)), xs, 0)"
  /\ _expr (BuiltinExpr "reduce" [xs; zero; add_lambda])
    = Ok "functools.reduce((lambda acc, x: (acc + x)), xs, 0)".
Proof.
  pose proof (reduce_argument_orders add_lambda zero xs
                "(lambda acc, x: (acc + x))" "0" "xs" eq_refl eq_refl eq_refl)
    as (H1 & H2 & H3 & _).
  split; [apply H1; left; reflexivity |].
  split; [apply H2; reflexivity | apply H3; reflexivity].
Defined.






(** Outside the amended statement: a builtin step other than the four
    above is not lowered as the same builtin is outside a pipe.  The
    branch, whose comment speaks of the pipe value as last argument,
    writes a call of the builtin's name with the threaded value first,
    and the host has no function of that name. *)
Lemma pipe_generic_builtin_not_lowered :
  _expr (PipeExpr xs [BuiltinExpr "take" [int_lit 2]]) = Ok "take(xs, 2)"
  /\ _expr (PipeExpr xs [CallExpr "take" [int_lit 2]]) = Ok "take(xs, 2)"
  /\ _expr (BuiltinExpr "take" [int_lit 2; xs]) = Ok "xs[:2]".
Proof. repeat split; reflexivity. Qed.






(** C8.  Option wrapping leaves no trace in the text: [(some e)]
    compiles as [e] does, the [none] expression and the [none] builtin
    compile to [None], and [unwrap] of one argument compiles as the
    argument does. *)
Theorem option_wrapping_erased (e : Expr) (args : list Expr) :
  _expr (SomeExpr e) = _expr e
  /\ _expr NoneExpr = Ok "None"
  /\ _expr (BuiltinExpr "none" args) = (_ ← mapM _expr args; Ok "None")
  /\ _expr (BuiltinExpr "unwrap" [e]) = _expr e.
Proof.
  repeat split.
  rewrite expr_builtin. cbn [mapM].
  destruct (_expr e) as [t|err]; reflexivity.
Qed.

End EmitterFacts.

(** * Properties of the effect checker *)

Module EffectFacts.
Import EffectChecker Scenarios.

Definition graph_names (program : Program) : list string := map g_name (graphs program).

(** A name is registered exactly when a graph declares it. *)
Lemma register_effects_None (program : Program) (func : string) :
  func ∉ graph_names program -> register_effects program !! func = None.
Proof.
  unfold register_effects, graph_names, graphs.
  generalize (∅ : gmap string (gset string)) (lookup_empty (M := gmap string) (A := gset string) func).
  induction (definitions program) as [|[td|g] defs IH]; intros m Hm Hnot; cbn in *.
  - exact Hm.
  - apply IH; assumption.
  - apply IH.
    + rewrite lookup_insert_ne; [exact Hm |]. set_solver.
    + set_solver.
Qed.

(** C10.  A call whose name no graph of the program declares adds no
    effect of its own: its effects are those of its arguments.  So a
    graph declared exactly pure whose body is such a call, with
    arguments that need no effect, gets no diagnostic. *)
Theorem undeclared_call_has_no_effect (program : Program) (func : string)
    (args : list Expr) :
  func ∉ graph_names program ->
  _collect_effects (register_effects program) (CallExpr func args)
  = ⋃ (map (_collect_effects (register_effects program)) args)
  /\ (forall graph,
        list_to_set (g_effects graph) = ({[ "pure" ]} : gset string) ->
        g_body graph = CallExpr func args ->
        ⋃ (map (_collect_effects (register_effects program)) args) ∖ {[ "pure" ]}
          = (∅ : gset string) ->
        _check_graph (register_effects program) graph = []).
Proof.
  intros Hnot.
  assert (Hcall : _collect_effects (register_effects program) (CallExpr func args)
                  = ⋃ (map (_collect_effects (register_effects program)) args)).
  { cbn [_collect_effects]. rewrite (register_effects_None _ _ Hnot).
    apply leibniz_equiv. set_solver. }
  split; [exact Hcall |].
  intros graph Hdecl Hbody Hargs.
  unfold _check_graph. rewrite Hdecl, Hbody, Hcall.
  destruct (decide _) as [_|Hn]; [|exfalso; apply Hn; split; [set_solver | reflexivity]].
  destruct (decide _) as [_|Hn]; [reflexivity | contradiction].
Qed.

Lemma undeclared_call_has_no_effect_witness :
  check_effects pure_call_print = [].
Proof.
  assert (Hnot : "print" ∉ graph_names pure_call_print).
  { unfold graph_names. cbn. set_solver. }
  destruct (undeclared_call_has_no_effect pure_call_print "print" [str_lit "hi"] Hnot)
    as [_ H].
  unfold check_effects. cbn [definitions pure_call_print unit_graph flat_map].
  rewrite H; [reflexivity | reflexivity | reflexivity |].
  cbn. apply leibniz_equiv. set_solver.
Defined.

(** C4 at its failing inputs.  Both texts parse to a graph declared
    exactly pure; the body of the first holds a [print] builtin under
    [some], the body of the second is the error form; [check_effects]
    reports nothing for either.  Outside [some] the same [print] is
    reported. *)
Theorem pure_graph_effects_unreported :
  (forall fl, Parser.parse fl pure_some_print_source = Some (Ok pure_some_print))
  /\ check_effects pure_some_print = []
  /\ (forall fl, Parser.parse fl pure_error_source = Some (Ok pure_error))
  /\ check_effects pure_error = []
  /\ check_effects (unit_graph ["pure"] (BuiltinExpr "print" [str_lit "hi"]))
     = [ "Graph 'g' is declared pure but requires effects: io" ]
  /\ check_effects (unit_graph ["pure"] (BuiltinExpr "error" [str_lit "boom"]))
     = [ "Graph 'g' is declared pure but requires effects: fail" ].
Proof. repeat split; intros; vm_compute; reflexivity. Qed.

End EffectFacts.

(** * Properties of the contract checker *)

Module ContractFacts.
Import ContractChecker Scenarios.

(** C3 at its failing input.  The text parses to a graph with the one
    input [n] whose precondition reads [x] inside an [if];
    [check_contracts] reports nothing, while it reports the same test
    when it is the whole precondition. *)
Theorem if_precondition_unreported :
  (forall fl, Parser.parse fl if_precondition_source = Some (Ok if_precondition))
  /\ check_contracts if_precondition = []
  /\ check_contracts op_precondition
     = [ "Graph 'f' precondition 1 references undefined variables: x" ].
Proof. repeat split; intros; vm_compute; reflexivity. Qed.

End ContractFacts.

(** * Properties of the lexer *)

Module LexerFacts.
Import Lexer Scenarios.

(** Induction over a text two characters at a time, as the escape
    branch of [scan_string] reads it. *)
Lemma string_pair_ind (P : string -> Prop) :
  P EmptyString ->
  (forall c, P (String c EmptyString)) ->
  (forall c1 c2 s, P s -> P (String c2 s) -> P (String c1 (String c2 s))) ->
  forall s, P s.
Proof.
  intros H0 H1 H2 s.
  assert (H : P s /\ forall c, P (String c s)); [|exact (proj1 H)].
  induction s as [|a s [IHs IHc]]; [split; [exact H0 | exact H1] |].
  split; [apply IHc |]. intros c. apply H2; [exact IHs | apply IHc].
Qed.

Lemma skip_comment_length (s : string) :
  String.length (skip_comment s) <= String.length s.
Proof.
  induction s as [|c s IH]; cbn; [lia |].
  destruct (Ascii.eqb c newline_char); cbn; lia.
Qed.

Lemma scan_string_length (s : string) :
  forall line col buf rest line' col' buf',
    scan_string s line col buf = (rest, line', col', buf') ->
    String.length rest <= String.length s.
Proof.
  induction s as [|c|c1 c2 s IHs IHc] using string_pair_ind;
    intros line col buf rest line' col' buf' H.
  - cbn in H. injection H as <- _ _ _. cbn. lia.
  - cbn in H.
    destruct (Ascii.eqb c quote_char); [injection H as <- _ _ _; cbn; lia |].
    destruct (Ascii.eqb c backslash_char); [injection H as <- _ _ _; cbn; lia |].
    destruct (Ascii.eqb c newline_char); injection H as <- _ _ _; cbn; lia.
  - cbn [scan_string] in H.
    destruct (Ascii.eqb c1 quote_char); [injection H as <- _ _ _; cbn; lia |].
    destruct (Ascii.eqb c1 backslash_char).
    + apply IHs in H. cbn. lia.
    + destruct (Ascii.eqb c1 newline_char); apply IHc in H; cbn in *; lia.
Qed.

Lemma scan_atom_length (s : string) :
  forall col word word' rest col',
    scan_atom s col word = (word', rest, col') ->
    String.length rest <= String.length s.
Proof.
  induction s as [|c s IH]; intros col word word' rest col' H; cbn in H.
  - injection H as _ <- _. cbn. lia.
  - destruct (_is_atom_char c).
    + apply IH in H. cbn. lia.
    + injection H as _ <- _. cbn. lia.
Qed.

(** The budget of [tokenize] is never used up. *)
Lemma tokenize_loop_terminates (fuel : nat) :
  forall s line col tokens,
    String.length s < fuel -> tokenize_loop fuel s line col tokens <> None.
Proof.
  induction fuel as [|fuel IH]; intros s line col tokens Hlen; [lia |].
  destruct s as [|ch s']; cbn [tokenize_loop]; [discriminate |].
  cbn [String.length] in Hlen.
  destruct (existsb _ _); [apply IH; lia |].
  destruct (Ascii.eqb ch newline_char); [apply IH; lia |].
  destruct (Ascii.eqb ch ";") eqn:Hsemi.
  { apply IH. apply Ascii.eqb_eq in Hsemi. subst ch. cbn [skip_comment].
    change (Ascii.eqb ";" newline_char) with false. cbn iota.
    pose proof (skip_comment_length s'). lia. }
  destruct (Ascii.eqb ch "("); [apply IH; lia |].
  destruct (Ascii.eqb ch ")"); [apply IH; lia |].
  destruct (Ascii.eqb ch quote_char).
  { destruct (scan_string s' line (col + 1) "") as [[[rest l] c] b] eqn:Hscan.
    apply scan_string_length in Hscan.
    destruct rest as [|c0 rest']; [discriminate |].
    apply IH. cbn [String.length] in Hscan. lia. }
  destruct (_is_atom_char ch) eqn:Hatom; [|discriminate].
  destruct (scan_atom (String ch s') col "") as [[word rest] c] eqn:Hscan.
  cbn [scan_atom] in Hscan. rewrite Hatom in Hscan.
  apply scan_atom_length in Hscan. apply IH. lia.
Qed.

Lemma tokenize_terminates (source : string) : exists r, tokenize source = Some r.
Proof.
  unfold tokenize.
  destruct (tokenize_loop _ source 1 1 []) as [r|] eqn:H; [exists r; reflexivity |].
  exfalso. revert H. apply tokenize_loop_terminates. lia.
Qed.

Lemma literal_newlines_cons (c : ascii) (s' : string) :
  Spec.literal_newlines (String c s')
  = if Ascii.eqb c quote_char then 0
    else if Ascii.eqb c backslash_char then
      match s' with
      | String _ s'' => Spec.literal_newlines s''
      | EmptyString => 0
      end
    else if Ascii.eqb c newline_char then S (Spec.literal_newlines s')
    else Spec.literal_newlines s'.
Proof. reflexivity. Qed.

(** The line of the position that [scan_string] ends with. *)
Lemma scan_string_line (s : string) :
  forall line col buf rest line' col' buf',
    scan_string s line col buf = (rest, line', col', buf') ->
    line' = line + Spec.literal_newlines s.
Proof.
  induction s as [|c|c1 c2 s IHs IHc] using string_pair_ind;
    intros line col buf rest line' col' buf' H.
  - cbn in H. injection H as _ <- _ _. cbn. lia.
  - cbn in H. cbn [Spec.literal_newlines].
    destruct (Ascii.eqb c quote_char); [injection H as _ <- _ _; lia |].
    destruct (Ascii.eqb c backslash_char); [injection H as _ <- _ _; lia |].
    destruct (Ascii.eqb c newline_char); injection H as _ <- _ _; cbn; lia.
  - cbn [scan_string] in H. rewrite literal_newlines_cons.
    destruct (Ascii.eqb c1 quote_char); [injection H as _ <- _ _; lia |].
    destruct (Ascii.eqb c1 backslash_char); [apply IHs in H; exact H |].
    destruct (Ascii.eqb c1 newline_char); apply IHc in H; lia.
Qed.

(** C7 at its failing input, and where the reported line comes from.
    The text opens a string at line 1, column 1, and ends after a
    newline without closing it: [tokenize] reports line 2, column 1.
    In general, when the loop of [tokenize] meets at [line], [col] a
    quote that nothing closes, the error carries the column of the
    quote and the line reached at the end of the text, which is [line]
    plus the number of newlines of the literal. *)
Theorem unterminated_string_position :
  tokenize unterminated_source = Some (Raise (LexError "Unterminated string literal" 2 1))
  /\ (forall fuel s line col tokens line' col' buf,
        scan_string s line (col + 1) "" = (EmptyString, line', col', buf) ->
        tokenize_loop (S fuel) (String quote_char s) line col tokens
        = Some (Raise (LexError "Unterminated string literal"
                         (line + Spec.literal_newlines s) col))).
Proof.
  split; [reflexivity |].
  intros fuel s line col tokens line' col' buf Hscan.
  cbn [tokenize_loop].
  change (existsb (Ascii.eqb quote_char) [" "%char; tab_char; cr_char]) with false.
  change (Ascii.eqb quote_char newline_char) with false.
  change (Ascii.eqb quote_char ";") with false.
  change (Ascii.eqb quote_char "(") with false.
  change (Ascii.eqb quote_char ")") with false.
  change (Ascii.eqb quote_char quote_char) with true.
  cbn iota. rewrite Hscan.
  apply scan_string_line in Hscan. subst line'. reflexivity.
Qed.

Lemma unterminated_string_position_witness :
  tokenize_loop 1 unterminated_source 1 1 []
  = Some (Raise (LexError "Unterminated string literal" 2 1)).
Proof.
  exact (proj2 unterminated_string_position 0 ("a" +:+ nl +:+ "b") 1 1 [] 2 2
           ("a" +:+ nl +:+ "b") eq_refl).
Defined.

Definition not_eof (tok : Token) : Prop := type tok <> EOF.

Lemma classify_atom_not_eof (word : string) (line col : nat) :
  not_eof (_classify_atom word line col).
Proof.
  unfold _classify_atom, not_eof.
  destruct (_is_int word); [discriminate |].
  destruct (_is_float word); discriminate.
Qed.

(** The token list that [tokenize] returns ends with its only
    end-of-input token. *)
Lemma tokenize_loop_eof_last (fuel : nat) :
  forall s line col tokens out,
    Forall not_eof tokens ->
    tokenize_loop fuel s line col tokens = Some (Ok out) ->
    exists body eof, out = body ++ [eof] /\ Forall not_eof body /\ type eof = EOF.
Proof.
  induction fuel as [|fuel IH]; intros s line col tokens out Htoks H; [discriminate |].
  assert (Hsnoc : forall tok, not_eof tok -> Forall not_eof (tokens ++ [tok])).
  { intros tok Htok. apply Forall_app. split; [exact Htoks |]. constructor; [exact Htok | constructor]. }
  destruct s as [|ch s']; cbn [tokenize_loop] in H.
  { injection H as <-. exists tokens, (mkToken EOF "" line col). auto. }
  destruct (existsb _ _); [eapply IH; eassumption |].
  destruct (Ascii.eqb ch newline_char); [eapply IH; eassumption |].
  destruct (Ascii.eqb ch ";"); [eapply IH; eassumption |].
  destruct (Ascii.eqb ch "(");
    [eapply IH; [|eassumption]; apply Hsnoc; discriminate |].
  destruct (Ascii.eqb ch ")");
    [eapply IH; [|eassumption]; apply Hsnoc; discriminate |].
  destruct (Ascii.eqb ch quote_char).
  { destruct (scan_string s' line (col + 1) "") as [[[rest l] c] b].
    destruct rest as [|c0 rest']; [discriminate |].
    eapply IH; [|eassumption]. apply Hsnoc. discriminate. }
  destruct (_is_atom_char ch); [|discriminate].
  destruct (scan_atom (String ch s') col "") as [[word rest] c].
  eapply IH; [|eassumption]. apply Hsnoc. apply classify_atom_not_eof.
Qed.

Lemma tokenize_eof_last (source : string) (tokens : list Token) :
  tokenize source = Some (Ok tokens) ->
  exists body eof, tokens = body ++ [eof] /\ Forall not_eof body /\ type eof = EOF.
Proof. apply tokenize_loop_eof_last. constructor. Qed.

End LexerFacts.

(** * Properties of the parser *)

Module ParserFacts.
Import Lexer Parser Scenarios.

Lemma advance_ok (tokens : list Token) (pos pos' : nat) (tok : Token) :
  advance tokens pos = Some (Ok (tok, pos')) ->
  tokens !! pos = Some tok /\ pos' = pos + 1.
Proof.
  unfold advance. destruct (tokens !! pos) as [t|]; [|discriminate].
  intros H. injection H as -> <-. split; reflexivity.
Qed.

Lemma expect_ok (tokens : list Token) (ttype : TokenType) (val : option string)
    (pos pos' : nat) (tok : Token) :
  expect tokens ttype val pos = Some (Ok (tok, pos')) ->
  tokens !! pos = Some tok /\ type tok = ttype /\ pos' = pos + 1.
Proof.
  unfold expect, mbind, P_bind.
  destruct (advance tokens pos) as [[[t p]|e]|] eqn:Hadv; try discriminate.
  apply advance_ok in Hadv as [Hlook ->].
  destruct (bool_decide (type t = ttype)) eqn:Htype; cbn [negb]; [|discriminate].
  apply bool_decide_eq_true in Htype.
  destruct val as [v|].
  - destruct (String.eqb (value t) v); cbn [negb]; [|discriminate].
    intros H. injection H as <- <-. auto.
  - intros H. injection H as <- <-. auto.
Qed.

(** [parse_program] returns right after a closing parenthesis. *)
Lemma parse_program_ends_after_rparen (tokens : list Token)
    (fl : string -> PyFloat) (fuel start pos : nat) (program : Program) :
  parse_program tokens fl fuel start = Some (Ok (program, pos)) ->
  exists last tok, pos = last + 1 /\ tokens !! last = Some tok /\ type tok = RPAREN.
Proof.
  unfold parse_program, mbind, P_bind.
  destruct (expect tokens LPAREN None start) as [[[t1 p1]|e]|]; try discriminate.
  destruct (expect_ident tokens (Some "program") p1) as [[[t2 p2]|e]|]; try discriminate.
  destruct (until_rparen tokens fuel _ p2) as [[[defs p3]|e]|]; try discriminate.
  destruct (expect tokens RPAREN None p3) as [[[t4 p4]|e]|] eqn:Hexp; try discriminate.
  apply expect_ok in Hexp as (Hlook & Htype & ->).
  intros H. injection H as _ <-. exists p3, t4. auto.
Qed.

(** C9.  [parse] returns a program only when [parse_program] stopped at
    the end-of-input token, the last one of the stream.  After a
    successful [parse_program] the position is never beyond that token,
    and when it is before it, so that a token other than end of input
    remains, [parse] raises the parse error for unexpected tokens at
    that token. *)
Theorem parse_requires_end_of_input (fl : string -> PyFloat) (source : string) :
  (forall program,
      parse fl source = Some (Ok program) ->
      exists tokens,
        tokenize source = Some (Ok tokens)
        /\ parse_program tokens fl (length tokens) 0
           = Some (Ok (program, length tokens - 1)))
  /\ (forall tokens program pos,
        tokenize source = Some (Ok tokens) ->
        parse_program tokens fl (length tokens) 0 = Some (Ok (program, pos)) ->
        pos <= length tokens - 1
        /\ (pos < length tokens - 1 ->
            exists tok,
              tokens !! pos = Some tok /\ type tok <> EOF
              /\ parse fl source
                 = Some (Raise (ParseError "Unexpected tokens after program"
                                  (Some (line tok, col tok)))))).
Proof.
  split.
  - intros program H. unfold parse in H.
    destruct (tokenize source) as [[tokens|e]|] eqn:Htok; try discriminate.
    exists tokens. split; [reflexivity |].
    destruct (parse_program tokens fl (length tokens) 0) as [[[prog pos]|e]|];
      try discriminate.
    apply LexerFacts.tokenize_eof_last in Htok as (body & eof & -> & Hbody & Heof).
    unfold at_eof, mbind, P_bind, peek in H.
    destruct ((body ++ [eof]) !! pos) as [tok|] eqn:Hlook; [|discriminate].
    cbn in H. destruct (bool_decide (type tok = EOF)) eqn:Hty.
    + injection H as ->. apply bool_decide_eq_true in Hty.
      assert (pos = length body) as ->.
      { destruct (decide (pos < length body)) as [Hlt|Hge].
        - rewrite lookup_app_l in Hlook by exact Hlt.
          rewrite Forall_lookup in Hbody. apply Hbody in Hlook. contradiction.
        - apply lookup_lt_Some in Hlook. rewrite length_app in Hlook. cbn in Hlook. lia. }
      rewrite length_app. cbn. repeat f_equal. lia.
    + discriminate.
  - intros tokens program pos Htok Hprog.
    pose proof Htok as Hlast.
    apply LexerFacts.tokenize_eof_last in Hlast as (body & eof & -> & Hbody & Heof).
    rewrite length_app. cbn [length].
    replace (length body + 1 - 1) with (length body) by lia.
    split.
    + apply parse_program_ends_after_rparen in Hprog as (last & tok & -> & Hlook & Hty).
      destruct (decide (last < length body)) as [Hlt|Hge]; [lia |].
      pose proof (lookup_lt_Some _ _ _ Hlook) as Hlen.
      rewrite length_app in Hlen. cbn in Hlen.
      assert (last = length body) as -> by lia.
      rewrite lookup_app_r in Hlook by lia.
      replace (length body - length body) with 0 in Hlook by lia.
      cbn in Hlook. injection Hlook as <-. congruence.
    + intros Hlt.
      destruct (lookup_lt_is_Some_2 body pos Hlt) as [tok Hlook].
      exists tok.
      assert (Hne : type tok <> EOF).
      { rewrite Forall_lookup in Hbody. exact (Hbody _ _ Hlook). }
      assert (Hlook' : (body ++ [eof]) !! pos = Some tok).
      { rewrite lookup_app_l by exact Hlt. exact Hlook. }
      split; [exact Hlook' |]. split; [exact Hne |].
      unfold parse. rewrite Htok.
      rewrite length_app in Hprog. cbn [length] in Hprog.
      rewrite length_app. cbn [length]. rewrite Hprog.
      unfold at_eof, mbind, P_bind, peek. rewrite Hlook'. cbn.
      rewrite bool_decide_eq_false_2 by exact Hne.
      reflexivity.
Qed.

Lemma parse_requires_end_of_input_witness :
  parse literal_float trailing_source
  = Some (Raise (ParseError "Unexpected tokens after program" (Some (1, 11)))).
Proof.
  destruct (parse_requires_end_of_input literal_float trailing_source) as [_ H].
  destruct (H _ (mkProgram []) 3 eq_refl eq_refl) as [_ H'].
  destruct H' as (tok & Hlook & _ & Hparse); [cbn; lia |].
  injection Hlook as <-. exact Hparse.
Defined.

End ParserFacts.

(** * Further properties of the emitter *)

(** Induction over expressions that reaches the expressions inside
    argument lists, arms and fields. *)
Module ExprInduction.

Section Principle.
Variable P : Expr -> Prop.
Hypothesis HLit : forall v th, P (LitExpr v th).
Hypothesis HIdent : forall n, P (IdentExpr n).
Hypothesis HLet : forall n v b, P v -> P b -> P (LetExpr n v b).
Hypothesis HIf : forall c t e, P c -> P t -> P e -> P (IfExpr c t e).
Hypothesis HMatch : forall t arms, P t -> Forall (fun arm => P (arm_body arm)) arms -> P (MatchExpr t arms).
Hypothesis HLambda : forall ps b, P b -> P (LambdaExpr ps b).
Hypothesis HPipe : forall v steps, P v -> Forall P steps -> P (PipeExpr v steps).
Hypothesis HDo : forall es, Forall P es -> P (DoExpr es).
Hypothesis HOp : forall op args, Forall P args -> P (OpExpr op args).
Hypothesis HCall : forall f args, Forall P args -> P (CallExpr f args).
Hypothesis HList : forall es, Forall P es -> P (ListExpr es).
Hypothesis HRecord : forall tn fields, Forall (fun fv => P (snd fv)) fields -> P (RecordExpr tn fields).
Hypothesis HGet : forall o f, P o -> P (GetExpr o f).
Hypothesis HSet : forall o f v, P o -> P v -> P (SetExpr o f v).
Hypothesis HBuiltin : forall n args, Forall P args -> P (BuiltinExpr n args).
Hypothesis HSome : forall v, P v -> P (SomeExpr v).
Hypothesis HNone : P NoneExpr.
Hypothesis HTry : forall b cv cb, P b -> P cb -> P (TryExpr b cv cb).
Hypothesis HError : forall m, P m -> P (ErrorExpr m).

Lemma Expr_nested_ind : forall e, P e.
Proof.
  fix IH 1. intros e.
  assert (Hl : forall l : list Expr, Forall P l).
  { fix IHl 1. intros [|x l]; constructor; [apply IH | apply IHl]. }
  destruct e.
  - apply HLit.
  - apply HIdent.
  - apply HLet; apply IH.
  - apply HIf; apply IH.
  - apply HMatch; [apply IH |].
    revert arms. fix IHa 1. intros [|[p b] arms]; constructor; [apply IH | apply IHa].
  - apply HLambda; apply IH.
  - apply HPipe; [apply IH | apply Hl].
  - apply HDo; apply Hl.
  - apply HOp; apply Hl.
  - apply HCall; apply Hl.
  - apply HList; apply Hl.
  - apply HRecord.
    revert fields. fix IHf 1. intros [|[n v] fields]; constructor; [apply IH | apply IHf].
  - apply HGet; apply IH.
  - apply HSet; apply IH.
  - apply HBuiltin; apply Hl.
  - apply HSome; apply IH.
  - apply HNone.
  - apply HTry; apply IH.
  - apply HError; apply IH.
Qed.
End Principle.
End ExprInduction.

Module EmitterExtras.
Import Emitter Scenarios.


Lemma arg_raise (args : list string) (i : nat) (e : PyError) :
  arg args i = Raise e -> e = IndexError.
Proof. unfold arg. destruct (args !! i); [discriminate | congruence]. Qed.

Lemma mapM_raise {A B} (P : PyError -> Prop) (f : A -> Result B) (l : list A) (e : PyError) :
  Forall (fun a => forall e, f a = Raise e -> P e) l ->
  mapM f l = Raise e -> P e.
Proof.
  induction 1 as [|a l Ha Hl IH]; cbn [mapM]; [discriminate |].
  destruct (f a) as [b|e'] eqn:Hf; [|intros H; injection H as <-; exact (Ha _ eq_refl)].
  rewrite EmitterFacts.bind_ok.
  destruct (mapM f l) as [bs|e'']; [discriminate |].
  intros H; injection H as <-. apply IH. reflexivity.
Qed.

Ltac order_step :=
  match goal with
  | H : Raise _ = Raise _ |- _ => injection H as <-
  | H : Ok _ = Raise _ |- _ => discriminate H
  | H : arg _ _ = Raise _ |- _ => apply arg_raise in H; subst
  | H : context [if ?c then _ else _] |- _ => destruct c
  | H : context [mbind _ (arg ?a ?i)] |- _ => destruct (arg a i) eqn:?; cbn [mbind Result_bind] in H
  | H : context [match ?l with [] => _ | _ :: _ => _ end] |- _ => destruct l
  end.

Lemma order_fn_list_args_raise raw args e :
  _order_fn_list_args raw args = Raise e -> e = IndexError.
Proof.
  unfold _order_fn_list_args. intros H.
  repeat order_step; auto.
Qed.

Ltac builtin_step :=
  match goal with
  | H : Raise _ = Raise _ |- _ => injection H as <-
  | H : Ok _ = Raise _ |- _ => discriminate H
  | H : arg _ _ = Raise _ |- _ => apply arg_raise in H; subst
  | H : context [if ?c then _ else _] |- _ => destruct c
  | H : _order_fn_list_args _ _ = Raise _ |- _ => apply order_fn_list_args_raise in H; subst
  | H : context [mbind _ (_order_fn_list_args ?r ?a)] |- _ =>
      destruct (_order_fn_list_args r a) as [[? ?]|?] eqn:?; cbn [mbind Result_bind] in H
  | H : context [mbind _ (arg ?a ?i)] |- _ => destruct (arg a i) eqn:?; cbn [mbind Result_bind] in H
  | H : context [match ?l with [] => _ | _ :: _ => _ end] |- _ => destruct l
  | H : context [match ?r with Ok _ => _ | Raise _ => _ end] |- _ => destruct r eqn:?
  | H : context [match ?x with LitExpr _ _ => _ | _ => _ end] |- _ => destruct x
  | H : context [match ?x with VStr _ => _ | _ => _ end] |- _ => destruct x
  | H : context [match ?x with EmptyString => _ | String _ _ => _ end] |- _ => destruct x
  end.



Lemma builtin_expr_raise (name : string) (raw : list Expr) (args : list string) (e : PyError) :
  _builtin_expr name raw args = Raise e -> e = IndexError \/ e = NameError.
Proof.
  unfold _builtin_expr. cbv zeta. intros H.
  repeat first [ solve [auto] | builtin_step ].
Qed.
















Lemma contains_append c a b :
  str_contains_char c (a +:+ b) = str_contains_char c a || str_contains_char c b.
Proof.
  induction a as [|x a IH]; [reflexivity |].
  change (String x a +:+ b) with (String x (a +:+ b)).
  cbn [str_contains_char]. rewrite IH. apply orb_assoc.
Qed.

Lemma replace_char_removes c new s :
  str_contains_char c new = false -> str_contains_char c (replace_char c new s) = false.
Proof.
  intros Hnew. induction s as [|a s IH]; [reflexivity |].
  cbn [replace_char]. destruct (Ascii.eqb a c) eqn:Hac.
  - rewrite contains_append, Hnew, IH. reflexivity.
  - cbn [str_contains_char]. rewrite Hac, IH. reflexivity.
Qed.

Lemma replace_char_keeps d c new s :
  str_contains_char d new = false -> str_contains_char d s = false ->
  str_contains_char d (replace_char c new s) = false.
Proof.
  intros Hnew. induction s as [|a s IH]; [reflexivity |].
  cbn [replace_char str_contains_char].
  intros H. apply orb_false_elim in H as [Had Hs].
  destruct (Ascii.eqb a c).
  - rewrite contains_append, Hnew, IH by exact Hs. reflexivity.
  - cbn [str_contains_char]. rewrite Had, IH by exact Hs. reflexivity.
Qed.

Lemma replace_char_absent c new s :
  str_contains_char c s = false -> replace_char c new s = s.
Proof.
  induction s as [|a s IH]; [reflexivity |].
  cbn [replace_char str_contains_char].
  intros H. apply orb_false_elim in H as [Hac Hs]. rewrite Hac, IH by exact Hs. reflexivity.
Qed.

Lemma keyword_suffixed (k : string) :
  str_in k python_keywords = true -> str_in (k +:+ "_") python_keywords = false.
Proof.
  intros H. unfold str_in in H. apply existsb_exists in H as (x & Hin & Heq).
  apply String.eqb_eq in Heq. subst x.
  unfold python_keywords in Hin. cbn [In] in Hin.
  repeat (destruct Hin as [<- | Hin]; [reflexivity |]). contradiction.
Qed.

(** X2.  A sanitized name is never one of the reserved words of the
    emitter's list, holds no hyphen and no question mark, and is left
    unchanged by a second sanitization. *)
Theorem sanitize_name_safe (name : string) :
  str_in (_sanitize_name name) python_keywords = false
  /\ str_contains_char "-" (_sanitize_name name) = false
  /\ str_contains_char "?" (_sanitize_name name) = false
  /\ _sanitize_name (_sanitize_name name) = _sanitize_name name.
Proof.
  assert (Hk : str_in (_sanitize_name name) python_keywords = false).
  { unfold _sanitize_name.
    destruct (str_in (replace_char "?" "_q" (replace_char "-" "_" name)) python_keywords)
      eqn:H; [|exact H].
    apply keyword_suffixed. exact H. }
  assert (Hd : str_contains_char "-" (_sanitize_name name) = false).
  { unfold _sanitize_name.
    assert (H : str_contains_char "-" (replace_char "?" "_q" (replace_char "-" "_" name)) = false).
    { apply replace_char_keeps; [reflexivity | apply replace_char_removes; reflexivity]. }
    destruct (str_in (replace_char "?" "_q" (replace_char "-" "_" name)) python_keywords);
      [|exact H].
    rewrite contains_append, H. reflexivity. }
  assert (Hq : str_contains_char "?" (_sanitize_name name) = false).
  { unfold _sanitize_name.
    assert (H : str_contains_char "?" (replace_char "?" "_q" (replace_char "-" "_" name)) = false).
    { apply replace_char_removes; reflexivity. }
    destruct (str_in (replace_char "?" "_q" (replace_char "-" "_" name)) python_keywords);
      [|exact H].
    rewrite contains_append, H. reflexivity. }
  repeat split; try assumption.
  unfold _sanitize_name at 1.
  rewrite (replace_char_absent "-" _ _ Hd), (replace_char_absent "?" _ _ Hq), Hk.
  reflexivity.
Qed.

Lemma builtin_map_two (r0 r1 : Expr) (t0 t1 : string) :
  _builtin_expr "map" [r0; r1] [t0; t1]
  = if is_lambda r0 then Ok ("[" +:+ t0 +:+ "(_x_) for _x_ in " +:+ t1 +:+ "]")
    else if is_lambda r1 then Ok ("[" +:+ t1 +:+ "(_x_) for _x_ in " +:+ t0 +:+ "]")
    else Ok ("[" +:+ t0 +:+ "(_x_) for _x_ in " +:+ t1 +:+ "]").
Proof. unfold _builtin_expr, _order_fn_list_args. cbn. destruct (is_lambda r0), (is_lambda r1); reflexivity. Qed.

Lemma builtin_filter_two (r0 r1 : Expr) (t0 t1 : string) :
  _builtin_expr "filter" [r0; r1] [t0; t1]
  = if is_lambda r0 then Ok ("[_x_ for _x_ in " +:+ t1 +:+ " if " +:+ t0 +:+ "(_x_)]")
    else if is_lambda r1 then Ok ("[_x_ for _x_ in " +:+ t0 +:+ " if " +:+ t1 +:+ "(_x_)]")
    else Ok ("[_x_ for _x_ in " +:+ t1 +:+ " if " +:+ t0 +:+ "(_x_)]").
Proof. unfold _builtin_expr, _order_fn_list_args. cbn. destruct (is_lambda r0), (is_lambda r1); reflexivity. Qed.

Lemma mapM_two (a0 a1 : Expr) (t0 t1 : string) :
  _expr a0 = Ok t0 -> _expr a1 = Ok t1 -> mapM _expr [a0; a1] = Ok [t0; t1].
Proof. intros H0 H1. cbn [mapM]. rewrite H0, H1. reflexivity. Qed.

(** X3.  Outside a pipe, [map] and [filter] take the function and the
    collection in either order when the function is written as a
    lambda: both orders compile to the same comprehension.  When the
    second argument is no lambda the first is taken for the function. *)
Theorem map_filter_argument_orders (fn coll : Expr) (F C : string) :
  _expr fn = Ok F -> _expr coll = Ok C ->
  (is_lambda coll = false ->
     _expr (BuiltinExpr "map" [fn; coll])
       = Ok ("[" +:+ F +:+ "(_x_) for _x_ in " +:+ C +:+ "]")
     /\ _expr (BuiltinExpr "filter" [fn; coll])
       = Ok ("[_x_ for _x_ in " +:+ C +:+ " if " +:+ F +:+ "(_x_)]"))
  /\ (is_lambda fn = true -> is_lambda coll = false ->
       _expr (BuiltinExpr "map" [coll; fn])
         = Ok ("[" +:+ F +:+ "(_x_) for _x_ in " +:+ C +:+ "]")
       /\ _expr (BuiltinExpr "filter" [coll; fn])
         = Ok ("[_x_ for _x_ in " +:+ C +:+ " if " +:+ F +:+ "(_x_)]")).
Proof.
  intros HF HC. split.
  - intros Hcoll. rewrite !EmitterFacts.expr_builtin, (mapM_two _ _ _ _ HF HC).
    rewrite !EmitterFacts.bind_ok, builtin_map_two, builtin_filter_two, Hcoll.
    destruct (is_lambda fn); split; reflexivity.
  - intros Hfn Hcoll. rewrite !EmitterFacts.expr_builtin, (mapM_two _ _ _ _ HC HF).
    rewrite !EmitterFacts.bind_ok, builtin_map_two, builtin_filter_two, Hcoll, Hfn.
    split; reflexivity.
Qed.

Lemma map_filter_argument_orders_witness :
  _expr (BuiltinExpr "map" [xs; double_lambda]) = Ok "[(lambda x: (x * 2))(_x_) for _x_ in xs]"
  /\ _expr (BuiltinExpr "map" [double_lambda; xs]) = Ok "[(lambda x: (x * 2))(_x_) for _x_ in xs]".
Proof.
  destruct (map_filter_argument_orders double_lambda xs "(lambda x: (x * 2))" "xs"
              eq_refl eq_refl) as [H1 H2].
  split; [apply H2; reflexivity | apply H1; reflexivity].
Defined.

(** X4.  The call form with the name of a builtin compiles exactly as
    the builtin form, and with the name of an operator exactly as the
    operator form; only other names become calls of the sanitized
    name. *)
Theorem call_form_routing (func : string) (args : list Expr) :
  (str_in func _ALL_BUILTINS = true ->
     _expr (CallExpr func args) = _expr (BuiltinExpr func args))
  /\ (str_in func _ALL_BUILTINS = false -> str_in func _ALL_OPERATORS = true ->
       _expr (CallExpr func args) = _expr (OpExpr func args))
  /\ (str_in func _ALL_BUILTINS = false -> str_in func _ALL_OPERATORS = false ->
       _expr (CallExpr func args)
       = (compiled ← mapM _expr args;
          Ok (_sanitize_name func +:+ "(" +:+ join ", " compiled +:+ ")"))).
Proof.
  repeat split; intros; cbn [_expr]; unfold _call_expr;
    repeat match goal with H : str_in _ _ = _ |- _ => rewrite H; clear H end;
    reflexivity.
Qed.

Lemma call_form_routing_witness :
  _expr (CallExpr "head" [xs]) = Ok "xs[0]"
  /\ _expr (CallExpr "*" [xs; zero]) = Ok "(xs * 0)".
Proof.
  split.
  - rewrite (proj1 (call_form_routing "head" [xs]) eq_refl). reflexivity.
  - rewrite (proj1 (proj2 (call_form_routing "*" [xs; zero])) eq_refl eq_refl). reflexivity.
Defined.

Lemma mapM_length {A B} (f : A -> Result B) (l : list A) (out : list B) :
  mapM f l = Ok out -> length out = length l.
Proof.
  revert out. induction l as [|a l IH]; intros out; cbn [mapM].
  - intros H. injection H as <-. reflexivity.
  - destruct (f a); [|discriminate]. rewrite EmitterFacts.bind_ok.
    destruct (mapM f l) as [bs|]; [|discriminate].
    intros H. injection H as <-. cbn. rewrite (IH bs eq_refl). reflexivity.
Qed.

Lemma builtin_any (raw : list Expr) (texts : list string) :
  _builtin_expr "any" raw texts
  = if (1 <? length texts)%nat then Raise NameError
    else (a0 ← arg texts 0; Ok ("any(" +:+ a0 +:+ ")")).
Proof. reflexivity. Qed.

Lemma builtin_all (raw : list Expr) (texts : list string) :
  _builtin_expr "all" raw texts
  = if (1 <? length texts)%nat then Raise NameError
    else (a0 ← arg texts 0; Ok ("all(" +:+ a0 +:+ ")")).
Proof. reflexivity. Qed.

(** X5.  The builtins [any] and [all] with two or more arguments cannot
    be compiled: once the arguments are compiled the emitter raises
    NameError.  With one argument they compile to a call of the host
    function on it. *)
Theorem any_all_two_arguments (args : list Expr) (texts : list string) :
  mapM _expr args = Ok texts ->
  (2 <= length args ->
     _expr (BuiltinExpr "any" args) = Raise NameError
     /\ _expr (BuiltinExpr "all" args) = Raise NameError)
  /\ (forall t, texts = [t] ->
        _expr (BuiltinExpr "any" args) = Ok ("any(" +:+ t +:+ ")")
        /\ _expr (BuiltinExpr "all" args) = Ok ("all(" +:+ t +:+ ")")).
Proof.
  intros Hargs. pose proof (mapM_length _ _ _ Hargs) as Hlen.
  rewrite !EmitterFacts.expr_builtin, Hargs, !EmitterFacts.bind_ok, builtin_any, builtin_all.
  split.
  - intros H2. destruct (Nat.ltb_spec 1 (length texts)) as [_|Hle]; [split; reflexivity | lia].
  - intros t ->. split; reflexivity.
Qed.

Lemma any_all_two_arguments_witness :
  _expr (BuiltinExpr "any" [identity_lambda; xs]) = Raise NameError.
Proof.
  destruct (any_all_two_arguments [identity_lambda; xs] ["(lambda x: x)"; "xs"] eq_refl)
    as [H _].
  apply H. cbn. lia.
Defined.

End EmitterExtras.

(** * Further properties of the checkers *)

Module CheckerExtras.
Import EffectChecker ContractChecker Scenarios.

Lemma not_in_union_list (x : string) (sets : list (gset string)) :
  Forall (fun s => x ∉ s) sets -> x ∉ ⋃ sets.
Proof.
  induction 1 as [|s sets Hs _ IH]; cbn; [set_solver |].
  set_solver.
Qed.

Lemma not_in_union_map {A} (x : string) (f : A -> gset string) (l : list A) :
  Forall (fun a => x ∉ f a) l -> x ∉ ⋃ (map f l).
Proof. intros H. apply not_in_union_list. rewrite Forall_map. exact H. Qed.

Lemma pure_never_collected (graph_effects : gmap string (gset string)) (e : Expr) :
  "pure" ∉ _collect_effects graph_effects e.
Proof.
  revert e. apply ExprInduction.Expr_nested_ind; cbn [_collect_effects].
  - intros. set_solver.
  - intros. set_solver.
  - intros n v b Hv Hb. set_solver.
  - intros c t e Hc Ht He. set_solver.
  - intros t arms Ht Harms.
    assert ("pure" ∉ ⋃ (map (fun arm => match arm with
                                       | mkMatchArm _ body => _collect_effects graph_effects body
                                       end) arms)).
    { apply not_in_union_map. eapply Forall_impl; [exact Harms |]. intros [p b] H. exact H. }
    set_solver.
  - intros ps b Hb. exact Hb.
  - intros v steps Hv Hsteps. pose proof (not_in_union_map _ _ _ Hsteps). set_solver.
  - intros es Hes. exact (not_in_union_map _ _ _ Hes).
  - intros op args Hargs. exact (not_in_union_map _ _ _ Hargs).
  - intros f args Hargs. pose proof (not_in_union_map _ _ _ Hargs).
    destruct (graph_effects !! f); set_solver.
  - intros es Hes. exact (not_in_union_map _ _ _ Hes).
  - intros tn fields Hfields. apply not_in_union_map.
    eapply Forall_impl; [exact Hfields |]. intros [n v] H. exact H.
  - intros o f Ho. exact Ho.
  - intros. set_solver.
  - intros n args Hargs. pose proof (not_in_union_map _ _ _ Hargs).
    destruct (decide (n ∈ IO_BUILTINS)), (decide (n ∈ FAIL_BUILTINS)); set_solver.
  - intros. set_solver.
  - set_solver.
  - intros b cv cb Hb Hcb. set_solver.
  - intros. set_solver.
Qed.

Definition declared (g : Graph) : gset string := list_to_set (g_effects g).

Lemma check_graph_nil (graph_effects : gmap string (gset string)) (g : Graph) :
  _check_graph graph_effects g = []
  <-> _collect_effects graph_effects (g_body g) ⊆ declared g.
Proof.
  pose proof (pure_never_collected graph_effects (g_body g)) as Hpure.
  unfold _check_graph, declared.
  destruct (decide _) as [[_ Heq]|_].
  - rewrite Heq. destruct (decide _) as [He|Hne].
    + split; [intros _; set_solver | reflexivity].
    + split; [discriminate |]. intros Hsub. exfalso. apply Hne.
      apply leibniz_equiv. set_solver.
  - destruct (decide _) as [He|Hne].
    + split; [intros _; set_solver | reflexivity].
    + split; [discriminate |]. intros Hsub. exfalso. apply Hne.
      apply leibniz_equiv. set_solver.
Qed.

Lemma check_graph_length (graph_effects : gmap string (gset string)) (g : Graph) :
  length (_check_graph graph_effects g) <= 1.
Proof.
  unfold _check_graph. repeat destruct (decide _); cbn; lia.
Qed.

Lemma flat_map_nil {A B} (f : A -> list B) (l : list A) :
  flat_map f l = [] <-> Forall (fun a => f a = []) l.
Proof.
  induction l as [|a l IH]; cbn; [split; [constructor | reflexivity] |].
  split.
  - intros H. apply app_eq_nil in H as [Ha Hl]. constructor; [exact Ha | apply IH; exact Hl].
  - intros H. inversion H as [|? ? Ha Hl]; subst. rewrite Ha. apply IH. exact Hl.
Qed.

Lemma elem_of_graphs (p : Program) (g : Graph) :
  g ∈ graphs p <-> DefGraph g ∈ definitions p.
Proof.
  unfold graphs. rewrite list_elem_of_omap. split.
  - intros (d & Hd & Hg). destruct d; [discriminate |]. injection Hg as <-. exact Hd.
  - intros H. exists (DefGraph g). auto.
Qed.

(** X6.  [check_effects] accepts a program exactly when the effects
    collected from each graph's body are among the effects the graph
    declares; the branch for graphs declared pure changes the message,
    not the verdict.  It reports at most one diagnostic per graph, and
    [pure] is never among the collected effects. *)
Theorem check_effects_accepts (program : Program) :
  (check_effects program = []
   <-> forall g, g ∈ graphs program ->
         _collect_effects (register_effects program) (g_body g) ⊆ declared g)
  /\ length (check_effects program) <= length (graphs program)
  /\ (forall e, "pure" ∉ _collect_effects (register_effects program) e).
Proof.
  split; [|split; [|intros e; apply pure_never_collected]].
  - unfold check_effects. rewrite flat_map_nil, Forall_forall. split.
    + intros H g Hg. apply check_graph_nil. apply elem_of_graphs in Hg.
      exact (H (DefGraph g) Hg).
    + intros H [td|g] Hd; [reflexivity |]. apply check_graph_nil. apply H.
      apply elem_of_graphs. exact Hd.
  - unfold check_effects, graphs.
    induction (definitions program) as [|[td|g] defs IH]; cbn; [lia | exact IH |].
    rewrite length_app. pose proof (check_graph_length (register_effects program) g). lia.
Qed.

(** X7.  When several graphs share a name, a call to that name is
    charged with the effects declared by the last of them. *)
Theorem register_effects_last_wins (program : Program) (func : string) :
  register_effects program !! func
  = declared <$> last (filter (fun g => g_name g = func) (graphs program)).
Proof.
  unfold register_effects, graphs.
  induction (definitions program) as [|d defs IH] using rev_ind; [reflexivity |].
  rewrite foldl_snoc, omap_app, filter_app. destruct d as [td|g].
  - change (omap _ [DefType td]) with (@nil Graph).
    rewrite filter_nil, app_nil_r. exact IH.
  - change (omap _ [DefGraph g]) with [g].
    rewrite filter_cons. destruct (decide (g_name g = func)) as [<-|Hne].
    + rewrite lookup_insert_eq, filter_nil, last_snoc. reflexivity.
    + rewrite lookup_insert_ne by exact Hne. rewrite filter_nil, app_nil_r. exact IH.
Qed.

Lemma mjoin_imap_nil {A B} (f : nat -> A -> list B) (l : list A) :
  mjoin (imap f l) = [] <-> forall i x, l !! i = Some x -> f i x = [].
Proof.
  revert f. induction l as [|a l IH]; intros f; cbn.
  - split; [intros _ i x H; discriminate | reflexivity].
  - split.
    + intros H. apply app_eq_nil in H as [Ha Hl]. intros [|i] x Hx; cbn in Hx.
      * injection Hx as <-. exact Ha.
      * exact (proj1 (IH _) Hl i x Hx).
    + intros H. rewrite (H 0 a eq_refl). cbn. apply IH. intros i x Hx. exact (H (S i) x Hx).
Qed.

Lemma check_conditions_nil (gname kind : string) (valid : gset string) (conds : list Expr) :
  check_conditions gname kind valid conds = []
  <-> forall cond, cond ∈ conds -> _free_vars cond ⊆ valid.
Proof.
  unfold check_conditions. rewrite mjoin_imap_nil. split.
  - intros H cond Hin. apply list_elem_of_lookup in Hin as [i Hi].
    specialize (H i cond Hi). cbv zeta in H.
    destruct (decide _) as [He|]; [|discriminate]. set_solver.
  - intros H i cond Hi. cbv zeta.
    destruct (decide _) as [|Hne]; [reflexivity |].
    exfalso. apply Hne. apply leibniz_equiv.
    assert (_free_vars cond ⊆ valid) by (apply H; apply list_elem_of_lookup; eauto).
    set_solver.
Qed.

Definition param_names (g : Graph) : gset string := list_to_set (map fst (g_inputs g)).

(** X8.  [check_contracts] accepts a program exactly when, for every
    graph with a contract, the names that [_free_vars] finds in each
    precondition are input names and those it finds in each
    postcondition are input names or [result]. *)
Theorem check_contracts_accepts (program : Program) :
  check_contracts program = []
  <-> forall g contract,
        g ∈ graphs program -> g_contract g = Some contract ->
        (forall pre, pre ∈ preconditions contract -> _free_vars pre ⊆ param_names g)
        /\ (forall post, post ∈ postconditions contract ->
             _free_vars post ⊆ param_names g ∪ {[ "result" ]}).
Proof.
  unfold check_contracts. rewrite flat_map_nil, Forall_forall. split.
  - intros H g contract Hg Hc. apply elem_of_graphs in Hg. specialize (H _ Hg).
    cbn in H. rewrite Hc in H. unfold _check_contract in H.
    apply app_eq_nil in H as [Hpre Hpost].
    split.
    + exact (proj1 (check_conditions_nil _ _ _ _) Hpre).
    + exact (proj1 (check_conditions_nil _ _ _ _) Hpost).
  - intros H [td|g] Hd; [reflexivity |].
    destruct (g_contract g) as [contract|] eqn:Hc; [|reflexivity].
    apply elem_of_graphs in Hd. destruct (H g contract Hd Hc) as [Hpre Hpost].
    unfold _check_contract.
    rewrite (proj2 (check_conditions_nil _ _ _ _) Hpre).
    rewrite (proj2 (check_conditions_nil _ _ _ _) Hpost). reflexivity.
Qed.
End CheckerExtras.

(** * Further properties of the lexer and the parser *)

Module ParserExtras.
Import Lexer Parser Scenarios.

(** The parser's own failures: a parse error, or the ValueError of a
    numeric literal that the host cannot read. *)
Definition syntax_error (e : PyError) : Prop :=
  (exists msg loc, e = ParseError msg loc) \/ e = ValueError.

Section Stream.
Variable tokens : list Token.
Variable fl : string -> PyFloat.
(** The index of the end-of-input token, the last of the stream. *)
Variable last_index : nat.
Hypothesis stream_length : length tokens = last_index + 1.
Hypothesis stream_eof :
  forall tok, tokens !! last_index = Some tok -> type tok = EOF /\ value tok = "".

(** A run from a position at most [last_index] ends at a position
    between [lo] and [last_index], or with a syntax error; it neither
    uses up its budget nor raises another exception. *)
Definition outcome {A} (lo : nat) (r : option (Result (A * nat))) : Prop :=
  match r with
  | Some (Ok (_, pos')) => lo <= pos' /\ pos' <= last_index
  | Some (Raise e) => syntax_error e
  | None => False
  end.

Lemma outcome_weaken {A} (lo lo' : nat) (r : option (Result (A * nat))) :
  lo <= lo' -> outcome lo' r -> outcome lo r.
Proof. intros Hle. destruct r as [[[a p]|e]|]; cbn; [lia | auto | auto]. Qed.

Lemma outcome_bind {A B} (lo1 lo : nat) (m : P A) (k : A -> P B) (pos : nat) :
  outcome lo1 (m pos) ->
  (forall a pos', m pos = Some (Ok (a, pos')) -> lo1 <= pos' -> pos' <= last_index ->
                  outcome lo (k a pos')) ->
  outcome lo ((m ≫= k) pos).
Proof.
  unfold mbind, P_bind. destruct (m pos) as [[[a p]|e]|]; cbn; intros H Hk; auto.
  apply Hk; [reflexivity | lia | lia].
Qed.

Lemma outcome_pure {A} (lo : nat) (a : A) (pos : nat) :
  lo <= pos -> pos <= last_index -> outcome lo (pure a pos).
Proof. cbn. lia. Qed.

Lemma outcome_error {A} (lo : nat) (msg : string) (tok : Token) (pos : nat) :
  outcome (A := A) lo (parse_error_at msg tok pos).
Proof. cbn. left. eauto. Qed.

Lemma lookup_in_range (pos : nat) : pos <= last_index -> exists tok, tokens !! pos = Some tok.
Proof. intros H. apply lookup_lt_is_Some_2. lia. Qed.

Lemma not_eof_before_last (pos : nat) (tok : Token) :
  tokens !! pos = Some tok -> pos <= last_index -> type tok <> EOF -> pos < last_index.
Proof.
  intros Hlook Hle Hty. destruct (decide (pos = last_index)) as [->|]; [|lia].
  destruct (stream_eof _ Hlook) as [Heof _]. contradiction.
Qed.

Lemma named_before_last (pos : nat) (tok : Token) :
  tokens !! pos = Some tok -> pos <= last_index -> value tok <> "" -> pos < last_index.
Proof.
  intros Hlook Hle Hval. destruct (decide (pos = last_index)) as [->|]; [|lia].
  destruct (stream_eof _ Hlook) as [_ Hv]. contradiction.
Qed.

Lemma peek_ok (pos pos' : nat) (tok : Token) :
  peek tokens pos = Some (Ok (tok, pos')) -> tokens !! pos = Some tok /\ pos' = pos.
Proof.
  unfold peek. destruct (tokens !! pos); [|discriminate].
  intros H. injection H as -> <-. auto.
Qed.

Lemma outcome_peek (pos : nat) : pos <= last_index -> outcome pos (peek tokens pos).
Proof.
  intros H. unfold peek. destruct (lookup_in_range pos H) as [tok ->]. cbn. lia.
Qed.

Lemma outcome_advance (pos : nat) : pos < last_index -> outcome (pos + 1) (advance tokens pos).
Proof.
  intros H. unfold advance. destruct (lookup_in_range pos) as [tok ->]; [lia |]. cbn. lia.
Qed.

Lemma outcome_expect (ttype : TokenType) (val : option string) (pos : nat) :
  ttype <> EOF -> pos <= last_index -> outcome (pos + 1) (expect tokens ttype val pos).
Proof.
  intros Hty Hpos. unfold expect, mbind, P_bind, advance.
  destruct (lookup_in_range pos Hpos) as [tok Hlook]. rewrite Hlook.
  destruct (bool_decide (type tok = ttype)) eqn:Hdec; cbn [negb]; [|apply outcome_error].
  apply bool_decide_eq_true in Hdec.
  assert (pos < last_index).
  { eapply not_eof_before_last; [exact Hlook | exact Hpos | congruence]. }
  destruct val as [v|].
  - destruct (String.eqb (value tok) v); cbn [negb]; [|apply outcome_error]. cbn. lia.
  - cbn. lia.
Qed.

Lemma outcome_at_rparen (pos : nat) : pos <= last_index -> outcome pos (at_rparen tokens pos).
Proof.
  intros H. unfold at_rparen, mbind, P_bind, peek.
  destruct (lookup_in_range pos H) as [tok ->]. cbn. lia.
Qed.

Lemma outcome_at_lparen (pos : nat) : pos <= last_index -> outcome pos (at_lparen tokens pos).
Proof.
  intros H. unfold at_lparen, mbind, P_bind, peek.
  destruct (lookup_in_range pos H) as [tok ->]. cbn. lia.
Qed.

Lemma at_lparen_ok (pos pos' : nat) (b : bool) :
  at_lparen tokens pos = Some (Ok (b, pos')) -> pos' = pos.
Proof.
  unfold at_lparen, mbind, P_bind, peek. destruct (tokens !! pos); [|discriminate].
  cbn. intros H. injection H as _ <-. reflexivity.
Qed.

Lemma at_rparen_ok (pos pos' : nat) (b : bool) :
  at_rparen tokens pos = Some (Ok (b, pos')) -> pos' = pos.
Proof.
  unfold at_rparen, mbind, P_bind, peek. destruct (tokens !! pos); [|discriminate].
  cbn. intros H. injection H as _ <-. reflexivity.
Qed.

Lemma outcome_lookahead (keyword : string) (pos : nat) :
  pos <= last_index -> outcome pos (_lookahead_keyword tokens keyword pos).
Proof. intros H. unfold _lookahead_keyword. destruct (tokens !! (pos + 1)); cbn; lia. Qed.

Lemma lookahead_ok (keyword : string) (pos pos' : nat) (b : bool) :
  _lookahead_keyword tokens keyword pos = Some (Ok (b, pos')) -> pos' = pos.
Proof.
  unfold _lookahead_keyword. destruct (tokens !! (pos + 1)); intros H; injection H as _ <-;
    reflexivity.
Qed.

(** A loop up to the closing parenthesis, over an item parser that
    consumes a token at each position from [lo0] on. *)
Lemma outcome_until_rparen {A} (p : P A) (lo0 : nat) :
  (forall pos, lo0 <= pos -> pos <= last_index -> outcome (pos + 1) (p pos)) ->
  forall fuel pos,
    lo0 <= pos -> pos <= last_index -> last_index < pos + fuel ->
    outcome pos (until_rparen tokens fuel p pos).
Proof.
  intros Hp. induction fuel as [|fuel IH]; intros pos Hlo Hpos Hfuel; [lia |].
  cbn [until_rparen].
  eapply outcome_bind; [apply outcome_at_rparen; exact Hpos |].
  intros stop pos1 Hstop _ _. apply at_rparen_ok in Hstop as ->.
  destruct stop; [apply outcome_pure; lia |].
  eapply outcome_bind; [apply Hp; assumption |].
  intros x pos2 _ Hlo2 Hhi2.
  eapply outcome_bind; [apply IH; lia |].
  intros xs pos3 _ Hlo3 Hhi3. apply outcome_pure; lia.
Qed.

Lemma keyword_before_last (pos : nat) (tok : Token) (keyword : string) :
  tokens !! pos = Some tok -> pos <= last_index ->
  String.eqb (value tok) keyword = true -> keyword <> "" -> pos < last_index.
Proof.
  intros Hlook Hle Heq Hne. apply String.eqb_eq in Heq.
  eapply named_before_last; [exact Hlook | exact Hle | congruence].
Qed.

Lemma typed_before_last (pos : nat) (tok : Token) (ttype : TokenType) :
  tokens !! pos = Some tok -> pos <= last_index ->
  type tok = ttype -> ttype <> EOF -> pos < last_index.
Proof.
  intros Hlook Hle Heq Hne.
  eapply not_eof_before_last; [exact Hlook | exact Hle | congruence].
Qed.

Ltac b_expect :=
  eapply outcome_bind; [apply outcome_expect; [discriminate | lia] | intros ? ? _ ? ?].
Ltac b_advance :=
  eapply outcome_bind; [apply outcome_advance; lia | intros ? ? _ ? ?].
Ltac b_peek tok H :=
  eapply outcome_bind;
  [apply outcome_peek; lia | intros tok ? H _ _; apply peek_ok in H as [H ->]].
Ltac finish := first [apply outcome_pure; lia | apply outcome_error].

Lemma outcome_parse_type_expr (fuel : nat) :
  forall pos, pos <= last_index -> last_index < pos + fuel ->
              outcome (pos + 1) (parse_type_expr tokens fuel pos).
Proof.
  induction fuel as [|fuel IH]; intros pos Hpos Hfuel; [lia |].
  cbn [parse_type_expr].
  b_peek tok Htok.
  destruct (bool_decide (type tok = IDENT)) eqn:Hid.
  { apply bool_decide_eq_true in Hid.
    assert (pos < last_index) by (eapply typed_before_last; eauto; discriminate).
    destruct (str_in (value tok) PRIMITIVE_TYPES); b_advance; finish. }
  destruct (bool_decide (type tok = LPAREN)) eqn:Hlp; [|finish].
  apply bool_decide_eq_true in Hlp.
  assert (pos < last_index) by (eapply typed_before_last; eauto; discriminate).
  b_advance. b_peek kw Hkw.
  assert (Hkey : forall k, String.eqb (value kw) k = true -> k <> "" -> pos' < last_index).
  { intros k. eapply keyword_before_last; [exact Hkw | lia]. }
  destruct (String.eqb (value kw) "List") eqn:HList.
  { specialize (Hkey _ HList ltac:(discriminate)).
    b_advance. eapply outcome_bind; [apply IH; lia |]. intros ? ? _ ? ?. b_expect. finish. }
  destruct (String.eqb (value kw) "Option") eqn:HOption.
  { specialize (Hkey _ HOption ltac:(discriminate)).
    b_advance. eapply outcome_bind; [apply IH; lia |]. intros ? ? _ ? ?. b_expect. finish. }
  destruct (String.eqb (value kw) "Tuple") eqn:HTuple.
  { specialize (Hkey _ HTuple ltac:(discriminate)).
    b_advance.
    eapply outcome_bind;
      [apply (outcome_until_rparen _ (pos + 1)); [intros; apply IH; lia | lia | lia | lia] |].
    intros ? ? _ ? ?. b_expect. finish. }
  destruct (String.eqb (value kw) "Record") eqn:HRecord.
  { specialize (Hkey _ HRecord ltac:(discriminate)).
    b_advance.
    eapply outcome_bind;
      [apply (outcome_until_rparen _ (pos + 1)); [| lia | lia | lia] |].
    { intros p Hlo Hhi. b_expect. b_expect.
      eapply outcome_bind; [apply IH; lia |]. intros ? ? _ ? ?. b_expect. finish. }
    intros ? ? _ ? ?. b_expect. finish. }
  destruct (String.eqb (value kw) "->") eqn:HArrow.
  { specialize (Hkey _ HArrow ltac:(discriminate)).
    b_advance. eapply outcome_bind; [apply IH; lia |]. intros ? ? _ ? ?.
    eapply outcome_bind; [apply IH; lia |]. intros ? ? _ ? ?. b_expect. finish. }
  destruct (String.eqb (value kw) "Enum") eqn:HEnum; [|finish].
  specialize (Hkey _ HEnum ltac:(discriminate)).
  b_advance.
  eapply outcome_bind;
    [apply (outcome_until_rparen _ (pos + 1)); [| lia | lia | lia] |].
  { intros p Hlo Hhi. b_expect. b_expect.
    eapply outcome_bind;
      [apply (outcome_until_rparen _ (pos + 1)); [intros; apply IH; lia | lia | lia | lia] |].
    intros ? ? _ ? ?. b_expect. finish. }
  intros ? ? _ ? ?. b_expect. finish.
Qed.

Lemma outcome_parse_param (fuel pos : nat) :
  pos <= last_index -> last_index < pos + fuel ->
  outcome (pos + 1) (parse_param tokens fuel pos).
Proof.
  intros Hpos Hfuel. unfold parse_param. b_expect. b_expect.
  eapply outcome_bind; [apply outcome_parse_type_expr; lia |]. intros ? ? _ ? ?.
  b_expect. finish.
Qed.

Lemma py_int_raise (text : string) (e : PyError) : py_int text = Raise e -> e = ValueError.
Proof.
  unfold py_int. destruct text as [|c rest].
  - cbn. congruence.
  - destruct c as [[] [] [] [] [] [] [] []];
      repeat match goal with |- context [if ?c then _ else _] => destruct c end; congruence.
Qed.

Lemma py_float_raise (text : string) (e : PyError) : py_float fl text = Raise e -> e = ValueError.
Proof. unfold py_float. destruct (forall_chars _ text); congruence. Qed.

Lemma outcome_parse_pattern (fuel : nat) :
  forall pos, pos <= last_index -> last_index < pos + fuel ->
              outcome (pos + 1) (parse_pattern tokens fl fuel pos).
Proof.
  induction fuel as [|fuel IH]; intros pos Hpos Hfuel; [lia |].
  cbn [parse_pattern].
  b_peek tok Htok.
  destruct (type tok) eqn:Hty; try finish;
    assert (pos < last_index) by (eapply typed_before_last; eauto; discriminate).
  - b_advance. b_expect.
    eapply outcome_bind;
      [apply (outcome_until_rparen _ (pos + 1)); [intros; apply IH; lia | lia | lia | lia] |].
    intros ? ? _ ? ?. b_expect. finish.
  - b_advance. finish.
  - b_advance. destruct (py_int (value tok)) eqn:Hint; [finish |].
    apply py_int_raise in Hint as ->. cbn. right. reflexivity.
  - b_advance. destruct (py_float fl (value tok)) eqn:Hfl; [finish |].
    apply py_float_raise in Hfl as ->. cbn. right. reflexivity.
  - destruct (String.eqb (value tok) "_"); [b_advance; finish |].
    destruct (str_in (value tok) ["true"; "false"]); b_advance; finish.
Qed.

Section FormOutcomes.
Variable rec : P Expr.
Variable fuel : nat.
Variable lo0 : nat.
Hypothesis rec_outcome :
  forall pos, lo0 <= pos -> pos <= last_index -> outcome (pos + 1) (rec pos).
Hypothesis loop_budget : last_index < lo0 + fuel.

Ltac b_rec := eapply outcome_bind; [apply rec_outcome; lia | intros ? ? _ ? ?].
Ltac b_args :=
  eapply outcome_bind;
  [apply (outcome_until_rparen _ lo0); [exact rec_outcome | lia | lia | lia]
  | intros ? ? _ ? ?].

Lemma outcome_parse_let (pos : nat) :
  lo0 <= pos -> pos <= last_index -> outcome (pos + 1) (_parse_let tokens rec pos).
Proof.
  intros Hlo Hpos. unfold _parse_let, expect_ident. b_expect. b_expect. b_rec.
  eapply outcome_bind; [apply outcome_at_rparen; lia |].
  intros stop ? Hstop _ _. apply at_rparen_ok in Hstop as ->.
  destruct stop; [b_expect; finish |]. b_rec. b_expect. finish.
Qed.

Lemma outcome_parse_if (pos : nat) :
  lo0 <= pos -> pos <= last_index -> outcome (pos + 1) (_parse_if tokens rec pos).
Proof.
  intros Hlo Hpos. unfold _parse_if, expect_ident. b_expect. b_rec. b_rec. b_rec.
  b_expect. finish.
Qed.

Lemma outcome_parse_match_arm (pos : nat) :
  lo0 <= pos -> pos <= last_index ->
  outcome (pos + 1) (parse_match_arm tokens fl rec fuel pos).
Proof.
  intros Hlo Hpos. unfold parse_match_arm. b_expect.
  eapply outcome_bind; [apply outcome_parse_pattern; lia |]. intros ? ? _ ? ?.
  b_rec. b_expect. finish.
Qed.

Lemma outcome_parse_match (pos : nat) :
  lo0 <= pos -> pos <= last_index -> outcome (pos + 1) (_parse_match tokens fl rec fuel pos).
Proof.
  intros Hlo Hpos. unfold _parse_match, expect_ident. b_expect. b_rec.
  eapply outcome_bind;
    [apply (outcome_until_rparen _ lo0);
     [intros; apply outcome_parse_match_arm; lia | lia | lia | lia] |].
  intros ? ? _ ? ?. b_expect. finish.
Qed.

Lemma outcome_parse_lambda (pos : nat) :
  lo0 <= pos -> pos <= last_index -> outcome (pos + 1) (_parse_lambda tokens rec fuel pos).
Proof.
  intros Hlo Hpos. unfold _parse_lambda, expect_ident. b_expect. b_expect.
  eapply outcome_bind; [apply (outcome_until_rparen _ lo0); [| lia | lia | lia] |].
  { intros p Hlop Hhip.
    eapply outcome_bind; [apply outcome_at_lparen; lia |].
    intros lp ? Hlp _ _. apply at_lparen_ok in Hlp as ->.
    destruct lp.
    - eapply outcome_bind; [apply outcome_parse_param; lia |]. intros ? ? _ ? ?. finish.
    - b_expect. finish. }
  intros ? ? _ ? ?. b_expect. b_rec. b_expect. finish.
Qed.

Lemma outcome_parse_pipe (pos : nat) :
  lo0 <= pos -> pos <= last_index -> outcome (pos + 1) (_parse_pipe tokens rec fuel pos).
Proof.
  intros Hlo Hpos. unfold _parse_pipe, expect_ident. b_expect. b_rec. b_args. b_expect. finish.
Qed.

Lemma outcome_parse_do (pos : nat) :
  lo0 <= pos -> pos <= last_index -> outcome (pos + 1) (_parse_do tokens rec fuel pos).
Proof.
  intros Hlo Hpos. unfold _parse_do, expect_ident. b_expect. b_args. b_expect. finish.
Qed.

Lemma outcome_parse_op (pos : nat) :
  lo0 <= pos -> pos < last_index -> outcome (pos + 1) (_parse_op tokens rec fuel pos).
Proof. intros Hlo Hpos. unfold _parse_op. b_advance. b_args. b_expect. finish. Qed.

Lemma outcome_parse_call (pos : nat) :
  lo0 <= pos -> pos <= last_index -> outcome (pos + 1) (_parse_call tokens rec fuel pos).
Proof.
  intros Hlo Hpos. unfold _parse_call, expect_ident. b_expect. b_expect. b_args. b_expect.
  finish.
Qed.

Lemma outcome_parse_implicit_call (pos : nat) :
  lo0 <= pos -> pos < last_index ->
  outcome (pos + 1) (_parse_implicit_call tokens rec fuel pos).
Proof. intros Hlo Hpos. unfold _parse_implicit_call. b_advance. b_args. b_expect. finish. Qed.

Lemma outcome_parse_list (pos : nat) :
  lo0 <= pos -> pos <= last_index -> outcome (pos + 1) (_parse_list tokens rec fuel pos).
Proof.
  intros Hlo Hpos. unfold _parse_list, expect_ident. b_expect. b_args. b_expect. finish.
Qed.

Lemma outcome_parse_record (pos : nat) :
  lo0 <= pos -> pos <= last_index -> outcome (pos + 1) (_parse_record tokens rec fuel pos).
Proof.
  intros Hlo Hpos. unfold _parse_record, expect_ident. b_expect. b_expect.
  eapply outcome_bind; [apply (outcome_until_rparen _ lo0); [| lia | lia | lia] |].
  { intros p Hlop Hhip. b_expect. b_expect. b_rec. b_expect. finish. }
  intros ? ? _ ? ?. b_expect. finish.
Qed.

Lemma outcome_parse_get (pos : nat) :
  lo0 <= pos -> pos <= last_index -> outcome (pos + 1) (_parse_get tokens rec pos).
Proof.
  intros Hlo Hpos. unfold _parse_get, expect_ident. b_expect. b_rec. b_expect. b_expect.
  finish.
Qed.

Lemma outcome_parse_some (pos : nat) :
  lo0 <= pos -> pos <= last_index -> outcome (pos + 1) (_parse_some tokens rec pos).
Proof. intros Hlo Hpos. unfold _parse_some, expect_ident. b_expect. b_rec. b_expect. finish. Qed.

Lemma outcome_parse_try (pos : nat) :
  lo0 <= pos -> pos <= last_index -> outcome (pos + 1) (_parse_try tokens rec pos).
Proof.
  intros Hlo Hpos. unfold _parse_try, expect_ident. b_expect. b_rec. b_expect. b_expect.
  b_expect. b_rec. b_expect. b_expect. finish.
Qed.

Lemma outcome_parse_error (pos : nat) :
  lo0 <= pos -> pos <= last_index -> outcome (pos + 1) (_parse_error tokens rec pos).
Proof. intros Hlo Hpos. unfold _parse_error, expect_ident. b_expect. b_rec. b_expect. finish. Qed.

Lemma outcome_parse_builtin (pos : nat) :
  lo0 <= pos -> pos < last_index -> outcome (pos + 1) (_parse_builtin tokens rec fuel pos).
Proof. intros Hlo Hpos. unfold _parse_builtin. b_advance. b_args. b_expect. finish. Qed.

Lemma outcome_parse_sexpr (pos : nat) :
  lo0 <= pos + 1 -> pos <= last_index ->
  outcome (pos + 1) (parse_sexpr tokens fl rec fuel pos).
Proof.
  intros Hlo Hpos. unfold parse_sexpr. b_expect. b_peek tk Htk.
  destruct (bool_decide (type tk = IDENT)) eqn:Hid; cbn [negb]; [|finish].
  apply bool_decide_eq_true in Hid.
  assert (pos' < last_index) by (eapply typed_before_last; eauto; discriminate).
  cbv zeta.
  repeat match goal with
         | |- context [if String.eqb ?a ?b then _ else _] => destruct (String.eqb a b)
         | |- context [if str_in ?a ?b then _ else _] => destruct (str_in a b)
         end;
    (eapply outcome_weaken;
    [ | first [ apply outcome_parse_let | apply outcome_parse_if | apply outcome_parse_match
              | apply outcome_parse_lambda | apply outcome_parse_pipe | apply outcome_parse_do
              | apply outcome_parse_call | apply outcome_parse_list | apply outcome_parse_record
              | apply outcome_parse_get | apply outcome_parse_some | apply outcome_parse_try
              | apply outcome_parse_error | apply outcome_parse_op | apply outcome_parse_builtin
              | apply outcome_parse_implicit_call ]; lia ]; lia).
Qed.
End FormOutcomes.

Lemma outcome_parse_expr (fuel : nat) :
  forall pos, pos <= last_index -> last_index < pos + fuel ->
              outcome (pos + 1) (parse_expr tokens fl fuel pos).
Proof.
  induction fuel as [|fuel IH]; intros pos Hpos Hfuel; [lia |].
  cbn [parse_expr].
  b_peek tok Htok.
  destruct (type tok) eqn:Hty; try finish;
    try assert (pos < last_index) by (eapply typed_before_last; eauto; discriminate).
  - apply (outcome_parse_sexpr _ _ (pos + 1)); [intros; apply IH; lia | lia | lia | lia].
  - b_advance. finish.
  - b_advance. destruct (py_int (value tok)) eqn:Hint; [finish |].
    apply py_int_raise in Hint as ->. cbn. right. reflexivity.
  - b_advance. destruct (py_float fl (value tok)) eqn:Hfl; [finish |].
    apply py_float_raise in Hfl as ->. cbn. right. reflexivity.
  - repeat match goal with
           | |- context [if String.eqb ?a ?b then _ else _] => destruct (String.eqb a b)
           end; b_advance; finish.
Qed.

Section DefinitionOutcomes.
Variable fuel : nat.
Hypothesis budget : last_index < fuel.

Ltac b_type :=
  eapply outcome_bind; [apply outcome_parse_type_expr; lia | intros ? ? _ ? ?].
Ltac b_expr :=
  eapply outcome_bind; [apply outcome_parse_expr; lia | intros ? ? _ ? ?].
Ltac b_loop :=
  eapply outcome_bind;
  [apply (outcome_until_rparen _ 0); [| lia | lia | lia] | intros ? ? _ ? ?].

Lemma outcome_parse_type_def (pos : nat) :
  pos <= last_index -> outcome (pos + 1) (parse_type_def tokens fuel pos).
Proof. intros Hpos. unfold parse_type_def. b_expect. b_type. b_expect. finish. Qed.

Lemma outcome_parse_input_decl (pos : nat) :
  pos <= last_index -> outcome (pos + 1) (parse_input_decl tokens fuel pos).
Proof.
  intros Hpos. unfold parse_input_decl, expect_ident. b_expect. b_expect. b_loop.
  { intros p _ Hp. apply outcome_parse_param; lia. }
  b_expect. finish.
Qed.

Lemma outcome_parse_output_decl (pos : nat) :
  pos <= last_index -> outcome (pos + 1) (parse_output_decl tokens fuel pos).
Proof.
  intros Hpos. unfold parse_output_decl, expect_ident. b_expect. b_expect. b_type. b_expect.
  finish.
Qed.

Lemma outcome_parse_effect_decl (pos : nat) :
  pos <= last_index -> outcome (pos + 1) (parse_effect_decl tokens fuel pos).
Proof.
  intros Hpos. unfold parse_effect_decl, expect_ident. b_expect. b_expect. b_loop.
  { intros p _ Hp. b_expect. finish. }
  b_expect. finish.
Qed.

Lemma outcome_parse_contract_decl (pos : nat) :
  pos <= last_index -> outcome (pos + 1) (parse_contract_decl tokens fl fuel pos).
Proof.
  intros Hpos. unfold parse_contract_decl, expect_ident. b_expect. b_expect. b_loop.
  { intros p _ Hp. b_expect.
    eapply outcome_bind; [apply outcome_expect; [discriminate | lia] | intros kind pk _ ? ?].
    eapply (outcome_bind pk).
    - destruct (String.eqb (value kind) "pre"); [b_expr; finish |].
      destruct (String.eqb (value kind) "post"); [b_expr; finish |].
      cbn. left. eauto.
    - intros ? ? _ ? ?. b_expect. finish. }
  b_expect. finish.
Qed.

Lemma outcome_parse_body_decl (pos : nat) :
  pos <= last_index -> outcome (pos + 1) (parse_body_decl tokens fl fuel pos).
Proof.
  intros Hpos. unfold parse_body_decl, expect_ident. b_expect. b_expect. b_expr. b_expect.
  finish.
Qed.

Lemma outcome_parse_graph_def (pos : nat) :
  pos <= last_index -> outcome (pos + 1) (parse_graph_def tokens fl fuel pos).
Proof.
  intros Hpos. unfold parse_graph_def. b_expect.
  eapply outcome_bind; [apply outcome_parse_input_decl; lia | intros ? ? _ ? ?].
  eapply outcome_bind; [apply outcome_parse_output_decl; lia | intros ? ? _ ? ?].
  eapply outcome_bind; [apply outcome_parse_effect_decl; lia | intros ? ? _ ? ?].
  eapply outcome_bind; [apply outcome_at_lparen; lia |].
  intros lp ? Hlp _ _. apply at_lparen_ok in Hlp as ->.
  eapply outcome_bind; [apply outcome_lookahead; lia |].
  intros la ? Hla _ _. apply lookahead_ok in Hla as ->.
  match goal with |- outcome _ ((_ ≫= _) ?p) => eapply (outcome_bind p) end.
  - destruct (lp && la).
    + eapply outcome_bind; [apply outcome_parse_contract_decl; lia | intros ? ? _ ? ?].
      finish.
    + finish.
  - intros ? ? _ ? ?.
    eapply outcome_bind; [apply outcome_parse_body_decl; lia | intros ? ? _ ? ?].
    b_expect. finish.
Qed.

(** [parse_definition] takes the token after the parenthesis without a
    check of its type: at the end of input this is the end-of-input
    token, whose empty text is neither keyword. *)
Lemma outcome_parse_definition (pos : nat) :
  pos <= last_index -> outcome (pos + 1) (parse_definition tokens fl fuel pos).
Proof.
  intros Hpos. unfold parse_definition. b_expect.
  unfold mbind, P_bind, advance.
  destruct (lookup_in_range pos' ltac:(lia)) as [kw Hkw]. rewrite Hkw.
  destruct (decide (pos' < last_index)) as [Hlt|Hge].
  - destruct (String.eqb (value kw) "type").
    { eapply outcome_weaken; [|apply outcome_parse_type_def; lia]. lia. }
    destruct (String.eqb (value kw) "graph").
    { eapply outcome_weaken; [|apply outcome_parse_graph_def; lia]. lia. }
    apply outcome_error.
  - assert (pos' = last_index) as -> by lia.
    destruct (stream_eof _ Hkw) as [_ ->]. cbn. left. eauto.
Qed.

Lemma outcome_parse_program :
  outcome 1 (parse_program tokens fl fuel 0).
Proof.
  unfold parse_program, expect_ident. b_expect. b_expect. b_loop.
  { intros p _ Hp. apply outcome_parse_definition; lia. }
  b_expect. finish.
Qed.
End DefinitionOutcomes.

End Stream.

(** The lexer's own failure. *)
Definition lex_error (e : PyError) : Prop := exists msg line col, e = LexError msg line col.

(** A token stream as [tokenize] returns it: tokens other than end of
    input, then one end-of-input token with the empty text. *)
Definition well_terminated (tokens : list Token) : Prop :=
  exists body line col,
    tokens = body ++ [mkToken EOF "" line col] /\ Forall LexerFacts.not_eof body.

Lemma tokenize_loop_shape (fuel : nat) :
  forall s line col tokens r,
    Forall LexerFacts.not_eof tokens ->
    tokenize_loop fuel s line col tokens = Some r ->
    match r with
    | Ok out => well_terminated out
    | Raise e => lex_error e
    end.
Proof.
  induction fuel as [|fuel IH]; intros s line col tokens r Htoks H; [discriminate |].
  assert (Hsnoc : forall tok, LexerFacts.not_eof tok ->
                              Forall LexerFacts.not_eof (tokens ++ [tok])).
  { intros tok Htok. apply Forall_app. split; [exact Htoks |].
    constructor; [exact Htok | constructor]. }
  destruct s as [|ch s']; cbn [tokenize_loop] in H.
  { injection H as <-. exists tokens, line, col. auto. }
  destruct (existsb _ _); [eapply IH; eassumption |].
  destruct (Ascii.eqb ch newline_char); [eapply IH; eassumption |].
  destruct (Ascii.eqb ch ";"); [eapply IH; eassumption |].
  destruct (Ascii.eqb ch "(");
    [eapply IH; [|eassumption]; apply Hsnoc; discriminate |].
  destruct (Ascii.eqb ch ")");
    [eapply IH; [|eassumption]; apply Hsnoc; discriminate |].
  destruct (Ascii.eqb ch quote_char).
  { destruct (scan_string s' line (col + 1) "") as [[[rest l] c] b].
    destruct rest as [|c0 rest'].
    - injection H as <-. unfold lex_error. eauto.
    - eapply IH; [|eassumption]. apply Hsnoc. discriminate. }
  destruct (_is_atom_char ch).
  - destruct (scan_atom (String ch s') col "") as [[word rest] c].
    eapply IH; [|eassumption]. apply Hsnoc. apply LexerFacts.classify_atom_not_eof.
  - injection H as <-. unfold lex_error. eauto.
Qed.

(** X9.  [tokenize] returns on every source text.  It either raises a
    LexError and no other exception, or returns a token list that ends
    with one end-of-input token of empty text and holds no other
    end-of-input token. *)
Theorem tokenize_total (source : string) :
  exists r,
    tokenize source = Some r
    /\ match r with
       | Ok tokens => well_terminated tokens
       | Raise e => lex_error e
       end.
Proof.
  destruct (LexerFacts.tokenize_terminates source) as [r Hr].
  exists r. split; [exact Hr |].
  eapply tokenize_loop_shape; [|exact Hr]. constructor.
Qed.

(** A source text whose only expression is the superscript digit two:
    [isdigit] accepts it, [int] does not. *)
Definition superscript_source : string :=
  "(program (graph f (input) (output Int) (effect pure) (body "
    +:+ str1 (chr 178) +:+ ")))".

(** X10.  [parse] returns on every source text: the recursion of the
    parser is bounded by the number of tokens.  Its result is a program
    or one of three exceptions: the lexer's LexError, a ParseError, or
    the ValueError of a numeric literal that [int] or [float] rejects.
    In particular the parser never reads beyond the end-of-input token
    (no IndexError).  The ValueError does occur, on a superscript
    digit. *)
Theorem parse_total (fl : string -> PyFloat) (source : string) :
  (exists r,
      parse fl source = Some r
      /\ match r with
         | Ok _ => True
         | Raise e => lex_error e \/ syntax_error e
         end)
  /\ parse fl superscript_source = Some (Raise ValueError).
Proof.
  split; [|reflexivity].
  unfold parse.
  destruct (tokenize_total source) as (r & -> & Hr).
  destruct r as [tokens|e]; [|exists (Raise e); auto].
  destruct Hr as (body & l & c & -> & Hbody).
  set (tokens := body ++ [mkToken EOF "" l c]).
  assert (Hlen : length tokens = length body + 1).
  { unfold tokens. rewrite length_app. reflexivity. }
  assert (Heof : forall tok, tokens !! length body = Some tok ->
                             type tok = EOF /\ value tok = "").
  { intros tok Hlook. unfold tokens in Hlook.
    rewrite lookup_app_r in Hlook by lia.
    replace (length body - length body) with 0 in Hlook by lia.
    cbn in Hlook. injection Hlook as <-. auto. }
  pose proof (outcome_parse_program tokens fl (length body) Hlen Heof
                (length tokens) ltac:(lia)) as Hout.
  destruct (parse_program tokens fl (length tokens) 0) as [[[program pos]|e]|];
    cbn in Hout; [| exists (Raise e); auto | contradiction].
  unfold at_eof, mbind, P_bind, peek.
  destruct (lookup_lt_is_Some_2 tokens pos ltac:(lia)) as [tok ->].
  cbn. destruct (bool_decide (type tok = EOF)).
  - exists (Ok program). auto.
  - eexists. split; [reflexivity |]. right. left. eauto.
Qed.

End ParserExtras.

Module ChainExtras.
Import Ast Parser.

(** A [let] as [_parse_let] builds it when the source gives no body. *)
Definition is_bodyless_let (e : Expr) : bool :=
  match e with
  | LetExpr _ _ (LitExpr VNone type_hint) => String.eqb type_hint "unit"
  | _ => false
  end.

Lemma chain_lets_step (expr e2 : Expr) (rest : list Expr) :
  _chain_lets (expr :: e2 :: rest)
  = match expr with
    | LetExpr name val (LitExpr VNone type_hint) =>
        if String.eqb type_hint "unit" then
          [ LetExpr name val
              (let remaining := _chain_lets (e2 :: rest) in
               match remaining with [b] => b | _ => DoExpr remaining end) ]
        else expr :: _chain_lets (e2 :: rest)
    | _ => expr :: _chain_lets (e2 :: rest)
    end.
Proof. destruct expr; reflexivity. Qed.

Lemma chain_lets_cons (expr : Expr) (rest : list Expr) :
  _chain_lets (expr :: rest)
  = if is_bodyless_let expr && negb (bool_decide (rest = [])) then
      match expr with
      | LetExpr name val _ =>
          [ LetExpr name val
              (let remaining := _chain_lets rest in
               match remaining with [b] => b | _ => DoExpr remaining end) ]
      | _ => expr :: _chain_lets rest
      end
    else expr :: _chain_lets rest.
Proof.
  destruct rest as [|e2 rest].
  - rewrite andb_false_r.
    destruct expr; try reflexivity; destruct expr2; try reflexivity; destruct value;
      reflexivity.
  - rewrite andb_true_r, chain_lets_step. unfold is_bodyless_let.
    destruct expr; try reflexivity; destruct expr2; try reflexivity; destruct value;
      try reflexivity; destruct (String.eqb type_hint "unit"); reflexivity.
Qed.




End ChainExtras.

(** * Properties of the type checker *)

Module TypeInduction.
Import Ast.

Section Principle.
Variable P : TypeExpr -> Prop.
Hypothesis HPrim : forall name, P (PrimitiveType name).
Hypothesis HList : forall elem, P elem -> P (ListType elem).
Hypothesis HOption : forall elem, P elem -> P (OptionType elem).
Hypothesis HTuple : forall elems, Forall P elems -> P (TupleType elems).
Hypothesis HRecord : forall fields, Forall (fun f => P (snd f)) fields -> P (RecordType fields).
Hypothesis HFunction : forall param ret, P param -> P ret -> P (FunctionType param ret).
Hypothesis HEnum :
  forall variants, Forall (fun v => Forall P (snd v)) variants -> P (EnumType variants).
Hypothesis HNamed : forall name, P (NamedType name).

Lemma TypeExpr_nested_ind : forall t, P t.
Proof.
  fix IH 1. intros [name|elem|elem|elems|fields|param ret|variants|name].
  - apply HPrim.
  - apply HList, IH.
  - apply HOption, IH.
  - apply HTuple. induction elems as [|e es IHes]; constructor; [apply IH | exact IHes].
  - apply HRecord. induction fields as [|[f ft] fs IHfs]; constructor; [apply IH | exact IHfs].
  - apply HFunction; apply IH.
  - apply HEnum. induction variants as [|[v vts] vs IHvs]; constructor; [|exact IHvs].
    cbn. induction vts as [|vt vts IHvts]; constructor; [apply IH | exact IHvts].
  - apply HNamed.
Qed.
End Principle.
End TypeInduction.

Module TypeCheckExtras.
Import Ast TypeChecker TypeCheck.

(** The pairwise comparison the tuple case of [_types_equal] makes. *)
Fixpoint all_zip (xs ys : list TypeExpr) : bool :=
  match xs, ys with
  | x :: xs', y :: ys' => _types_equal x y && all_zip xs' ys'
  | _, _ => true
  end.

Lemma types_equal_tuple (xs ys : list TypeExpr) :
  _types_equal (TupleType xs) (TupleType ys)
  = Nat.eqb (length xs) (length ys) && all_zip xs ys.
Proof. reflexivity. Qed.

Lemma types_equal_refl (a : TypeExpr) : _types_equal a a = true.
Proof.
  revert a. apply TypeInduction.TypeExpr_nested_ind; try reflexivity.
  - intros name. apply String.eqb_refl.
  - intros elem IH. exact IH.
  - intros elem IH. exact IH.
  - intros elems IH. rewrite types_equal_tuple, Nat.eqb_refl. cbn [andb].
    induction IH as [|e es He _ IHes]; [reflexivity |]. cbn [all_zip]. rewrite He. exact IHes.
  - intros param ret IHp IHr. cbn. rewrite IHp, IHr. reflexivity.
  - intros name. apply String.eqb_refl.
Qed.

Lemma types_equal_sym (a : TypeExpr) : forall b, _types_equal a b = _types_equal b a.
Proof.
  revert a.
  apply (TypeInduction.TypeExpr_nested_ind
           (fun a => forall b, _types_equal a b = _types_equal b a)).
  - intros name [] ; try reflexivity. apply String.eqb_sym.
  - intros elem IH []; try reflexivity. apply IH.
  - intros elem IH []; try reflexivity. apply IH.
  - intros elems IH [| | |elems'| | | |]; try reflexivity.
    rewrite !types_equal_tuple, (Nat.eqb_sym (length elems)). f_equal.
    revert elems'. induction IH as [|e es He _ IHes]; intros [|e' es']; try reflexivity.
    cbn [all_zip]. rewrite He, IHes. reflexivity.
  - intros fields _ []; reflexivity.
  - intros param ret IHp IHr []; try reflexivity. cbn. rewrite IHp, IHr. reflexivity.
  - intros variants _ []; reflexivity.
  - intros name []; try reflexivity. apply String.eqb_sym.
Qed.

Lemma types_equal_trans (a : TypeExpr) :
  forall b c, _types_equal a b = true -> _types_equal b c = true -> _types_equal a c = true.
Proof.
  revert a.
  apply (TypeInduction.TypeExpr_nested_ind
           (fun a => forall b c, _types_equal a b = true -> _types_equal b c = true ->
                                 _types_equal a c = true)).
  - intros name [] []; try discriminate. cbn. rewrite !String.eqb_eq. congruence.
  - intros elem IH [] []; try discriminate. cbn. apply IH.
  - intros elem IH [] []; try discriminate. cbn. apply IH.
  - intros elems IH [| | |ys| | | |] [| | |zs| | | |]; try discriminate.
    rewrite !types_equal_tuple, !andb_true_iff, !Nat.eqb_eq.
    intros [Hl1 H1] [Hl2 H2]. split; [congruence |].
    revert ys zs Hl1 Hl2 H1 H2.
    induction IH as [|e es He _ IHes]; intros [|y ys] [|z zs] Hl1 Hl2 H1 H2;
      try reflexivity; try discriminate.
    cbn [all_zip] in *. apply andb_true_iff in H1 as [H1 H1'], H2 as [H2 H2'].
    rewrite (He _ _ H1 H2). cbn [andb length] in *.
    apply (IHes ys zs); [lia | lia | assumption | assumption].
  - intros fields _ [] []; try discriminate. reflexivity.
  - intros param ret IHp IHr [] []; try discriminate. cbn.
    rewrite !andb_true_iff. intros [H1 H2] [H3 H4]. eauto.
  - intros variants _ [] []; try discriminate. reflexivity.
  - intros name [] []; try discriminate. cbn. rewrite !String.eqb_eq. congruence.
Qed.

(** X12.  [_types_equal] is an equivalence relation on type
    expressions: reflexive, symmetric and transitive.  It is lenient
    on records and enumerations: any two record types are equal, and
    any two enumeration types, whatever their fields and variants; a
    record type is not equal to an enumeration type. *)
Theorem types_equal_equivalence :
  (forall a, _types_equal a a = true)
  /\ (forall a b, _types_equal a b = _types_equal b a)
  /\ (forall a b c, _types_equal a b = true -> _types_equal b c = true ->
                    _types_equal a c = true)
  /\ (forall fields fields', _types_equal (RecordType fields) (RecordType fields') = true)
  /\ (forall variants variants',
        _types_equal (EnumType variants) (EnumType variants') = true)
  /\ (forall fields variants, _types_equal (RecordType fields) (EnumType variants) = false).
Proof.
  repeat split.
  - exact types_equal_refl.
  - exact types_equal_sym.
  - exact types_equal_trans.
Qed.

Lemma resolve_primitive type_defs (name : string) :
  _resolve type_defs (PrimitiveType name) = PrimitiveType name.
Proof. reflexivity. Qed.

Lemma compatible_refl type_defs (t : TypeExpr) : _compatible type_defs t t = true.
Proof.
  unfold _compatible. destruct (_resolve type_defs t) eqn:Hr; try apply types_equal_refl.
  destruct (_ && _); [reflexivity | apply types_equal_refl].
Qed.

(** X13.  [_compatible] is reflexive.  Between two primitive types it
    holds exactly when they have the same name or the actual type is
    Int and the expected one Float, so it is not symmetric.  The
    widening from Int to Float is not applied below a type
    constructor: two list types are compatible only when their element
    types are equal. *)
Theorem compatible_widening (type_defs : list (string * TypeExpr)) :
  (forall t, _compatible type_defs t t = true)
  /\ (forall a e,
        _compatible type_defs (PrimitiveType a) (PrimitiveType e) = true
        <-> a = e \/ (a = "Int" /\ e = "Float"))
  /\ _compatible type_defs INT FLOAT = true
  /\ _compatible type_defs FLOAT INT = false
  /\ (forall a e,
        _compatible type_defs (ListType a) (ListType e) = _types_equal a e)
  /\ _compatible type_defs (ListType INT) (ListType FLOAT) = false.
Proof.
  split; [apply compatible_refl |].
  split; [|repeat split].
  intros a e. unfold _compatible. rewrite !resolve_primitive.
  destruct (String.eqb a "Int" && String.eqb e "Float") eqn:Hw.
  - apply andb_true_iff in Hw as [Ha He]. apply String.eqb_eq in Ha, He.
    split; auto.
  - cbn [_types_equal]. rewrite String.eqb_eq. split; [auto |].
    intros [H|[Ha He]]; [exact H |]. subst. discriminate.
Qed.

Lemma lookup_bind_child (name : string) (ty : TypeExpr) (env : TypeEnv) :
  lookup name (bind name ty (child env)) = Some ty.
Proof. cbn. rewrite lookup_insert_eq. reflexivity. Qed.

Lemma lookup_child (name : string) (env : TypeEnv) :
  lookup name (child env) = lookup name env.
Proof. cbn. rewrite lookup_empty. reflexivity. Qed.

(** X14.  A variable bound by [let] has the type inferred for the
    bound value.  When that type is unknown the [let] binds nothing:
    the name then has the type it has in the enclosing scope, and when
    it has none there the checker reports it as undefined (the name
    [result] excepted). *)
Theorem let_bound_variable (type_defs : list (string * TypeExpr))
    (graph_sigs : list (string * (list (string * TypeExpr) * TypeExpr)))
    (name : string) (value : Expr) (env : TypeEnv)
    (t : option TypeExpr) (errors : list string) :
  _infer type_defs graph_sigs value env = (t, errors) ->
  _infer type_defs graph_sigs (LetExpr name value (IdentExpr name)) env
  = match t with
    | Some ty => (Some ty, errors)
    | None =>
        match lookup name env with
        | Some outer => (Some outer, errors)
        | None =>
            (None,
             errors ++ (if String.eqb name "result" then []
                        else [ "Undefined variable: '" +:+ name +:+ "'" ]))
        end
    end.
Proof.
  intros Hvalue. cbn [_infer]. rewrite Hvalue. unfold mbind, Diag_bind.
  destruct t as [ty|].
  - rewrite lookup_bind_child. cbn. rewrite !app_nil_r. reflexivity.
  - rewrite lookup_child. destruct (lookup name env) as [outer|].
    + cbn. rewrite !app_nil_r. reflexivity.
    + destruct (String.eqb name "result"); cbn; rewrite ?app_nil_r; reflexivity.
Qed.

Lemma let_bound_variable_witness :
  _infer [] [] (LetExpr "y" (LambdaExpr [] NoneExpr) (IdentExpr "y")) new_env
  = (None, [ "Undefined variable: 'y'" ]).
Proof.
  exact (let_bound_variable [] [] "y" (LambdaExpr [] NoneExpr) new_env None [] eq_refl).
Defined.

(** The scope in which [_check_graph] infers the body: the inputs,
    bound in order. *)
Definition graph_env (graph : Graph) : TypeEnv :=
  fold_left (fun env '(name, type_) => bind name type_ env) (g_inputs graph) new_env.

Lemma for_each_nil {A} (f : A -> Diag unit) (l : list A) :
  snd (for_each f l) = [] <-> forall a, a ∈ l -> snd (f a) = [].
Proof.
  induction l as [|a l IH]; cbn [for_each].
  - split; [intros _ a Ha; inversion Ha | reflexivity].
  - unfold mbind, Diag_bind. destruct (f a) as [[] e1] eqn:Hfa.
    destruct (for_each f l) as [[] e2]. cbn [snd] in *.
    split.
    + intros H. apply app_eq_nil in H as [-> ->].
      intros b Hb. apply elem_of_cons in Hb as [->|Hb]; [rewrite Hfa; reflexivity |].
      apply IH; [reflexivity | exact Hb].
    + intros H. rewrite (proj2 IH) by (intros b Hb; apply H; right; exact Hb).
      specialize (H a ltac:(left)). rewrite Hfa in H. cbn in H. rewrite H. reflexivity.
Qed.

(** X15.  [check_types] accepts a program exactly when, for every
    graph, the inference of the body in the scope of the inputs
    appends no diagnostic and the inferred type, when there is one, is
    compatible with the declared output.  A body whose type is unknown
    is accepted against any declared output. *)
Theorem check_types_accepts (program : Program) :
  check_types program = []
  <-> forall g, g ∈ graphs program ->
        let inferred := _infer (register_type_defs program) (register_graph_sigs program)
                          (g_body g) (graph_env g) in
        snd inferred = []
        /\ (forall ty, fst inferred = Some ty ->
                       _compatible (register_type_defs program) ty (g_output g) = true).
Proof.
  unfold check_types. rewrite for_each_nil.
  apply forall_proper. intros g.
  apply forall_proper. intros _.
  unfold _check_graph. fold (graph_env g).
  unfold mbind, Diag_bind.
  destruct (_infer _ _ (g_body g) (graph_env g)) as [[ty|] errs]; cbn [fst snd].
  - destruct (_compatible _ ty (g_output g)) eqn:Hc; cbn.
    + rewrite app_nil_r. split; [intros ->; split; [reflexivity |] | intros [H _]; exact H].
      intros ty' H. injection H as <-. exact Hc.
    + split.
      * intros H. apply app_eq_nil in H as [_ H]. discriminate.
      * intros [_ H]. specialize (H ty eq_refl). congruence.
  - cbn. rewrite app_nil_r. split; [intros ->; split; [reflexivity | discriminate] |].
    intros [H _]. exact H.
Qed.

End TypeCheckExtras.

(** * Properties of the emitter of whole programs *)

Module ProgramEmitterExtras.
Import Ast Emitter ProgramEmitter.

Definition is_do (e : Expr) : bool :=
  match e with DoExpr _ => true | _ => false end.

Lemma flatten_no_do (e : Expr) :
  Forall (fun s => is_do s = false) (_flatten_to_statements e).
Proof.
  revert e.
  apply (ExprInduction.Expr_nested_ind
           (fun e => Forall (fun s => is_do s = false) (_flatten_to_statements e)));
    intros; try (repeat constructor; fail).
  - (* let *) cbn [_flatten_to_statements]. constructor; [reflexivity | assumption].
  - (* do *) cbn [_flatten_to_statements].
    match goal with H : Forall _ _ |- _ => induction H as [|e es He _ IHes] end;
      [constructor |].
    cbn [flat_map]. apply Forall_app. split; assumption.
Qed.

Lemma last_item_nil {A} : @last_item A [] = Fail (ExprError IndexError).
Proof. reflexivity. Qed.

(** X16.  [_flatten_to_statements] never yields a [do] block as a
    statement, and yields at least one statement for every expression
    that is no [do] block.  When it yields none (the empty [do], or
    [do] blocks that hold nothing else) the emitter cannot compile the
    graph body: [_emit_body] and [_emit_body_with_postconditions] raise
    IndexError. *)
Theorem flatten_statements (body : Expr) :
  Forall (fun s => is_do s = false) (_flatten_to_statements body)
  /\ (is_do body = false -> _flatten_to_statements body <> [])
  /\ (_flatten_to_statements body = [] ->
      forall indent posts,
        _emit_body indent body = Fail (ExprError IndexError)
        /\ _emit_body_with_postconditions indent body posts = Fail (ExprError IndexError)).
Proof.
  split; [apply flatten_no_do |]. split.
  - destruct body; try discriminate; intros _; discriminate.
  - intros Hnil indent posts.
    unfold _emit_body, _emit_body_with_postconditions. rewrite Hnil. split; reflexivity.
Qed.

Lemma flatten_statements_witness :
  _emit_body 1 (DoExpr [ DoExpr []; DoExpr [] ]) = Fail (ExprError IndexError).
Proof.
  exact (proj1 (proj2 (proj2 (flatten_statements (DoExpr [ DoExpr []; DoExpr [] ])))
                  eq_refl 1 [])).
Defined.

Lemma but_last_cons {A} (a : A) (l : list A) :
  l <> [] -> but_last (a :: l) = a :: but_last l.
Proof. destruct l; [contradiction | reflexivity]. Qed.

Lemma last_item_cons {A} (a : A) (l : list A) :
  l <> [] -> last_item (a :: l) = last_item l.
Proof. destruct l; [contradiction | reflexivity]. Qed.

Lemma but_last_app {A} (l1 l2 : list A) :
  l2 <> [] -> but_last (l1 ++ l2) = l1 ++ but_last l2.
Proof.
  intros H. induction l1 as [|a l1 IH]; [reflexivity |].
  cbn [app]. rewrite but_last_cons, IH; [reflexivity |].
  destruct l1; [exact H | discriminate].
Qed.

Lemma last_item_app {A} (l1 l2 : list A) :
  l2 <> [] -> last_item (l1 ++ l2) = last_item l2.
Proof.
  intros H. induction l1 as [|a l1 IH]; [reflexivity |].
  cbn [app]. rewrite last_item_cons; [exact IH |].
  destruct l1; [exact H | discriminate].
Qed.

Lemma map_emit_app {A B} (f : A -> Emit B) (l1 l2 : list A) :
  map_emit f (l1 ++ l2)
  = (bs1 ← map_emit f l1; bs2 ← map_emit f l2; Done (bs1 ++ bs2)).
Proof.
  induction l1 as [|a l1 IH]; cbn [app map_emit].
  - cbn. destruct (map_emit f l2); reflexivity.
  - destruct (f a) as [b|e]; [|reflexivity]. cbn [mbind Emit_bind].
    rewrite IH. destruct (map_emit f l1) as [bs1|e]; [|reflexivity]. cbn [mbind Emit_bind].
    destruct (map_emit f l2); reflexivity.
Qed.

(** X17.  A graph body is compiled statement by statement.  A [let]
    whose body yields statements becomes the assignment of the compiled
    value to the sanitized name, followed by the code of its body; a
    [do] block whose tail yields statements is the statements of its
    first expression followed by the code of the rest.  Exceptions
    escape in the same order. *)
Theorem emit_body_sequence (indent : nat) :
  (forall name value body,
      _flatten_to_statements body <> [] ->
      _emit_body indent (LetExpr name value body)
      = (v ← lift (_expr value);
         rest ← _emit_body indent body;
         Done (_line indent (_sanitize_name name +:+ " = " +:+ v) :: rest)))
  /\ (forall e es,
        _flatten_to_statements (DoExpr es) <> [] ->
        _emit_body indent (DoExpr (e :: es))
        = (ls ← map_emit (_emit_flat_statement indent) (_flatten_to_statements e);
           rest ← _emit_body indent (DoExpr es);
           Done (ls ++ rest))).
Proof.
  split.
  - intros name value body Hne. unfold _emit_body.
    cbn [_flatten_to_statements].
    rewrite but_last_cons, last_item_cons by exact Hne.
    cbn [map_emit _emit_flat_statement].
    destruct (lift (_expr value)) as [v|err]; [|reflexivity]. cbn [mbind Emit_bind].
    destruct (map_emit _ (but_last _)) as [ls|err]; [|reflexivity]. cbn [mbind Emit_bind].
    destruct (last_item _) as [s|err]; [|reflexivity]. cbn [mbind Emit_bind].
    destruct (lift (_expr s)) as [text|err]; reflexivity.
  - intros e es Hne. unfold _emit_body.
    change (_flatten_to_statements (DoExpr (e :: es)))
      with (_flatten_to_statements e ++ _flatten_to_statements (DoExpr es)).
    rewrite but_last_app, last_item_app by exact Hne.
    rewrite map_emit_app.
    destruct (map_emit _ (_flatten_to_statements e)) as [ls1|err]; [|reflexivity].
    cbn [mbind Emit_bind].
    destruct (map_emit _ (but_last _)) as [ls|err]; [|reflexivity]. cbn [mbind Emit_bind].
    destruct (last_item _) as [s|err]; [|reflexivity]. cbn [mbind Emit_bind].
    destruct (lift (_expr s)) as [text|err]; [|reflexivity]. cbn [mbind Emit_bind].
    rewrite app_assoc. reflexivity.
Qed.

Lemma emit_body_sequence_witness :
  _emit_body 1 (LetExpr "a" (LitExpr (VInt 1) "int") (IdentExpr "a"))
  = Done [ "    a = 1"; "    return a" ].
Proof.
  exact (proj1 (emit_body_sequence 1) "a" (LitExpr (VInt 1) "int") (IdentExpr "a")
           ltac:(discriminate)).
Defined.

End ProgramEmitterExtras.

(** * From source text to compiled text *)

Module PipelineExtras.
Import Ast Lexer Parser Emitter ProgramEmitter.

(** Every primitive type of [t] is one of the names of
    [PRIMITIVE_TYPES]. *)
Fixpoint known (t : TypeExpr) : bool :=
  match t with
  | PrimitiveType name => str_in name PRIMITIVE_TYPES
  | ListType elem => known elem
  | OptionType elem => known elem
  | TupleType elems => forallb known elems
  | RecordType fields => forallb (fun f => known (snd f)) fields
  | FunctionType param ret => known param && known ret
  | EnumType variants => forallb (fun v => forallb known (snd v)) variants
  | NamedType _ => true
  end.

(** Every literal of [e] that is marked as a string holds a string. *)
Fixpoint lits_good (e : Expr) : bool :=
  match e with
  | LitExpr value type_hint =>
      negb (String.eqb type_hint "string")
      || match value with VStr _ => true | _ => false end
  | IdentExpr _ => true
  | LetExpr _ value body => lits_good value && lits_good body
  | IfExpr cond then_ else_ => lits_good cond && lits_good then_ && lits_good else_
  | MatchExpr target arms =>
      lits_good target
      && forallb (fun arm => match arm with mkMatchArm _ body => lits_good body end) arms
  | LambdaExpr _ body => lits_good body
  | PipeExpr value steps => lits_good value && forallb lits_good steps
  | DoExpr exprs => forallb lits_good exprs
  | OpExpr _ args => forallb lits_good args
  | CallExpr _ args => forallb lits_good args
  | ListExpr elems => forallb lits_good elems
  | RecordExpr _ fields => forallb (fun f => lits_good (snd f)) fields
  | GetExpr obj _ => lits_good obj
  | SetExpr obj _ value => lits_good obj && lits_good value
  | BuiltinExpr _ args => forallb lits_good args
  | SomeExpr value => lits_good value
  | NoneExpr => true
  | TryExpr body _ catch_body => lits_good body && lits_good catch_body
  | ErrorExpr message => lits_good message
  end.

Definition contract_good (c : Contract) : bool :=
  forallb lits_good (preconditions c) && forallb lits_good (postconditions c).

Definition graph_good (g : Graph) : bool :=
  forallb (fun inp => known (snd inp)) (g_inputs g)
  && known (g_output g)
  && match g_contract g with Some c => contract_good c | None => true end
  && lits_good (g_body g).

Definition definition_good (d : Definition_) : bool :=
  match d with
  | DefType td => known (td_type_expr td)
  | DefGraph g => graph_good g
  end.

(** ** What the parser returns *)

(** Whatever [m] returns satisfies [Q]. *)
Definition returns {A} (m : P A) (Q : A -> Prop) : Prop :=
  forall pos a pos', m pos = Some (Ok (a, pos')) -> Q a.

Lemma returns_bind {A B} (m : P A) (k : A -> P B) (Q1 : A -> Prop) (Q : B -> Prop) :
  returns m Q1 -> (forall a, Q1 a -> returns (k a) Q) -> returns (m ≫= k) Q.
Proof.
  intros Hm Hk pos b pos'. unfold mbind, P_bind.
  destruct (m pos) as [[[a p]|e]|] eqn:Hmp; try discriminate.
  apply (Hk a (Hm _ _ _ Hmp)).
Qed.

Lemma returns_any {A} (m : P A) : returns m (fun _ => True).
Proof. intros pos a pos' _. exact I. Qed.

Lemma returns_pure {A} (a : A) (Q : A -> Prop) : Q a -> returns (pure a) Q.
Proof. intros H pos b pos' Heq. injection Heq as <- _. exact H. Qed.

Lemma returns_raise {A} (e : PyError) (Q : A -> Prop) : returns (raise e) Q.
Proof. intros pos a pos'. discriminate. Qed.

Lemma returns_error_at {A} (msg : string) (tok : Token) (Q : A -> Prop) :
  returns (parse_error_at msg tok) Q.
Proof. intros pos a pos'. discriminate. Qed.

Lemma returns_out_of_fuel {A} (Q : A -> Prop) : returns (@out_of_fuel A) Q.
Proof. intros pos a pos'. discriminate. Qed.

Lemma returns_until_rparen {A} tokens (p : P A) (Q : A -> Prop) (fuel : nat) :
  returns p Q -> returns (until_rparen tokens fuel p) (Forall Q).
Proof.
  intros Hp. induction fuel as [|fuel IH]; cbn [until_rparen];
    [apply returns_out_of_fuel |].
  eapply returns_bind; [apply returns_any |]. intros stop _.
  destruct stop; [apply returns_pure; constructor |].
  eapply returns_bind; [exact Hp |]. intros x Hx.
  eapply returns_bind; [exact IH |]. intros xs Hxs.
  apply returns_pure. constructor; assumption.
Qed.

Ltac skip := eapply returns_bind; [apply returns_any | intros ? _].
Ltac no_result :=
  first [apply returns_error_at | apply returns_raise | apply returns_out_of_fuel].

Lemma forallb_Forall {A} (f : A -> bool) (l : list A) :
  Forall (fun a => f a = true) l -> forallb f l = true.
Proof. induction 1 as [|a l Ha _ IH]; cbn; [reflexivity |]. rewrite Ha, IH. reflexivity. Qed.

Lemma Forall_forallb {A} (f : A -> bool) (l : list A) :
  forallb f l = true -> Forall (fun a => f a = true) l.
Proof.
  induction l as [|a l IH]; cbn; [constructor |].
  intros H. apply andb_true_iff in H as [Ha Hl]. constructor; auto.
Qed.

Section Tokens.
Variable tokens : list Token.
Variable fl : string -> PyFloat.

Lemma returns_parse_type_expr (fuel : nat) :
  returns (parse_type_expr tokens fuel) (fun t => known t = true).
Proof.
  induction fuel as [|fuel IH]; cbn [parse_type_expr]; [apply returns_out_of_fuel |].
  eapply returns_bind; [apply returns_any |]. intros tok _.
  destruct (bool_decide (type tok = IDENT)).
  { destruct (str_in (value tok) PRIMITIVE_TYPES) eqn:Hprim; skip; apply returns_pure;
      [exact Hprim | reflexivity]. }
  destruct (bool_decide (type tok = LPAREN)); [|no_result].
  skip. eapply returns_bind; [apply returns_any |]. intros kw _.
  destruct (String.eqb (value kw) "List").
  { skip. eapply returns_bind; [exact IH |]. intros elem He. skip.
    apply returns_pure. exact He. }
  destruct (String.eqb (value kw) "Option").
  { skip. eapply returns_bind; [exact IH |]. intros elem He. skip.
    apply returns_pure. exact He. }
  destruct (String.eqb (value kw) "Tuple").
  { skip. eapply returns_bind; [apply returns_until_rparen; exact IH |].
    intros elems He. skip. apply returns_pure. cbn. apply forallb_Forall. exact He. }
  destruct (String.eqb (value kw) "Record").
  { skip.
    eapply returns_bind;
      [apply (returns_until_rparen _ _ (fun f => known (snd f) = true)) |].
    - skip. skip. eapply returns_bind; [exact IH |]. intros ftype Hf. skip.
      apply returns_pure. exact Hf.
    - intros fields Hf. skip. apply returns_pure. cbn. apply forallb_Forall. exact Hf. }
  destruct (String.eqb (value kw) "->").
  { skip. eapply returns_bind; [exact IH |]. intros param Hp.
    eapply returns_bind; [exact IH |]. intros ret Hr. skip.
    apply returns_pure. cbn. rewrite Hp, Hr. reflexivity. }
  destruct (String.eqb (value kw) "Enum"); [|no_result].
  skip.
  eapply returns_bind;
    [apply (returns_until_rparen _ _ (fun v => forallb known (snd v) = true)) |].
  - skip. skip. eapply returns_bind; [apply returns_until_rparen; exact IH |].
    intros vtypes Hv. skip. apply returns_pure. cbn. apply forallb_Forall. exact Hv.
  - intros variants Hv. skip. apply returns_pure. cbn. apply forallb_Forall. exact Hv.
Qed.

Lemma returns_parse_param (fuel : nat) :
  returns (parse_param tokens fuel) (fun p => known (snd p) = true).
Proof.
  unfold parse_param. skip. skip.
  eapply returns_bind; [apply returns_parse_type_expr |]. intros t Ht. skip.
  apply returns_pure. exact Ht.
Qed.

Lemma chain_lets_good (exprs : list Expr) :
  forallb lits_good exprs = true -> forallb lits_good (_chain_lets exprs) = true.
Proof.
  induction exprs as [|expr rest IH]; [reflexivity |].
  intros H. cbn [forallb] in H. apply andb_true_iff in H as [He Hrest].
  specialize (IH Hrest). rewrite ChainExtras.chain_lets_cons.
  destruct (ChainExtras.is_bodyless_let expr && negb (bool_decide (rest = []))).
  - destruct expr; try (cbn [forallb]; rewrite He, IH; reflexivity).
    cbn in He. apply andb_true_iff in He as [Hv _].
    cbn [forallb lits_good]. rewrite Hv. cbn.
    destruct (_chain_lets rest) as [|b [|b' bs]]; cbn in IH |- *;
      rewrite ?andb_true_r in *; try exact IH; reflexivity.
  - cbn [forallb]. rewrite He, IH. reflexivity.
Qed.

Section Forms.
Variable rec : P Expr.
Variable fuel : nat.
Hypothesis rec_good : returns rec (fun e => lits_good e = true).

Ltac b_rec e H := eapply returns_bind; [exact rec_good | intros e H].
Ltac b_args es H :=
  eapply returns_bind;
  [apply returns_until_rparen; exact rec_good
  | intros es H; apply forallb_Forall in H].
Ltac good := apply returns_pure; cbv beta in *; cbn [lits_good];
  repeat match goal with H : _ = true |- _ => rewrite H; clear H end; reflexivity.

Lemma returns_parse_let : returns (_parse_let tokens rec) (fun e => lits_good e = true).
Proof.
  unfold _parse_let. skip. skip. b_rec val Hv. skip.
  match goal with |- returns (if ?c then _ else _) _ => destruct c end.
  - skip. good.
  - b_rec body Hb. skip. good.
Qed.

Lemma returns_parse_if : returns (_parse_if tokens rec) (fun e => lits_good e = true).
Proof. unfold _parse_if. skip. b_rec c Hc. b_rec t Ht. b_rec e He. skip. good. Qed.

Lemma returns_parse_match :
  returns (_parse_match tokens fl rec fuel) (fun e => lits_good e = true).
Proof.
  unfold _parse_match. skip. b_rec t Ht.
  eapply returns_bind;
    [apply (returns_until_rparen _ _
              (fun arm => match arm with mkMatchArm _ body => lits_good body end = true)) |].
  - unfold parse_match_arm. skip. skip. b_rec body Hb. skip. apply returns_pure. exact Hb.
  - intros arms Harms. apply forallb_Forall in Harms. skip. good.
Qed.

Lemma returns_parse_lambda :
  returns (_parse_lambda tokens rec fuel) (fun e => lits_good e = true).
Proof. unfold _parse_lambda. skip. skip. skip. skip. b_rec body Hb. skip. good. Qed.

Lemma returns_parse_pipe :
  returns (_parse_pipe tokens rec fuel) (fun e => lits_good e = true).
Proof. unfold _parse_pipe. skip. b_rec v Hv. b_args steps Hs. skip. good. Qed.

Lemma returns_parse_do :
  returns (_parse_do tokens rec fuel) (fun e => lits_good e = true).
Proof.
  unfold _parse_do. skip. b_args es Hes. skip. apply returns_pure.
  cbn [lits_good]. apply chain_lets_good. exact Hes.
Qed.

Lemma returns_parse_op :
  returns (_parse_op tokens rec fuel) (fun e => lits_good e = true).
Proof. unfold _parse_op. skip. b_args args Ha. skip. good. Qed.

Lemma returns_parse_call :
  returns (_parse_call tokens rec fuel) (fun e => lits_good e = true).
Proof. unfold _parse_call. skip. skip. b_args args Ha. skip. good. Qed.

Lemma returns_parse_implicit_call :
  returns (_parse_implicit_call tokens rec fuel) (fun e => lits_good e = true).
Proof. unfold _parse_implicit_call. skip. b_args args Ha. skip. good. Qed.

Lemma returns_parse_list :
  returns (_parse_list tokens rec fuel) (fun e => lits_good e = true).
Proof. unfold _parse_list. skip. b_args args Ha. skip. good. Qed.

Lemma returns_parse_record :
  returns (_parse_record tokens rec fuel) (fun e => lits_good e = true).
Proof.
  unfold _parse_record. skip. skip.
  eapply returns_bind;
    [apply (returns_until_rparen _ _ (fun f => lits_good (snd f) = true)) |].
  - skip. skip. b_rec fval Hf. skip. apply returns_pure. exact Hf.
  - intros fields Hf. apply forallb_Forall in Hf. skip. good.
Qed.

Lemma returns_parse_get : returns (_parse_get tokens rec) (fun e => lits_good e = true).
Proof. unfold _parse_get. skip. b_rec o Ho. skip. skip. good. Qed.

Lemma returns_parse_some : returns (_parse_some tokens rec) (fun e => lits_good e = true).
Proof. unfold _parse_some. skip. b_rec v Hv. skip. good. Qed.

Lemma returns_parse_try : returns (_parse_try tokens rec) (fun e => lits_good e = true).
Proof.
  unfold _parse_try. skip. b_rec b Hb. skip. skip. skip. b_rec c Hc. skip. skip. good.
Qed.

Lemma returns_parse_error : returns (_parse_error tokens rec) (fun e => lits_good e = true).
Proof. unfold _parse_error. skip. b_rec m Hm. skip. good. Qed.

Lemma returns_parse_builtin :
  returns (_parse_builtin tokens rec fuel) (fun e => lits_good e = true).
Proof. unfold _parse_builtin. skip. b_args args Ha. skip. good. Qed.

Lemma returns_parse_sexpr :
  returns (parse_sexpr tokens fl rec fuel) (fun e => lits_good e = true).
Proof.
  unfold parse_sexpr. skip. eapply returns_bind; [apply returns_any |]. intros tk _.
  destruct (negb _); [no_result |]. cbv zeta.
  repeat match goal with
         | |- context [if String.eqb ?a ?b then _ else _] => destruct (String.eqb a b)
         | |- context [if str_in ?a ?b then _ else _] => destruct (str_in a b)
         end;
    first [ apply returns_parse_let | apply returns_parse_if | apply returns_parse_match
          | apply returns_parse_lambda | apply returns_parse_pipe | apply returns_parse_do
          | apply returns_parse_call | apply returns_parse_list | apply returns_parse_record
          | apply returns_parse_get | apply returns_parse_some | apply returns_parse_try
          | apply returns_parse_error | apply returns_parse_op | apply returns_parse_builtin
          | apply returns_parse_implicit_call ].
Qed.
End Forms.

Lemma returns_parse_expr (fuel : nat) :
  returns (parse_expr tokens fl fuel) (fun e => lits_good e = true).
Proof.
  induction fuel as [|fuel IH]; cbn [parse_expr]; [apply returns_out_of_fuel |].
  eapply returns_bind; [apply returns_any |]. intros tok _.
  destruct (type tok); try no_result.
  - apply returns_parse_sexpr. exact IH.
  - skip. apply returns_pure. reflexivity.
  - skip. destruct (py_int (value tok)); [apply returns_pure; reflexivity | no_result].
  - skip. destruct (py_float fl (value tok)); [apply returns_pure; reflexivity | no_result].
  - repeat match goal with
           | |- context [if String.eqb ?a ?b then _ else _] => destruct (String.eqb a b)
           end; skip; apply returns_pure; reflexivity.
Qed.

Lemma returns_parse_definition (fuel : nat) :
  returns (parse_definition tokens fl fuel) (fun d => definition_good d = true).
Proof.
  unfold parse_definition. skip. skip.
  match goal with |- returns (if ?c then _ else _) _ => destruct c end.
  { unfold parse_type_def. skip.
    eapply returns_bind; [apply returns_parse_type_expr |]. intros t Ht. skip.
    apply returns_pure. exact Ht. }
  match goal with |- returns (if ?c then _ else _) _ => destruct c end; [|no_result].
  unfold parse_graph_def. skip.
  eapply returns_bind
    with (Q1 := fun inputs => forallb (fun inp => known (snd inp)) inputs = true).
  { unfold parse_input_decl. skip. skip.
    eapply returns_bind; [apply returns_until_rparen, returns_parse_param |].
    intros params Hp. skip. apply returns_pure. apply forallb_Forall. exact Hp. }
  intros inputs Hin.
  eapply returns_bind with (Q1 := fun t => known t = true).
  { unfold parse_output_decl. skip. skip.
    eapply returns_bind; [apply returns_parse_type_expr |]. intros t Ht. skip.
    apply returns_pure. exact Ht. }
  intros output Hout. skip. skip. skip.
  eapply returns_bind
    with (Q1 := fun c => match c with Some c => contract_good c | None => true end = true).
  { match goal with |- returns (if ?c then _ else _) _ => destruct c end;
      [|apply returns_pure; reflexivity].
    eapply returns_bind with (Q1 := fun c => contract_good c = true);
      [|intros c Hc; apply returns_pure; exact Hc].
    unfold parse_contract_decl. skip. skip.
    eapply returns_bind
      with (Q1 := Forall (fun entry => match entry with
                                       | inl e | inr e => lits_good e = true
                                       end)).
    { apply returns_until_rparen. skip. skip.
      eapply returns_bind
        with (Q1 := fun entry => match entry with inl e | inr e => lits_good e = true end).
      - repeat match goal with |- returns (if ?c then _ else _) _ => destruct c end;
          try no_result;
          (eapply returns_bind; [apply returns_parse_expr |]; intros e He;
           apply returns_pure; exact He).
      - intros entry He. skip. apply returns_pure. exact He. }
    intros entries He. skip. apply returns_pure. unfold contract_good.
    cbn [preconditions postconditions].
    induction He as [|[pre|post] entries He _ IH]; [reflexivity | |];
      apply andb_true_iff in IH as [IH1 IH2]; cbn; rewrite He, IH1, IH2; reflexivity. }
  intros contract Hc.
  eapply returns_bind with (Q1 := fun e => lits_good e = true).
  { unfold parse_body_decl. skip. skip.
    eapply returns_bind; [apply returns_parse_expr |]. intros e He. skip.
    apply returns_pure. exact He. }
  intros body Hb. skip. apply returns_pure.
  unfold definition_good, graph_good. cbn. rewrite Hin, Hout, Hc, Hb. reflexivity.
Qed.

Lemma returns_parse_program (fuel : nat) :
  returns (parse_program tokens fl fuel)
    (fun program => forallb definition_good (definitions program) = true).
Proof.
  unfold parse_program. skip. skip.
  eapply returns_bind; [apply returns_until_rparen, returns_parse_definition |].
  intros defs Hd. skip. apply returns_pure. cbn. apply forallb_Forall. exact Hd.
Qed.

End Tokens.

Lemma parse_good (fl : string -> PyFloat) (source : string) (program : Program) :
  parse fl source = Some (Ok program) ->
  forallb definition_good (definitions program) = true.
Proof.
  unfold parse. destruct (tokenize source) as [[tokens|e]|]; try discriminate.
  destruct (parse_program tokens fl (length tokens) 0) as [[[prog pos]|e]|] eqn:Hp;
    try discriminate.
  intros H.
  assert (prog = program) as <-.
  { destruct (at_eof tokens pos) as [[[eof p]|e]|]; try discriminate.
    destruct eof; [congruence |].
    destruct (peek tokens pos) as [[[tok p']|e]|]; discriminate. }
  exact (returns_parse_program tokens fl _ _ _ _ Hp).
Qed.

(** ** What the emitter raises on such programs *)

Definition safe_error (e : PyError) : Prop := e = IndexError \/ e = NameError.

Definition raises_safe (e : Expr) : Prop :=
  forall err, _expr e = Raise err -> safe_error err.

Definition step_raises_safe (e : Expr) : Prop :=
  forall v err, _apply_pipe_step _expr e v = Raise err -> safe_error err.

Lemma mapM_expr_safe (args : list Expr) (err : PyError) :
  Forall raises_safe args -> mapM _expr args = Raise err -> safe_error err.
Proof. intros H. apply (EmitterExtras.mapM_raise safe_error). exact H. Qed.

Ltac safe_step :=
  match goal with
  | H : Raise _ = Raise _ |- _ => injection H as <-
  | H : Ok _ = Raise _ |- _ => discriminate H
  | IH : raises_safe ?x, H : _expr ?x = Raise _ |- _ => exact (IH _ H)
  | H : mapM _expr ?l = Raise _, IH : Forall raises_safe ?l |- _ =>
      exact (mapM_expr_safe _ _ IH H)
  | H : context [mbind _ (Ok _)] |- _ => cbn [mbind Result_bind] in H
  | H : context [mbind _ (Raise _)] |- _ => cbn [mbind Result_bind] in H
  | H : context [mbind _ (_expr ?x)] |- _ =>
      destruct (_expr x) eqn:?; cbn [mbind Result_bind] in H
  | H : context [mbind _ (mapM _expr ?x)] |- _ =>
      destruct (mapM _expr x) eqn:?; cbn [mbind Result_bind] in H
  | H : context [if ?c then _ else _] |- _ => destruct c
  end.

Lemma pipe_call_safe callee v args err :
  Forall raises_safe args -> pipe_call _expr callee v args = Raise err -> safe_error err.
Proof. unfold pipe_call. intros IH H. repeat safe_step. Qed.

Lemma builtin_safe name raw args err :
  _builtin_expr name raw args = Raise err -> safe_error err.
Proof. exact (EmitterExtras.builtin_expr_raise name raw args err). Qed.

Lemma safe_from_default (e : Expr) :
  raises_safe e ->
  (forall v, _apply_pipe_step _expr e v = (s ← _expr e; Ok (s +:+ "(" +:+ v +:+ ")"))) ->
  raises_safe e /\ step_raises_safe e.
Proof.
  intros Hr Heq. split; [exact Hr |]. intros v err H. rewrite Heq in H. repeat safe_step.
Qed.

Lemma match_arms_safe (arms : list MatchArm) (err : PyError) :
  Forall (fun arm => raises_safe (arm_body arm)) arms ->
  match_arms _expr arms = Raise err -> safe_error err.
Proof.
  intros Harms. revert err.
  induction Harms as [|[p b] arms Hb _ IH]; intros err H; cbn [match_arms] in H;
    [discriminate |].
  cbn [arm_body] in Hb. repeat safe_step.
  destruct (match_arms _expr arms) eqn:Hrest; cbn [mbind Result_bind] in H;
    [discriminate |].
  injection H as <-. apply IH. reflexivity.
Qed.

Lemma pipe_steps_safe (steps : list Expr) (r : string) (err : PyError) :
  Forall (fun e => raises_safe e /\ step_raises_safe e) steps ->
  pipe_steps _expr steps r = Raise err -> safe_error err.
Proof.
  intros Hsteps. revert r.
  induction Hsteps as [|step steps [Hs Hp] _ IH]; intros r H; cbn [pipe_steps] in H;
    [discriminate |].
  match type of H with (?m ≫= _) = _ => destruct m as [r'|err'] eqn:Hstep end;
    cbn [mbind Result_bind] in H; [exact (IH _ H) |].
  injection H as <-.
  destruct step; try (exact (Hp _ _ Hstep)); repeat safe_step.
Qed.

Lemma forall_good (Q : Expr -> Prop) (l : list Expr) :
  Forall (fun e => lits_good e = true -> Q e) l -> forallb lits_good l = true -> Forall Q l.
Proof.
  induction 1 as [|e l He _ IH]; [constructor |].
  cbn [forallb]. intros Hg. apply andb_true_iff in Hg as [H1 H2]. constructor; auto.
Qed.

Lemma forall_safe (l : list Expr) :
  Forall (fun e => raises_safe e /\ step_raises_safe e) l -> Forall raises_safe l.
Proof. intros H. eapply Forall_impl; [exact H |]. intros e [He _]. exact He. Qed.

Ltac unpack :=
  cbn [lits_good] in *;
  repeat match goal with
         | H : _ && _ = true |- _ =>
             let H1 := fresh "Hg" in
             let H2 := fresh "Hg" in
             apply andb_true_iff in H as [H1 H2]
         | IH : ?a = true -> _, H : ?a = true |- _ => specialize (IH H)
         | IH : Forall (fun e => lits_good e = true -> _) ?l,
                H : forallb lits_good ?l = true |- _ =>
             apply (forall_good _ _ IH) in H; clear IH
         | H : _ /\ _ |- _ =>
             let H1 := fresh "IH" in
             let H2 := fresh "IH" in
             destruct H as [H1 H2]
         end.

Lemma good_raises_safe (e : Expr) :
  lits_good e = true -> raises_safe e /\ step_raises_safe e.
Proof.
  revert e.
  apply (ExprInduction.Expr_nested_ind
           (fun e => lits_good e = true -> raises_safe e /\ step_raises_safe e)).
  - intros v th Hg. apply safe_from_default; [|intros; reflexivity].
    intros err H. cbn [_expr] in H. unfold _lit in H. cbn [lits_good] in Hg.
    destruct (String.eqb th "string"); [|repeat safe_step].
    destruct v; try discriminate Hg. discriminate H.
  - intros n _. apply safe_from_default; [|intros; reflexivity].
    intros err H. cbn in H. repeat safe_step.
  - intros n v b IHv IHb Hg. unpack. apply safe_from_default; [|intros; reflexivity].
    intros err H. cbn [_expr] in H. repeat safe_step.
  - intros c t e IHc IHt IHe Hg. unpack. apply safe_from_default; [|intros; reflexivity].
    intros err H. cbn [_expr] in H. repeat safe_step.
  - intros t arms IHt IHarms Hg. unpack. apply safe_from_default; [|intros; reflexivity].
    intros err H. rewrite EmitterFacts.expr_match in H. repeat safe_step.
    destruct (match_arms _expr arms) as [codes|err'] eqn:Harms;
      cbn [mbind Result_bind] in H.
    + destruct codes; discriminate.
    + injection H as <-. eapply match_arms_safe; [|exact Harms].
      match goal with Hf : forallb _ arms = true |- _ => revert Hf end.
      clear -IHarms. induction IHarms as [|[p b] arms Hb _ IH]; [constructor |].
      cbn. intros Hf. apply andb_true_iff in Hf as [H1 H2].
      constructor; [exact (proj1 (Hb H1)) | exact (IH H2)].
  - intros ps b IHb Hg. unpack. apply safe_from_default; [|intros; reflexivity].
    intros err H. cbn [_expr] in H. repeat safe_step.
  - intros v steps IHv IHsteps Hg. unpack. apply safe_from_default; [|intros; reflexivity].
    intros err H. rewrite EmitterFacts.expr_pipe in H. repeat safe_step.
    eapply pipe_steps_safe; eassumption.
  - intros es IHes Hg. unpack. apply safe_from_default; [|intros; reflexivity].
    match goal with Hf : Forall _ es |- _ => apply forall_safe in Hf; rename Hf into Hes end.
    intros err H. cbn [_expr] in H.
    destruct es as [|e0 [|e1 es]].
    + repeat safe_step.
    + exact (Forall_inv Hes _ H).
    + repeat safe_step.
  - intros op args IHargs Hg. unpack. apply safe_from_default; [|intros; reflexivity].
    match goal with Hf : Forall _ args |- _ => apply forall_safe in Hf end.
    intros err H. cbn [_expr] in H. repeat safe_step.
  - intros f args IHargs Hg. unpack.
    match goal with Hf : Forall _ args |- _ => apply forall_safe in Hf; rename Hf into Hargs end.
    split.
    + intros err H. cbn [_expr] in H. repeat safe_step.
      unfold _call_expr in H. repeat safe_step. exact (builtin_safe _ _ _ _ H).
    + intros v err H. cbn [_apply_pipe_step] in H. exact (pipe_call_safe _ _ _ _ Hargs H).
  - intros es IHes Hg. unpack. apply safe_from_default; [|intros; reflexivity].
    match goal with Hf : Forall _ es |- _ => apply forall_safe in Hf end.
    intros err H. cbn [_expr] in H. repeat safe_step.
  - intros tn fields IHfields Hg. cbn [lits_good] in Hg.
    apply safe_from_default; [|intros; reflexivity].
    intros err H. cbn [_expr] in H.
    match type of H with (?m ≫= _) = _ => destruct m as [r'|err'] eqn:Hfields end;
      cbn [mbind Result_bind] in H; [discriminate |].
    injection H as <-. revert Hfields. apply (EmitterExtras.mapM_raise safe_error).
    revert Hg. induction IHfields as [|[fname fval] fields Hf _ IH]; [constructor |].
    cbn. intros Hg. apply andb_true_iff in Hg as [H1 H2].
    constructor; [|exact (IH H2)].
    intros err H. destruct (Hf H1) as [Hs _]. repeat safe_step.
  - intros o f IHo Hg. unpack. apply safe_from_default; [|intros; reflexivity].
    intros err H. cbn [_expr] in H. repeat safe_step.
  - intros o f v IHo IHv Hg. unpack. apply safe_from_default; [|intros; reflexivity].
    intros err H. cbn [_expr] in H. repeat safe_step.
  - intros n args IHargs Hg. unpack.
    match goal with Hf : Forall _ args |- _ => apply forall_safe in Hf; rename Hf into Hargs end.
    split.
    + intros err H. rewrite EmitterFacts.expr_builtin in H. repeat safe_step.
      exact (builtin_safe _ _ _ _ H).
    + intros v err H. cbn [_apply_pipe_step] in H.
      destruct args as [|a0 [|a1 args]].
      * repeat safe_step; try (unfold safe_error; auto; fail);
          exact (pipe_call_safe _ _ _ _ Hargs H).
      * pose proof (Forall_inv Hargs) as IH0.
        repeat safe_step; exact (pipe_call_safe _ _ _ _ Hargs H).
      * pose proof (Forall_inv Hargs) as IH0.
        pose proof (Forall_inv (Forall_inv_tail Hargs)) as IH1.
        repeat safe_step; exact (pipe_call_safe _ _ _ _ Hargs H).
  - intros v IHv Hg. unpack. apply safe_from_default; [|intros; reflexivity].
    intros err H. cbn [_expr] in H. auto.
  - intros _. apply safe_from_default; [|intros; reflexivity]. intros err H. discriminate H.
  - intros b cv cb IHb IHcb Hg. unpack. apply safe_from_default; [|intros; reflexivity].
    intros err H. cbn [_expr] in H. repeat safe_step.
  - intros m IHm Hg. unpack. apply safe_from_default; [|intros; reflexivity].
    intros err H. cbn [_expr] in H. repeat safe_step.
Qed.

Definition emit_safe {A} (r : Emit A) : Prop :=
  match r with
  | Done _ => True
  | Fail e => e = ExprError IndexError \/ e = ExprError NameError
  end.

Definition annotates {A} (r : Emit A) : Prop := exists a, r = Done a.

Lemma annotates_safe {A} (r : Emit A) : annotates r -> emit_safe r.
Proof. intros [a ->]. exact I. Qed.

Lemma bind_safe {A B} (m : Emit A) (k : A -> Emit B) :
  emit_safe m -> (forall a, emit_safe (k a)) -> emit_safe (m ≫= k).
Proof. destruct m as [a|e]; cbn; auto. Qed.

Lemma bind_annotates {A B} (m : Emit A) (k : A -> Emit B) :
  annotates m -> (forall a, annotates (k a)) -> annotates (m ≫= k).
Proof. intros [a ->] Hk. exact (Hk a). Qed.

Lemma map_emit_safe {A B} (f : A -> Emit B) (l : list A) :
  Forall (fun a => emit_safe (f a)) l -> emit_safe (map_emit f l).
Proof.
  induction 1 as [|a l Ha _ IH]; cbn [map_emit]; [exact I |].
  apply bind_safe; [exact Ha |]. intros b.
  apply bind_safe; [exact IH |]. intros bs. exact I.
Qed.

Lemma map_emit_annotates {A B} (f : A -> Emit B) (l : list A) :
  Forall (fun a => annotates (f a)) l -> annotates (map_emit f l).
Proof.
  induction 1 as [|a l Ha _ IH]; cbn [map_emit]; [eexists; reflexivity |].
  apply bind_annotates; [exact Ha |]. intros b.
  apply bind_annotates; [exact IH |]. intros bs. eexists; reflexivity.
Qed.

Lemma lift_safe {A} (r : Result A) :
  (forall err, r = Raise err -> safe_error err) -> emit_safe (lift r).
Proof.
  destruct r as [a|err]; cbn; [auto |].
  intros H. destruct (H err eq_refl) as [-> | ->]; auto.
Qed.

Lemma expr_safe (e : Expr) : lits_good e = true -> emit_safe (lift (_expr e)).
Proof. intros Hg. apply lift_safe. exact (proj1 (good_raises_safe e Hg)). Qed.

Lemma primitive_annotates (name : string) :
  str_in name PRIMITIVE_TYPES = true ->
  annotates (emit_type_annotation (PrimitiveType name)).
Proof.
  unfold str_in, PRIMITIVE_TYPES. cbn [existsb emit_type_annotation].
  unfold primitive_annotations. cbn [table_lookup].
  repeat match goal with
         | |- context [String.eqb name ?k] => destruct (String.eqb name k)
         end; cbn; try discriminate; intros _; eexists; reflexivity.
Qed.

Lemma known_annotates (t : TypeExpr) :
  known t = true -> annotates (emit_type_annotation t).
Proof.
  revert t.
  apply (TypeInduction.TypeExpr_nested_ind
           (fun t => known t = true -> annotates (emit_type_annotation t))).
  - exact primitive_annotates.
  - intros elem IH Hk. cbn [emit_type_annotation].
    apply bind_annotates; [exact (IH Hk) |]. intros a. eexists; reflexivity.
  - intros elem IH Hk. cbn [emit_type_annotation].
    apply bind_annotates; [exact (IH Hk) |]. intros a. eexists; reflexivity.
  - intros elems IH Hk. cbn [emit_type_annotation known] in *.
    apply bind_annotates; [|intros a; eexists; reflexivity].
    apply map_emit_annotates. revert Hk.
    induction IH as [|e es He _ IHes]; [constructor |].
    cbn. intros Hk. apply andb_true_iff in Hk as [H1 H2]. constructor; auto.
  - intros fields _ _. eexists; reflexivity.
  - intros param ret IHp IHr Hk. cbn [emit_type_annotation known] in *.
    apply andb_true_iff in Hk as [H1 H2].
    apply bind_annotates; [exact (IHp H1) |]. intros p.
    apply bind_annotates; [exact (IHr H2) |]. intros r. eexists; reflexivity.
  - intros variants _ _. eexists; reflexivity.
  - intros name _. eexists; reflexivity.
Qed.

Lemma typed_fields_annotate {A} (f : string -> string -> A)
    (fields : list (string * TypeExpr)) :
  forallb (fun p => known (snd p)) fields = true ->
  annotates (map_emit (fun '(name, t) => a ← emit_type_annotation t; Done (f name a))
               fields).
Proof.
  intros Hk. apply map_emit_annotates. apply Forall_forallb in Hk.
  eapply Forall_impl; [exact Hk |]. intros [name t] Ht. cbn [snd] in Ht.
  apply bind_annotates; [exact (known_annotates t Ht) |]. intros a. eexists; reflexivity.
Qed.

Lemma variant_fields_annotates (indent : nat) (many : bool) (vtypes : list TypeExpr) :
  forall i, forallb known vtypes = true ->
            annotates (variant_fields indent many i vtypes).
Proof.
  induction vtypes as [|vt rest IH]; intros i Hk; cbn [variant_fields];
    [eexists; reflexivity |].
  cbn in Hk. apply andb_true_iff in Hk as [H1 H2].
  apply bind_annotates; [exact (known_annotates vt H1) |]. intros a.
  apply bind_annotates; [exact (IH _ H2) |]. intros ls. eexists; reflexivity.
Qed.

Lemma emit_type_def_annotates (indent : nat) (td : TypeDef) :
  known (td_type_expr td) = true -> annotates (_emit_type_def indent td).
Proof.
  unfold _emit_type_def. intros Hk.
  destruct (td_type_expr td) as [name|elem|elem|elems|fields|param ret|variants|name] eqn:Ht;
    try (apply bind_annotates; [exact (known_annotates _ Hk) |];
         intros a; eexists; reflexivity).
  - unfold _emit_record_class. cbn [known] in Hk.
    apply bind_annotates; [|intros b; eexists; reflexivity].
    destruct fields as [|f fs]; [eexists; reflexivity |].
    exact (typed_fields_annotate _ _ Hk).
  - unfold _emit_enum_classes. cbn [known] in Hk.
    apply bind_annotates; [|intros b; eexists; reflexivity].
    apply map_emit_annotates. apply Forall_forallb in Hk.
    eapply Forall_impl; [exact Hk |]. intros [vname vtypes] Hv. cbn [snd] in Hv.
    apply bind_annotates; [|intros b; eexists; reflexivity].
    destruct vtypes as [|vt vts]; [eexists; reflexivity |].
    apply variant_fields_annotates. exact Hv.
Qed.

Lemma flatten_good (e : Expr) :
  lits_good e = true -> Forall (fun s => lits_good s = true) (_flatten_to_statements e).
Proof.
  revert e.
  apply (ExprInduction.Expr_nested_ind
           (fun e => lits_good e = true ->
                     Forall (fun s => lits_good s = true) (_flatten_to_statements e)));
    intros; try (cbn [_flatten_to_statements]; constructor; [assumption | constructor]).
  - (* let *) cbn [_flatten_to_statements]. constructor; [assumption |].
    unpack. assumption.
  - (* do *) cbn [_flatten_to_statements]. unpack.
    match goal with Hf : Forall _ _ |- _ => induction Hf as [|e es He _ IHes] end;
      [constructor |].
    cbn [flat_map]. apply Forall_app. split; assumption.
Qed.

Lemma flat_statement_safe (indent : nat) (e : Expr) :
  lits_good e = true -> emit_safe (_emit_flat_statement indent e).
Proof.
  intros Hg. destruct e; cbn [_emit_flat_statement];
    try (apply bind_safe; [apply expr_safe; exact Hg | intros; exact I]).
  - cbn [lits_good] in Hg. apply andb_true_iff in Hg as [Hv _].
    apply bind_safe; [apply expr_safe; exact Hv | intros; exact I].
  - destruct (String.eqb name "print");
      [|apply bind_safe; [apply expr_safe; exact Hg | intros; exact I]].
    apply bind_safe; [|intros; exact I]. apply lift_safe.
    intros err H. eapply mapM_expr_safe; [|exact H].
    cbn [lits_good] in Hg. apply Forall_forallb in Hg.
    eapply Forall_impl; [exact Hg |]. intros a Ha. exact (proj1 (good_raises_safe a Ha)).
Qed.

Lemma but_last_Forall {A} (Q : A -> Prop) (l : list A) :
  Forall Q l -> Forall Q (but_last l).
Proof.
  induction 1 as [|a l Ha Hl IH]; [constructor |].
  destruct l as [|b l]; [constructor |]. cbn in IH |- *. constructor; assumption.
Qed.

Lemma last_item_Forall {A} (Q : A -> Prop) (l : list A) (a : A) :
  Forall Q l -> last_item l = Done a -> Q a.
Proof.
  unfold last_item. intros Hl. destruct (last l) as [b|] eqn:Hlast; [|discriminate].
  intros H. injection H as <-. apply last_Some_elem_of in Hlast.
  rewrite Forall_forall in Hl. auto.
Qed.

Lemma last_item_safe {A} (l : list A) : emit_safe (last_item l).
Proof. unfold last_item. destruct (last l); cbn; auto. Qed.

Lemma statements_safe (indent : nat) (body : Expr) :
  lits_good body = true ->
  emit_safe (map_emit (_emit_flat_statement indent) (but_last (_flatten_to_statements body))).
Proof.
  intros Hg. apply map_emit_safe. apply but_last_Forall.
  eapply Forall_impl; [exact (flatten_good body Hg) |].
  intros s Hs. apply flat_statement_safe. exact Hs.
Qed.

Lemma last_statement_safe {B} (body : Expr) (k : Expr -> Emit B) :
  lits_good body = true ->
  (forall s, lits_good s = true -> emit_safe (k s)) ->
  emit_safe (last_item (_flatten_to_statements body) ≫= k).
Proof.
  intros Hg Hk.
  destruct (last_item (_flatten_to_statements body)) as [s|e] eqn:Hlast.
  - cbn. apply Hk. exact (last_item_Forall _ _ _ (flatten_good body Hg) Hlast).
  - pose proof (last_item_safe (_flatten_to_statements body)) as Hs.
    rewrite Hlast in Hs. exact Hs.
Qed.

Lemma emit_body_safe (indent : nat) (body : Expr) :
  lits_good body = true -> emit_safe (_emit_body indent body).
Proof.
  intros Hg. unfold _emit_body.
  apply bind_safe; [apply statements_safe; exact Hg |]. intros ls.
  apply last_statement_safe; [exact Hg |]. intros s Hs.
  apply bind_safe; [apply expr_safe; exact Hs | intros; exact I].
Qed.

Lemma asserts_safe (indent : nat) (failure : string) (conds : list Expr) :
  forallb lits_good conds = true ->
  emit_safe (map_emit (assert_line indent failure) conds).
Proof.
  intros Hg. apply map_emit_safe. apply Forall_forallb in Hg.
  eapply Forall_impl; [exact Hg |]. intros c Hc. unfold assert_line.
  apply bind_safe; [apply expr_safe; exact Hc | intros; exact I].
Qed.

Lemma emit_body_with_postconditions_safe (indent : nat) (body : Expr) (posts : list Expr) :
  lits_good body = true -> forallb lits_good posts = true ->
  emit_safe (_emit_body_with_postconditions indent body posts).
Proof.
  intros Hg Hp. unfold _emit_body_with_postconditions.
  apply bind_safe; [apply statements_safe; exact Hg |]. intros ls.
  apply last_statement_safe; [exact Hg |]. intros s Hs.
  apply bind_safe; [apply expr_safe; exact Hs |]. intros text.
  apply bind_safe; [apply asserts_safe; exact Hp | intros; exact I].
Qed.

Lemma emit_graph_safe (indent : nat) (g : Graph) :
  graph_good g = true -> emit_safe (_emit_graph indent g).
Proof.
  unfold graph_good, _emit_graph. intros Hg.
  apply andb_true_iff in Hg as [Hg Hbody]. apply andb_true_iff in Hg as [Hg Hc].
  apply andb_true_iff in Hg as [Hin Hout].
  apply bind_safe; [apply annotates_safe, typed_fields_annotate; exact Hin |]. intros params.
  apply bind_safe; [apply annotates_safe, known_annotates; exact Hout |]. intros ret.
  destruct (g_contract g) as [c|].
  - unfold contract_good in Hc. apply andb_true_iff in Hc as [Hpre Hpost].
    apply bind_safe; [apply asserts_safe; exact Hpre |]. intros pres.
    apply bind_safe; [|intros; exact I].
    destruct (postconditions c) as [|p posts] eqn:Hposts.
    + apply emit_body_safe. exact Hbody.
    + apply emit_body_with_postconditions_safe; assumption.
  - apply bind_safe; [exact I |]. intros pres.
    apply bind_safe; [apply emit_body_safe; exact Hbody | intros; exact I].
Qed.

Lemma emit_safe_good (program : Program) :
  forallb definition_good (definitions program) = true -> emit_safe (emit program).
Proof.
  intros Hg. apply Forall_forallb in Hg. unfold emit. cbv zeta.
  apply bind_safe.
  { apply map_emit_safe. eapply Forall_impl; [exact Hg |]. intros [td|g] Hd; [|exact I].
    apply bind_safe; [|intros; exact I].
    apply annotates_safe, emit_type_def_annotates. exact Hd. }
  intros type_lines. apply bind_safe; [|intros; exact I].
  apply map_emit_safe. eapply Forall_impl; [exact Hg |]. intros [td|g] Hd; [exact I |].
  apply bind_safe; [|intros; exact I]. apply emit_graph_safe. exact Hd.
Qed.

(** A program with one graph and no input. *)
Definition constant_source : string :=
  "(program (graph f (input) (output Int) (effect pure) (body 1)))".

(** X18.  A source text that [parse] accepts is compiled by [emit] to
    a text, or the emitter stops with IndexError or NameError.  The
    KeyError of an unknown primitive type name and the AttributeError
    of a string literal without a string cannot occur on a parsed
    program: the parser builds primitive types only from the five
    names of the table and string literals only from string tokens. *)
Theorem compile_pipeline (fl : string -> PyFloat) (source : string) (program : Program) :
  parse fl source = Some (Ok program) ->
  (exists text, emit program = Done text)
  \/ emit program = Fail (ExprError IndexError)
  \/ emit program = Fail (ExprError NameError).
Proof.
  intros Hparse. pose proof (emit_safe_good program (parse_good fl source program Hparse)) as Hs.
  destruct (emit program) as [text|e]; [left; eexists; reflexivity |].
  cbn in Hs. destruct Hs as [-> | ->]; auto.
Qed.

Lemma compile_pipeline_witness :
  (exists text,
      emit (mkProgram [ DefGraph (mkGraph "f" [] (PrimitiveType "Int") [ "pure" ] None
                                    (LitExpr (VInt 1) "int")) ]) = Done text)
  \/ emit (mkProgram [ DefGraph (mkGraph "f" [] (PrimitiveType "Int") [ "pure" ] None
                                   (LitExpr (VInt 1) "int")) ]) = Fail (ExprError IndexError)
  \/ emit (mkProgram [ DefGraph (mkGraph "f" [] (PrimitiveType "Int") [ "pure" ] None
                                   (LitExpr (VInt 1) "int")) ]) = Fail (ExprError NameError).
Proof.
  exact (compile_pipeline Scenarios.literal_float constant_source _ eq_refl).
Defined.

End PipelineExtras.
